(** * Steam non-Steam shortcuts: [internal/steam/steam.go]

    A shallow embedding of the shortcut repository of the installer
    (ReadShortcuts, WriteShortcuts, AddShortcut, UpdateShortcut,
    RemoveShortcut, GenerateAppID) together with the properties stated for
    it.  Go's [uint32] is a [Z] with its wrap-around written out, Go strings
    are [string], file contents are [list byte], Go maps are [gmap]. *)

From Stdlib Require Import ZArith Lia.
From Stdlib Require Import Strings.Byte Strings.Ascii.
From stdpp Require Import gmap strings list fin_maps pretty.

#[local] Set Warnings "-register-all".
Local Open Scope Z_scope.

(** ** Values of the binary key-value format

    [vdf.Map] is a Go map from strings to dynamically typed values; the
    values the shortcut code inspects are strings, [uint32]s and nested
    maps. *)

#[global] Instance byte_eq_dec : EqDecision byte := Byte.byte_eq_dec.

Inductive Node :=
| NString (s : string)
| NUInt32 (n : Z)
| NMap (m : gmap string Node).

Fixpoint node_size (n : Node) : nat :=
  match n with
  | NMap m => S (map_fold (λ _ v acc, (node_size v + acc)%nat) 0%nat m)
  | _ => 1%nat
  end.

Definition uint32_max : Z := 4294967296.

(** Conversion to [uint32]. *)
Definition uint32 (z : Z) : Z := z mod uint32_max.

Definition is_uint32 (z : Z) : Prop := 0 <= z < uint32_max.

(** A Go string that can be written as a NUL-terminated string. *)
Definition nul_free (s : string) : Prop := x00 ∉ String.list_byte_of_string s.

(** Trees whose strings and keys hold no NUL byte and whose integers fit
    32 bits. *)
Fixpoint node_wf (n : Node) : Prop :=
  match n with
  | NString s => nul_free s
  | NUInt32 z => is_uint32 z
  | NMap m => map_fold (λ k v acc, nul_free k ∧ node_wf v ∧ acc) True m
  end.

Definition map_wf (m : gmap string Node) : Prop :=
  map_Forall (λ k v, nul_free k ∧ node_wf v) m.

(** ** The binary codec *)

Module VDF.

Definition tag_map : byte := x00.
Definition tag_string : byte := x01.
Definition tag_uint32 : byte := x02.
Definition tag_end : byte := x08.

Definition byte_of_Z (z : Z) : byte :=
  default x00 (Byte.of_N (Z.to_N (z mod 256))).

Definition Z_of_byte (b : byte) : Z := Z.of_N (Byte.to_N b).

Definition put_uint32 (z : Z) : list byte :=
  [byte_of_Z z; byte_of_Z (z / 256); byte_of_Z (z / 65536);
   byte_of_Z (z / 16777216)].

Definition get_uint32 (b0 b1 b2 b3 : byte) : Z :=
  Z_of_byte b0 + 256 * Z_of_byte b1 + 65536 * Z_of_byte b2
  + 16777216 * Z_of_byte b3.

Definition put_cstring (s : string) : list byte :=
  String.list_byte_of_string s ++ [x00].

(** Bytes up to the first NUL, and what follows it; [None] when the
    terminator is missing. *)
Fixpoint get_cstring_bytes (bs : list byte) : option (list byte * list byte) :=
  match bs with
  | [] => None
  | b :: bs' =>
      if decide (b = x00) then Some ([], bs')
      else '(s, rest) ← get_cstring_bytes bs'; Some (b :: s, rest)
  end.

Definition get_cstring (bs : list byte) : option (string * list byte) :=
  '(s, rest) ← get_cstring_bytes bs; Some (String.string_of_list_byte s, rest).

Fixpoint encode_node (key : string) (n : Node) : list byte :=
  match n with
  | NString s => tag_string :: put_cstring key ++ put_cstring s
  | NUInt32 z => tag_uint32 :: put_cstring key ++ put_uint32 z
  | NMap m =>
      tag_map :: put_cstring key
      ++ map_fold (λ k v acc, encode_node k v ++ acc) [tag_end] m
  end.

Definition encode_entries (l : list (string * Node)) : list byte :=
  foldr (λ kv acc, encode_node kv.1 kv.2 ++ acc) [tag_end] l.

(** Modelled from the spec: [vdf.WriteBinary] of the module
    github.com/jslay88/vdf, which is not part of the sources.  Each entry
    is a type tag, the NUL-terminated key and the value; nested objects are
    written depth-first and closed by the end tag, as is the root.  The
    encoder cannot fail on the three kinds of values. *)
Definition WriteBinary (m : gmap string Node) : option (list byte) :=
  Some (map_fold (λ k v acc, encode_node k v ++ acc) [tag_end] m).

(** Entries of one object, up to its closing tag.  [fuel] bounds the
    number of entries and the nesting depth; the length of the input is
    always enough. *)
Fixpoint decode_entries (fuel : nat) (acc : gmap string Node)
    (bs : list byte) : option (gmap string Node * list byte) :=
  match fuel with
  | O => None
  | S fuel' =>
      match bs with
      | [] => None
      | tag :: bs1 =>
          if decide (tag = tag_end) then Some (acc, bs1)
          else
            '(key, bs2) ← get_cstring bs1;
            if decide (tag = tag_map) then
              '(m, bs3) ← decode_entries fuel' ∅ bs2;
              decode_entries fuel' (<[key := NMap m]> acc) bs3
            else if decide (tag = tag_string) then
              '(s, bs3) ← get_cstring bs2;
              decode_entries fuel' (<[key := NString s]> acc) bs3
            else if decide (tag = tag_uint32) then
              match bs2 with
              | b0 :: b1 :: b2 :: b3 :: bs3 =>
                  decode_entries fuel'
                    (<[key := NUInt32 (get_uint32 b0 b1 b2 b3)]> acc) bs3
              | _ => None
              end
            else None
      end
  end.

(** Modelled from the spec: [vdf.ReadBinary] of the module
    github.com/jslay88/vdf, which is not part of the sources.  Empty input
    is the empty object; otherwise entries are read until the root's end
    tag, a truncated or malformed input is a parse error ([None]), and so
    are bytes after the root's end tag. *)
Definition ReadBinary (data : list byte) : option (gmap string Node) :=
  match data with
  | [] => Some ∅
  | _ =>
      match decode_entries (length data) ∅ data with
      | Some (m, []) => Some m
      | _ => None
      end
  end.

End VDF.

(** The codec the repository is written against: the two entry points of
    the vdf module that [steam.go] calls. *)
Class Codec := {
  ReadBinary : list byte → option (gmap string Node);
  WriteBinary : gmap string Node → option (list byte)
}.

#[global] Instance vdf_codec : Codec :=
  {| ReadBinary := VDF.ReadBinary; WriteBinary := VDF.WriteBinary |}.

(** ** Iterating over Go maps

    [for k, v := range m] visits every entry of a map once, in an order the
    language leaves unspecified and that may change from one loop to the
    next.  An iterator fixes the orders met during one call. *)

Record MapIter := {
  range : ∀ A : Type, gmap string A → list (string * A);
  range_perm : ∀ (A : Type) (m : gmap string A), range A m ≡ₚ map_to_list m
}.
Arguments range _ {A} _.

Definition iter_fwd : MapIter :=
  {| range := λ A m, map_to_list m;
     range_perm := λ A m, reflexivity (map_to_list m) |}.

Definition iter_rev : MapIter :=
  {| range := λ A m, reverse (map_to_list m);
     range_perm := λ A m, reverse_Permutation (map_to_list m) |}.

(** ** Shortcuts *)

Record Shortcut := {
  AppID : Z;
  AppName : string;
  Exe : string;
  StartDir : string;
  Icon : string;
  ShortcutPath : string;
  LaunchOptions : string;
  IsHidden : Z;
  AllowDesktopConfig : Z;
  AllowOverlay : Z;
  OpenVR : Z;
  Devkit : Z;
  DevkitGameID : string;
  DevkitOverrideAppID : Z;
  LastPlayTime : Z;
  FlatpakAppID : string;
  Tags : gmap string string
}.

(** [shortcut.AppID = appID] *)
Definition set_AppID (appID : Z) (s : Shortcut) : Shortcut :=
  {| AppID := appID; AppName := AppName s; Exe := Exe s;
     StartDir := StartDir s; Icon := Icon s; ShortcutPath := ShortcutPath s;
     LaunchOptions := LaunchOptions s; IsHidden := IsHidden s;
     AllowDesktopConfig := AllowDesktopConfig s;
     AllowOverlay := AllowOverlay s; OpenVR := OpenVR s; Devkit := Devkit s;
     DevkitGameID := DevkitGameID s;
     DevkitOverrideAppID := DevkitOverrideAppID s;
     LastPlayTime := LastPlayTime s; FlatpakAppID := FlatpakAppID s;
     Tags := Tags s |}.

(** The values a [Shortcut] can hold in Go and that survive being written:
    every integer field is a [uint32], no string holds a NUL byte. *)
Definition shortcut_wf (s : Shortcut) : Prop :=
  is_uint32 (AppID s) ∧ nul_free (AppName s) ∧ nul_free (Exe s)
  ∧ nul_free (StartDir s) ∧ nul_free (Icon s) ∧ nul_free (ShortcutPath s)
  ∧ nul_free (LaunchOptions s) ∧ is_uint32 (IsHidden s)
  ∧ is_uint32 (AllowDesktopConfig s) ∧ is_uint32 (AllowOverlay s)
  ∧ is_uint32 (OpenVR s) ∧ is_uint32 (Devkit s) ∧ nul_free (DevkitGameID s)
  ∧ is_uint32 (DevkitOverrideAppID s) ∧ is_uint32 (LastPlayTime s)
  ∧ nul_free (FlatpakAppID s)
  ∧ map_Forall (λ k v, nul_free k ∧ nul_free v) (Tags s).

Definition dquote : string := String (Ascii.ascii_of_nat 34) EmptyString.

(** [filepath.Dir] on a clean path: what precedes the last separator. *)
Fixpoint dir_prefix (p : string) : option string :=
  match p with
  | EmptyString => None
  | String c p' =>
      match dir_prefix p' with
      | Some d => Some (String c d)
      | None => if Ascii.eqb c "/"%char then Some EmptyString else None
      end
  end.

Definition filepath_Dir (p : string) : string :=
  match dir_prefix p with
  | None => "."
  | Some EmptyString => "/"
  | Some d => d
  end.

(** [filepath.Join] of a clean, non-empty directory and a file name. *)
Definition filepath_Join (dir name : string) : string := dir +:+ "/" +:+ name.

Definition NewShortcut (appName exePath : string) : Shortcut :=
  let startDir := filepath_Dir exePath in
  {| AppID := 0;
     AppName := appName;
     Exe := dquote +:+ exePath +:+ dquote;
     StartDir := dquote +:+ startDir +:+ dquote;
     Icon := "";
     ShortcutPath := "";
     LaunchOptions := "";
     IsHidden := 0;
     AllowDesktopConfig := 1;
     AllowOverlay := 1;
     OpenVR := 0;
     Devkit := 0;
     DevkitGameID := "";
     DevkitOverrideAppID := 0;
     LastPlayTime := 0;
     FlatpakAppID := "";
     Tags := ∅ |}.

(** ** Errors and the environment *)

Inductive error :=
| ErrReadFile            (* failed to read shortcuts file *)
| ErrParseVDF            (* failed to parse shortcuts VDF *)
| ErrWriteVDF            (* failed to write shortcuts VDF *)
| ErrCreateDir           (* failed to create directory *)
| ErrWriteFile           (* failed to write shortcuts file *)
| ErrRandom              (* failed to generate random AppID *)
| ErrNotFound (appID : Z). (* shortcut with AppID %d not found *)

Inductive result (A : Type) :=
| Ok (a : A)
| Err (e : error).
Arguments Ok {A} a.
Arguments Err {A} e.

(** A flat file system: a path holds a regular file or is a directory. *)
Inductive fnode :=
| File (data : list byte)
| Directory.

Abbreviation filesystem := (gmap string fnode).

Inductive read_result :=
| ReadData (data : list byte)
| ReadNotExist
| ReadFailed.

(** [os.ReadFile]: reading a directory fails with an error that is not
    "not exist". *)
Definition os_ReadFile (fs : filesystem) (path : string) : read_result :=
  match fs !! path with
  | None => ReadNotExist
  | Some (File data) => ReadData data
  | Some Directory => ReadFailed
  end.

(** [os.MkdirAll]: fails when the path is a regular file. *)
Definition os_MkdirAll (fs : filesystem) (dir : string) : option filesystem :=
  match fs !! dir with
  | Some (File _) => None
  | _ => Some (<[dir := Directory]> fs)
  end.

(** [os.WriteFile]: creates or truncates the file; fails on a directory. *)
Definition os_WriteFile (fs : filesystem) (path : string) (data : list byte) :
    option filesystem :=
  match fs !! path with
  | Some Directory => None
  | _ => Some (<[path := File data]> fs)
  end.

(** One call of [rand.Int(rand.Reader, max)]: an error, or an integer. *)
Inductive rand_outcome :=
| RandErr
| RandInt (n : Z).

Record User := {
  ID : string;
  AccountName : string;
  PersonaName : string;
  ConfigPath : string
}.

Definition ShortcutsPath (u : User) : string :=
  filepath_Join (ConfigPath u) "shortcuts.vdf".

(** ** GenerateAppID *)

Definition minID : Z := uint32 0xFF000000.
Definition maxID : Z := uint32 0xFFFFFFFF.

(** [int64(maxID - minID)], the bound handed to [rand.Int]. *)
Definition rangeSize : Z := uint32 (maxID - minID).

(** What [rand.Int(rand.Reader, big.NewInt(rangeSize))] may return: an
    error, or an integer in [[0, rangeSize)]. *)
Definition rand_ok (r : rand_outcome) : Prop :=
  match r with
  | RandErr => True
  | RandInt n => 0 <= n < rangeSize
  end.

Definition GenerateAppID (r : rand_outcome) : result Z :=
  match r with
  | RandErr => Err ErrRandom
  | RandInt n => Ok (uint32 (minID + uint32 n))
  end.

(** ** Reading *)

(** [v, ok := m[key].(uint32)], the field keeping its zero value when the
    key is missing or holds a value of another type. *)
Definition field_uint32 (m : gmap string Node) (key : string) : Z :=
  match m !! key with
  | Some (NUInt32 v) => v
  | _ => 0
  end.

Definition field_string (m : gmap string Node) (key : string) : string :=
  match m !! key with
  | Some (NString v) => v
  | _ => ""
  end.

Definition field_tags (it : MapIter) (m : gmap string Node) :
    gmap string string :=
  match m !! "tags" with
  | Some (NMap tags) =>
      foldl (λ acc kv,
               match kv.2 with
               | NString str => <[kv.1 := str]> acc
               | _ => acc
               end) ∅ (range it tags)
  | _ => ∅
  end.

Definition parseShortcutEntry (it : MapIter) (m : gmap string Node) :
    Shortcut :=
  {| AppID := field_uint32 m "appid";
     AppName := field_string m "AppName";
     Exe := field_string m "Exe";
     StartDir := field_string m "StartDir";
     Icon := field_string m "icon";
     ShortcutPath := field_string m "ShortcutPath";
     LaunchOptions := field_string m "LaunchOptions";
     IsHidden := field_uint32 m "IsHidden";
     AllowDesktopConfig := field_uint32 m "AllowDesktopConfig";
     AllowOverlay := field_uint32 m "AllowOverlay";
     OpenVR := field_uint32 m "OpenVR";
     Devkit := field_uint32 m "Devkit";
     DevkitGameID := field_string m "DevkitGameID";
     DevkitOverrideAppID := field_uint32 m "DevkitOverrideAppID";
     LastPlayTime := field_uint32 m "LastPlayTime";
     FlatpakAppID := field_string m "FlatpakAppID";
     Tags := field_tags it m |}.

(** The loop of [ReadShortcuts] over the entries of the shortcuts map, in
    the order the iteration produces them. *)
Definition collectShortcuts (it : MapIter)
    (entries : list (string * Node)) : list Shortcut :=
  foldl (λ shortcuts kv,
           match kv.2 with
           | NMap entryMap => shortcuts ++ [parseShortcutEntry it entryMap]
           | _ => shortcuts
           end) [] entries.

Definition ReadShortcuts `{Codec} (it : MapIter) (fs : filesystem)
    (path : string) : result (list Shortcut) :=
  match os_ReadFile fs path with
  | ReadNotExist => Ok []
  | ReadFailed => Err ErrReadFile
  | ReadData data =>
      if decide (length data = 0%nat) then Ok []
      else
        match ReadBinary data with
        | None => Err ErrParseVDF
        | Some vdfMap =>
            match vdfMap !! "shortcuts" with
            | None => Ok []
            | Some (NMap shortcutsMap) =>
                Ok (collectShortcuts it (range it shortcutsMap))
            | Some _ => Ok []
            end
        end
  end.

(** ** Writing *)

Definition toVDFMap (it : MapIter) (s : Shortcut) : gmap string Node :=
  let m : gmap string Node :=
    list_to_map
      [("appid", NUInt32 (AppID s));
       ("AppName", NString (AppName s));
       ("Exe", NString (Exe s));
       ("StartDir", NString (StartDir s));
       ("icon", NString (Icon s));
       ("ShortcutPath", NString (ShortcutPath s));
       ("LaunchOptions", NString (LaunchOptions s));
       ("IsHidden", NUInt32 (IsHidden s));
       ("AllowDesktopConfig", NUInt32 (AllowDesktopConfig s));
       ("AllowOverlay", NUInt32 (AllowOverlay s));
       ("OpenVR", NUInt32 (OpenVR s));
       ("Devkit", NUInt32 (Devkit s));
       ("DevkitGameID", NString (DevkitGameID s));
       ("DevkitOverrideAppID", NUInt32 (DevkitOverrideAppID s));
       ("LastPlayTime", NUInt32 (LastPlayTime s));
       ("FlatpakAppID", NString (FlatpakAppID s))] in
  let tags : gmap string Node :=
    foldl (λ tags kv, <[kv.1 := NString kv.2]> tags) ∅ (range it (Tags s)) in
  <["tags" := NMap tags]> m.

(** The loop of [WriteShortcuts]: entry [i] is stored under the decimal
    string of [i]. *)
Definition shortcutsToMap (it : MapIter) (shortcuts : list Shortcut) :
    gmap string Node :=
  foldl (λ shortcutsMap '(i, s),
           <[pretty (i : nat) := NMap (toVDFMap it s)]> shortcutsMap)
    ∅ (zip (seq 0 (length shortcuts)) shortcuts).

Definition WriteShortcuts `{Codec} (it : MapIter) (fs : filesystem)
    (path : string) (shortcuts : list Shortcut) : result unit * filesystem :=
  let shortcutsMap := shortcutsToMap it shortcuts in
  let vdfMap : gmap string Node := {["shortcuts" := NMap shortcutsMap]} in
  match WriteBinary vdfMap with
  | None => (Err ErrWriteVDF, fs)
  | Some data =>
      match os_MkdirAll fs (filepath_Dir path) with
      | None => (Err ErrCreateDir, fs)
      | Some fs1 =>
          match os_WriteFile fs1 path data with
          | None => (Err ErrWriteFile, fs1)
          | Some fs2 => (Ok (), fs2)
          end
      end
  end.

(** ** AddShortcut *)

(** The inner loop over the collection: does an entry use [appID]? *)
Definition conflict (shortcuts : list Shortcut) (appID : Z) : bool :=
  existsb (λ s, AppID s =? appID) shortcuts.

(** The retry loop of [AddShortcut].  [rng] lists the outcomes of the calls
    of [rand.Int] still to come; the result is [None] when the loop is
    still running after the last of them. *)
Fixpoint retryAppID (shortcuts : list Shortcut) (appID : Z)
    (rng : list rand_outcome) : option (result Z * list rand_outcome) :=
  if conflict shortcuts appID then
    match rng with
    | [] => None
    | r :: rng' =>
        match GenerateAppID r with
        | Err e => Some (Err e, rng')
        | Ok appID' => retryAppID shortcuts appID' rng'
        end
    end
  else Some (Ok appID, rng).

(** The block [if shortcut.AppID == 0 { ... }]: the first call of
    [GenerateAppID], then the retry loop. *)
Definition allocateAppID (shortcuts : list Shortcut)
    (rng : list rand_outcome) : option (result Z * list rand_outcome) :=
  match rng with
  | [] => None
  | r :: rng' =>
      match GenerateAppID r with
      | Err e => Some (Err e, rng')
      | Ok appID => retryAppID shortcuts appID rng'
      end
  end.

(** What a call of [AddShortcut] leaves behind: the returned triple, the
    caller's shortcut (passed by pointer), the file system and the unused
    random outcomes. *)
Record AddResult := {
  add_ret : result (Z * bool);
  add_shortcut : Shortcut;
  add_fs : filesystem;
  add_rng : list rand_outcome
}.

Definition AddShortcut `{Codec} (it : MapIter) (user : User)
    (shortcut : Shortcut) (fs : filesystem) (rng : list rand_outcome) :
    option AddResult :=
  match ReadShortcuts it fs (ShortcutsPath user) with
  | Err e => Some {| add_ret := Err e; add_shortcut := shortcut;
                     add_fs := fs; add_rng := rng |}
  | Ok shortcuts =>
      match find (λ s, String.eqb (AppName s) (AppName shortcut)) shortcuts with
      | Some s => Some {| add_ret := Ok (AppID s, false);
                          add_shortcut := shortcut;
                          add_fs := fs; add_rng := rng |}
      | None =>
          '(assigned, rng') ←
            (if AppID shortcut =? 0 then allocateAppID shortcuts rng
             else Some (Ok (AppID shortcut), rng));
          match assigned with
          | Err e => Some {| add_ret := Err e; add_shortcut := shortcut;
                             add_fs := fs; add_rng := rng' |}
          | Ok appID =>
              let shortcut' := set_AppID appID shortcut in
              let shortcuts' := shortcuts ++ [shortcut'] in
              match WriteShortcuts it fs (ShortcutsPath user) shortcuts' with
              | (Err e, fs') =>
                  Some {| add_ret := Err e; add_shortcut := shortcut';
                          add_fs := fs'; add_rng := rng' |}
              | (Ok _, fs') =>
                  Some {| add_ret := Ok (AppID shortcut', true);
                          add_shortcut := shortcut';
                          add_fs := fs'; add_rng := rng' |}
              end
          end
      end
  end.

(** ** UpdateShortcut, FindShortcutByName, RemoveShortcut *)

Definition UpdateShortcut `{Codec} (it : MapIter) (user : User)
    (shortcut : Shortcut) (fs : filesystem) : result unit * filesystem :=
  match ReadShortcuts it fs (ShortcutsPath user) with
  | Err e => (Err e, fs)
  | Ok shortcuts =>
      match list_find (λ s, AppID s = AppID shortcut) shortcuts with
      | Some (i, _) =>
          WriteShortcuts it fs (ShortcutsPath user) (<[i := shortcut]> shortcuts)
      | None => (Err (ErrNotFound (AppID shortcut)), fs)
      end
  end.

Definition FindShortcutByName `{Codec} (it : MapIter) (user : User)
    (appName : string) (fs : filesystem) : result (option Shortcut) :=
  match ReadShortcuts it fs (ShortcutsPath user) with
  | Err e => Err e
  | Ok shortcuts =>
      Ok (find (λ s, String.eqb (AppName s) appName) shortcuts)
  end.

Definition RemoveShortcut `{Codec} (it : MapIter) (user : User) (appID : Z)
    (fs : filesystem) : result unit * filesystem :=
  match ReadShortcuts it fs (ShortcutsPath user) with
  | Err e => (Err e, fs)
  | Ok shortcuts =>
      let filtered := filter (λ s, AppID s ≠ appID) shortcuts in
      WriteShortcuts it fs (ShortcutsPath user) filtered
  end.

(** ** What the repository needs from the codec

    The properties of the vdf module the shortcut code relies on: empty
    input is the empty object, a tree without NUL bytes and with 32-bit
    integers is read back as written, and decoding yields only such trees. *)

Class CodecLaws (c : Codec) : Prop := {
  read_empty : ReadBinary [] = Some ∅;
  write_read : ∀ m, map_wf m →
    ∃ data, WriteBinary m = Some data ∧ ReadBinary data = Some m;
  read_wf : ∀ data m, ReadBinary data = Some m → map_wf m
}.

(** ** Notions used to state the properties *)

(** AppIDs, once non-zero, are unique within a collection. *)
Definition unique_nonzero (l : list Shortcut) : Prop :=
  NoDup (filter (λ a, a ≠ 0) (AppID <$> l)).

(** Whatever order a read visits the file's entries in, the collection it
    returns has unique non-zero AppIDs. *)
Definition disk_unique `{Codec} (fs : filesystem) (path : string) : Prop :=
  ∀ it l, ReadShortcuts it fs path = Ok l → unique_nonzero l.

(** The file at [path] holds the collection [S], up to the order a read
    returns it in. *)
Definition holds `{Codec} (fs : filesystem) (path : string)
    (S : list Shortcut) : Prop :=
  ∀ it, ∃ l, ReadShortcuts it fs path = Ok l ∧ l ≡ₚ S.

(** The path can be written: its parent is not a regular file and the path
    is not its own parent. *)
Definition writable (fs : filesystem) (path : string) : Prop :=
  (∀ data, fs !! filepath_Dir path ≠ Some (File data))
  ∧ filepath_Dir path ≠ path ∧ fs !! path ≠ Some Directory.

(** Sequential calls of [AddShortcut] for one user, each with its own
    iteration order, sharing the file system and the random source. *)
Fixpoint AddShortcuts `{Codec} (calls : list (MapIter * Shortcut))
    (user : User) (fs : filesystem) (rng : list rand_outcome) :
    option (list (result (Z * bool)) * filesystem * list rand_outcome) :=
  match calls with
  | [] => Some ([], fs, rng)
  | (it, shortcut) :: calls' =>
      r ← AddShortcut it user shortcut fs rng;
      '(rets, fs', rng') ← AddShortcuts calls' user (add_fs r) (add_rng r);
      Some (add_ret r :: rets, fs', rng')
  end.

(** The keys [parseShortcutEntry] reads as [uint32] and as strings, with
    the field each one fills. *)
Definition uint32_fields : list (string * (Shortcut → Z)) :=
  [("appid", AppID); ("IsHidden", IsHidden);
   ("AllowDesktopConfig", AllowDesktopConfig); ("AllowOverlay", AllowOverlay);
   ("OpenVR", OpenVR); ("Devkit", Devkit);
   ("DevkitOverrideAppID", DevkitOverrideAppID);
   ("LastPlayTime", LastPlayTime)].

Definition string_fields : list (string * (Shortcut → string)) :=
  [("AppName", AppName); ("Exe", Exe); ("StartDir", StartDir); ("icon", Icon);
   ("ShortcutPath", ShortcutPath); ("LaunchOptions", LaunchOptions);
   ("DevkitGameID", DevkitGameID); ("FlatpakAppID", FlatpakAppID)].

Definition is_NUInt32 (v : Node) : bool :=
  match v with NUInt32 _ => true | _ => false end.
Definition is_NString (v : Node) : bool :=
  match v with NString _ => true | _ => false end.
Definition is_NMap (v : Node) : bool :=
  match v with NMap _ => true | _ => false end.

(** The AppID [GenerateAppID] computes from the integer [rand.Int] returned. *)
Definition appID_of_draw (n : Z) : Z := uint32 (minID + uint32 n).

(** All entries of the collection that carry [name] carry one AppID. *)
Definition name_determines_id (name : string) (l : list Shortcut) : Prop :=
  ∀ s s', s ∈ l → s' ∈ l → AppName s = name → AppName s' = name →
    AppID s = AppID s'.

(** ** Concrete users, shortcuts and files *)

Module Fixtures.

Definition user0 : User :=
  {| ID := "12345"; AccountName := ""; PersonaName := ""; ConfigPath := "/cfg" |}.

Definition path0 : string := ShortcutsPath user0.

Definition gameA : Shortcut := NewShortcut "Game A" "/a/a.exe".
Definition gameB : Shortcut := NewShortcut "Game B" "/b/b.exe".

(** The two entries of the round-trip test. *)
Definition game1 : Shortcut := set_AppID 0xFF000001 gameA.
Definition game2 : Shortcut := set_AppID 0xFF000002 gameB.

(** A second shortcut carrying the AppID of [game1]. *)
Definition game2_dup : Shortcut := set_AppID 0xFF000001 gameB.

(** [game2] renamed to the name of [game1]. *)
Definition game2_renamed : Shortcut :=
  {| AppID := AppID game2; AppName := AppName game1; Exe := Exe game2;
     StartDir := StartDir game2; Icon := Icon game2;
     ShortcutPath := ShortcutPath game2;
     LaunchOptions := LaunchOptions game2; IsHidden := IsHidden game2;
     AllowDesktopConfig := AllowDesktopConfig game2;
     AllowOverlay := AllowOverlay game2; OpenVR := OpenVR game2;
     Devkit := Devkit game2; DevkitGameID := DevkitGameID game2;
     DevkitOverrideAppID := DevkitOverrideAppID game2;
     LastPlayTime := LastPlayTime game2; FlatpakAppID := FlatpakAppID game2;
     Tags := Tags game2 |}.

(** A shortcut with every field set, tags included. *)
Definition tagged : Shortcut :=
  {| AppID := 0xFF000003; AppName := "Test"; Exe := "/path/to/game.exe";
     StartDir := "/path/to"; Icon := "/path/to/icon.ico"; ShortcutPath := "";
     LaunchOptions := "-windowed"; IsHidden := 0; AllowDesktopConfig := 1;
     AllowOverlay := 1; OpenVR := 0; Devkit := 0; DevkitGameID := "";
     DevkitOverrideAppID := 0; LastPlayTime := 12345; FlatpakAppID := "";
     Tags := <["0" := "tag1"]> (<["1" := "tag2"]> ∅) |}.

(** The file system after [WriteShortcuts] of a collection into an empty
    one. *)
Definition disk_of (l : list Shortcut) : filesystem :=
  (WriteShortcuts iter_fwd ∅ path0 l).2.

(** An entry whose [appid] is a string and whose [AppName] is an integer. *)
Definition mistyped : gmap string Node :=
  <["appid" := NString "7"]> (<["AppName" := NUInt32 7]>
    (<["Exe" := NString "x.exe"]> (<["tags" := NString "t"]> ∅))).

(** The encoding of an empty collection. *)
Definition empty_collection_bytes : list byte :=
  [x00; x73; x68; x6f; x72; x74; x63; x75; x74; x73; x00; x08; x08].

End Fixtures.

Module Scenario.
Import Fixtures.

(** The second shortcut of the spec's first scenario: the name of [gameA],
    another executable. *)
Definition gameA_again : Shortcut := NewShortcut "Game A" "/other/b.exe".

(** The file system a call of [AddShortcut] leaves. *)
Definition after_add (it : MapIter) (shortcut : Shortcut)
    (rng : list rand_outcome) (fs : filesystem) : filesystem :=
  match AddShortcut it user0 shortcut fs rng with
  | Some r => add_fs r
  | None => fs
  end.

(** [gameA] and [gameB] are added to an empty library. *)
Definition disk_two : filesystem :=
  after_add iter_fwd gameB [RandInt 2] (after_add iter_fwd gameA [RandInt 1] ∅).

(** Then the second entry is renamed to the name of the first. *)
Definition disk_renamed : filesystem :=
  (UpdateShortcut iter_fwd user0 game2_renamed disk_two).2.

(** [game1] is added with its AppID given, then [game2_dup] with the same
    AppID. *)
Definition disk_dup : filesystem :=
  after_add iter_fwd game2_dup [] (after_add iter_fwd game1 [] ∅).

End Scenario.

(** The outcome of the append-and-write tail of [AddShortcut]. *)
Definition add_written `{Codec} (it : MapIter) (user : User)
    (shortcuts : list Shortcut) (shortcut' : Shortcut) (fs : filesystem)
    (rng' : list rand_outcome) : AddResult :=
  match WriteShortcuts it fs (ShortcutsPath user) (shortcuts ++ [shortcut']) with
  | (Err e, fs') => {| add_ret := Err e; add_shortcut := shortcut';
                       add_fs := fs'; add_rng := rng' |}
  | (Ok _, fs') => {| add_ret := Ok (AppID shortcut', true);
                      add_shortcut := shortcut';
                      add_fs := fs'; add_rng := rng' |}
  end.

(** ** Auxiliary notions of the proofs *)

(** Entries inserted one after the other, later ones overriding. *)
Definition insert_all (l : list (string * Node)) (acc : gmap string Node) :
    gmap string Node :=
  foldl (λ m kv, <[kv.1 := kv.2]> m) acc l.

(** What decoding the encoding of a list of entries gives. *)
Definition decodes (l : list (string * Node)) : Prop :=
  ∀ fuel acc rest,
    (length (VDF.encode_entries l) ≤ fuel)%nat →
    VDF.decode_entries fuel acc (VDF.encode_entries l ++ rest)
    = Some (insert_all l acc, rest).

Definition node_decodes (n : Node) : Prop :=
  match n with
  | NMap m => decodes (map_to_list m)
  | _ => True
  end.

(** One step of a loop that stores the entries a partial function keeps. *)
Definition insert_some {A B : Type} (h : A → option B) (acc : gmap string B)
    (kv : string * A) : gmap string B :=
  match h kv.2 with
  | Some b => <[kv.1 := b]> acc
  | None => acc
  end.

Definition node_string (v : Node) : option string :=
  match v with NString s => Some s | _ => None end.

(** The shortcut one entry of the shortcuts map contributes. *)
Definition entry_shortcut (it : MapIter) (kv : string * Node) :
    option Shortcut :=
  match kv.2 with
  | NMap entryMap => Some (parseShortcutEntry it entryMap)
  | _ => None
  end.

(** The index entries [WriteShortcuts] stores. *)
Definition entries (it : MapIter) (shortcuts : list Shortcut) :
    list (string * Node) :=
  (λ '(i, s), (pretty (i : nat), NMap (toVDFMap it s)))
    <$> zip (seq 0 (length shortcuts)) shortcuts.

#[global] Instance nul_free_dec s : Decision (nul_free s).
Proof. unfold nul_free. apply _. Defined.

#[global] Instance is_uint32_dec z : Decision (is_uint32 z).
Proof. unfold is_uint32. apply _. Defined.

#[global] Instance shortcut_wf_dec s : Decision (shortcut_wf s).
Proof. unfold shortcut_wf. apply _. Defined.

#[global] Instance rand_ok_dec r : Decision (rand_ok r).
Proof. destruct r; apply _. Defined.

(** Closed decidable facts, by evaluation. *)
Ltac by_eval := apply (bool_decide_unpack _); vm_compute; exact I.

(** * The rest of the package

    The functions around the shortcut library: the user's files and names,
    the users of an installation, the Proton versions, the installer's step
    that adds the game, and stopping Steam. *)

(** ** The user's files and the installer's step *)

Definition LocalConfigPath (u : User) : string :=
  filepath_Join (ConfigPath u) "localconfig.vdf".


(** The shortcut the installer adds to the library. *)
Definition gameName : string := "Zelda: Link's Awakening DX HD".

(** Step 9 of [runInstall]: the game's shortcut is built from the path of
    its executable and added to the user's library. *)
Definition runInstall_AddShortcut `{Codec} (it : MapIter) (user : User)
    (exePath : string) (fs : filesystem) (rng : list rand_outcome) :
    option AddResult :=
  AddShortcut it user (NewShortcut gameName exePath) fs rng.

(** ** Users *)

Definition DisplayName (u : User) : string :=
  if decide (PersonaName u ≠ "") then
    PersonaName u +:+ " (" +:+ AccountName u +:+ ")"
  else if decide (AccountName u ≠ "") then AccountName u
  else "User " +:+ ID u.

(** [strconv.ParseUint(s, 10, 64)]: a non-empty string of decimal digits
    whose value fits 64 bits; [None] for a syntax or range error. *)
Definition maxUint64 : Z := 18446744073709551615.

Definition digit_of (c : ascii) : option Z :=
  let n := Z.of_N (N_of_ascii c) in
  if decide (48 <= n <= 57) then Some (n - 48) else None.

Fixpoint ParseUint_digits (n : Z) (s : string) : option Z :=
  match s with
  | EmptyString => Some n
  | String c s' =>
      match digit_of c with
      | None => None
      | Some d =>
          if decide (maxUint64 / 10 + 1 <= n) then None
          else
            let n1 := n * 10 + d in
            if decide (maxUint64 < n1) then None else ParseUint_digits n1 s'
      end
  end.

Definition ParseUint (s : string) : option Z :=
  if decide (s = "") then None else ParseUint_digits 0 s.

Definition uint64 (z : Z) : Z := z mod 18446744073709551616.

(** [strconv.FormatUint(n, 10)] *)
Definition FormatUint (n : Z) : string := pretty n.

(** An entry of a directory, as [os.ReadDir] lists it. *)
Record DirEntry := {
  Name : string;
  IsDir : bool
}.

(** [os.Stat] followed by [info.IsDir()]. *)
Definition stat_IsDir (fs : filesystem) (path : string) : bool :=
  match fs !! path with
  | Some Directory => true
  | _ => false
  end.

Record Steam := {
  Path : string;
  UserDataPath : string;
  SteamConfigPath : string;   (* the field [ConfigPath] of [Steam] *)
  AppsPath : string;
  CompatPath : string
}.

Record loginUserInfo := {
  loginAccountName : string;
  loginPersonaName : string
}.

(** A node of a parsed text VDF document, with what [getLoginUsers] asks
    of it. *)
Inductive DocNode := {
  Key : string;
  IsObject : bool;
  Children : list DocNode;
  GetString : string → string
}.

(** [steam3ID := steamID64 - 76561197960265728], on [uint64]. *)
Definition steam3ID (steamID64 : Z) : Z :=
  uint64 (steamID64 - 76561197960265728).

(** [users] is what [doc.Get("users")] returned, [None] when the file
    could not be parsed or has no such node. *)
Definition getLoginUsers (users : option DocNode) :
    gmap string loginUserInfo :=
  match users with
  | None => ∅
  | Some users =>
      if negb (IsObject users) then ∅
      else
        foldl (λ result child,
                 if negb (IsObject child) then result
                 else
                   match ParseUint (Key child) with
                   | None => result
                   | Some steamID64 =>
                       let info :=
                         {| loginAccountName := GetString child "AccountName";
                            loginPersonaName := GetString child "PersonaName" |} in
                       <[FormatUint (steam3ID steamID64) := info]> result
                   end)
          ∅ (Children users)
  end.

Inductive users_error :=
| ErrReadUserData            (* failed to read userdata directory *)
| ErrNoUsers                 (* no Steam users found *)
| ErrUserNotFound (id : string).

(** [entries] is what [os.ReadDir(s.UserDataPath)] returned, [None] for
    an error; [loginusers] is the [users] node of loginusers.vdf. *)
Definition GetUsers (s : Steam) (entries : option (list DirEntry))
    (loginusers : option DocNode) (fs : filesystem) :
    users_error + list User :=
  match entries with
  | None => inl ErrReadUserData
  | Some entries =>
      let accountNames := getLoginUsers loginusers in
      let users :=
        foldl (λ users entry,
                 if negb (IsDir entry) then users
                 else
                   let id := Name entry in
                   if String.eqb id "0" then users
                   else
                     match ParseUint id with
                     | None => users
                     | Some _ =>
                         let configPath :=
                           filepath_Join (filepath_Join (UserDataPath s) id)
                             "config" in
                         if negb (stat_IsDir fs configPath) then users
                         else
                           let user :=
                             match accountNames !! id with
                             | Some info =>
                                 {| ID := id;
                                    AccountName := loginAccountName info;
                                    PersonaName := loginPersonaName info;
                                    ConfigPath := configPath |}
                             | None =>
                                 {| ID := id; AccountName := "";
                                    PersonaName := ""; ConfigPath := configPath |}
                             end in
                           users ++ [user]
                     end)
          [] entries in
      if decide (length users = 0%nat) then inl ErrNoUsers else inr users
  end.

Definition GetUserByID (s : Steam) (entries : option (list DirEntry))
    (loginusers : option DocNode) (fs : filesystem) (id : string) :
    users_error + User :=
  match GetUsers s entries loginusers fs with
  | inl e => inl e
  | inr users =>
      match find (λ user, String.eqb (ID user) id) users with
      | Some user => inr user
      | None => inl (ErrUserNotFound id)
      end
  end.

(** ** Proton versions *)

Definition CommonPath (s : Steam) : string := filepath_Join (AppsPath s) "common".

(** [strings.HasPrefix] *)
Definition HasPrefix (s prefix : string) : bool := String.prefix prefix s.

(** [strings.Contains] *)
Fixpoint Contains (s substr : string) : bool :=
  String.prefix substr s
  || match s with
     | EmptyString => false
     | String _ s' => Contains s' substr
     end.

(** [entries] is what [os.ReadDir(s.CommonPath())] returned. *)
Definition GetProtonVersions (entries : option (list DirEntry)) :
    option (list string) :=
  match entries with
  | None => None
  | Some entries =>
      Some (foldl (λ versions entry,
                     if negb (IsDir entry) then versions
                     else
                       let name := Name entry in
                       if HasPrefix name "Proton" || HasPrefix name "GE-Proton"
                       then versions ++ [name]
                       else versions)
              [] entries)
  end.

(** The four buckets of [GetAvailableProtonVersions]. *)
Record buckets := {
  experimental : list string;
  ge : list string;
  regular : list string;
  other : list string
}.

Definition classify (b : buckets) (v : string) : buckets :=
  if Contains v "Experimental" then
    {| experimental := experimental b ++ [v]; ge := ge b;
       regular := regular b; other := other b |}
  else if HasPrefix v "GE-Proton" then
    {| experimental := experimental b; ge := ge b ++ [v];
       regular := regular b; other := other b |}
  else if HasPrefix v "Proton" then
    {| experimental := experimental b; ge := ge b;
       regular := regular b ++ [v]; other := other b |}
  else
    {| experimental := experimental b; ge := ge b;
       regular := regular b; other := other b ++ [v] |}.

Definition GetAvailableProtonVersions (entries : option (list DirEntry)) :
    option (list string) :=
  match GetProtonVersions entries with
  | None => None
  | Some versions =>
      let b := foldl classify
                 {| experimental := []; ge := []; regular := []; other := [] |}
                 versions in
      Some (experimental b ++ ge b ++ regular b ++ other b)
  end.

(** ** Stopping Steam *)

Inductive signal := SIGTERM | SIGKILL.

(** What [Kill] does to the outside, in order. *)
Inductive event :=
| Signal (pid : Z) (sig : signal)
| Sleep (ms : Z)
| Poll.

Inductive kill_error :=
| ErrFindProcess       (* failed to find process *)
| ErrSIGTERM           (* failed to send SIGTERM *)
| ErrSIGKILL           (* failed to send SIGKILL *)
| ErrStillRunning.     (* failed to kill Steam process *)

(** The processes [Kill] meets: the PID [GetPID] returns if it returns
    one, whether [os.FindProcess] and [process.Signal] succeed, and the
    answer of the [k]-th call of [IsRunning]. *)
Record Procs := {
  GetPID : option Z;
  FindProcess : Z → bool;
  SignalOk : Z → signal → bool;
  IsRunning : nat → bool
}.

(** The loop [for i := 0; i < 20; i++]: [n] rounds are left, [k] calls of
    [IsRunning] were made.  Returns whether Steam was seen to have exited
    and the events of the loop. *)
Fixpoint waitExit (w : Procs) (n k : nat) : bool * list event :=
  match n with
  | O => (false, [])
  | S n' =>
      if IsRunning w k then
        let '(exited, t) := waitExit w n' (S k) in
        (exited, Sleep 500 :: Poll :: t)
      else (true, [Sleep 500; Poll])
  end.

Definition Kill (w : Procs) : option kill_error * list event :=
  match GetPID w with
  | None => (None, [])
  | Some pid =>
      if negb (FindProcess w pid) then (Some ErrFindProcess, [])
      else if negb (SignalOk w pid SIGTERM) then
        (Some ErrSIGTERM, [Signal pid SIGTERM])
      else
        let '(exited, t) := waitExit w 20 0 in
        if exited then (None, Signal pid SIGTERM :: t)
        else if negb (SignalOk w pid SIGKILL) then
          (Some ErrSIGKILL, Signal pid SIGTERM :: t ++ [Signal pid SIGKILL])
        else if IsRunning w 20 then
          (Some ErrStillRunning,
           Signal pid SIGTERM :: t ++ [Signal pid SIGKILL; Sleep 1000; Poll])
        else
          (None,
           Signal pid SIGTERM :: t ++ [Signal pid SIGKILL; Sleep 1000; Poll])
  end.

(** The polls and the time slept in a run. *)
Definition polls (t : list event) : nat :=
  foldr (λ e acc, match e with Poll => S acc | _ => acc end) 0%nat t.

Definition slept (t : list event) : Z :=
  foldr (λ e acc, match e with Sleep ms => ms + acc | _ => acc end) 0 t.

(** ** Concrete libraries, users and processes *)

Module Samples.
Import Fixtures.

(** A file with a foreign top-level key, and an entry that is not a map. *)
Definition junk_map : gmap string Node :=
  <["shortcuts" :=
      NMap (<["0" := NMap (toVDFMap iter_fwd game1)]>
              (<["1" := NString "junk"]> ∅))]>
    (<["version" := NUInt32 1]> ∅).

Definition junk_disk : filesystem :=
  {[path0 := File (default [] (VDF.WriteBinary junk_map))]}.

(** The library [[game2]] beside a localconfig.vdf. *)
Definition notes_disk : filesystem :=
  <["/cfg/localconfig.vdf" := File [x41]]> (disk_of [game2]).


(** [gameA] with another executable and the AppID of [game1]. *)
Definition game1_moved : Shortcut :=
  set_AppID 0xFF000001 (NewShortcut "Game A" "/moved/a.exe").

Definition steam0 : Steam :=
  {| Path := "/steam"; UserDataPath := "/steam/userdata";
     SteamConfigPath := "/steam/config"; AppsPath := "/steam/steamapps";
     CompatPath := "/steam/steamapps/compatdata" |}.

Definition userdata0 : list DirEntry :=
  [{| Name := "0"; IsDir := true |};
   {| Name := "12345"; IsDir := true |};
   {| Name := "ac"; IsDir := true |};
   {| Name := "777"; IsDir := false |};
   {| Name := "999"; IsDir := true |}].

(** Only the user 12345 has a [config] directory. *)
Definition userdata_disk : filesystem :=
  {["/steam/userdata/12345/config" := Directory]}.

(** loginusers.vdf with the account 76561197960278073 = base + 12345. *)
Definition link_node : DocNode :=
  {| Key := "76561197960278073"; IsObject := true; Children := [];
     GetString := λ k, if String.eqb k "AccountName" then "link"
                       else if String.eqb k "PersonaName" then "Link" else "" |}.

Definition loginusers0 : DocNode :=
  {| Key := "users"; IsObject := true;
     Children :=
       [link_node;
        {| Key := "76561197960278074"; IsObject := false; Children := [];
           GetString := λ _, "" |};
        {| Key := "MostRecent"; IsObject := true; Children := [];
           GetString := λ _, "" |}];
     GetString := λ _, "" |}.

Definition link : User :=
  {| ID := "12345"; AccountName := "link"; PersonaName := "Link";
     ConfigPath := "/steam/userdata/12345/config" |}.

End Samples.

(** * Properties *)

Import Fixtures Scenario.

(** ** Trees and the codec *)

Lemma foldr_size_elem (l : list (string * Node)) kv :
  kv ∈ l →
  (node_size kv.2 ≤ foldr (λ kv acc, node_size kv.2 + acc) 0 l)%nat.
Proof.
  induction 1 as [|?? ? ? IH]; simpl; lia.
Qed.

Lemma node_size_lookup (m : gmap string Node) k v :
  m !! k = Some v → (node_size v < node_size (NMap m))%nat.
Proof.
  intros Hk. simpl. rewrite map_fold_foldr.
  apply elem_of_map_to_list in Hk.
  apply foldr_size_elem in Hk. simpl in Hk.
  unfold uncurry. 
  enough (foldr (λ '(_, v0) acc, (node_size v0 + acc)%nat) 0%nat (map_to_list m)
     = foldr (λ kv acc, node_size kv.2 + acc)%nat 0%nat (map_to_list m)) as -> by lia.
  apply foldr_ext; [|done..]. by intros [??] ?.
Qed.

Lemma Node_nested_ind (P : Node → Prop) :
  (∀ s, P (NString s)) →
  (∀ z, P (NUInt32 z)) →
  (∀ m, map_Forall (λ _ v, P v) m → P (NMap m)) →
  ∀ n, P n.
Proof.
  intros Hs Hz Hm n.
  remember (node_size n) as sz eqn:Hsz.
  revert n Hsz. induction (lt_wf sz) as [sz _ IH]. intros [s|z|m] ->; auto.
  apply Hm. intros k v Hk. eapply IH; [|done]. by eapply node_size_lookup.
Qed.

Lemma node_wf_NMap m : node_wf (NMap m) ↔ map_wf m.
Proof.
  unfold map_wf. rewrite map_Forall_to_list. simpl. rewrite map_fold_foldr.
  induction (map_to_list m) as [|[k v] l IH]; simpl.
  - split; [constructor|done].
  - rewrite Forall_cons. simpl. tauto.
Qed.

Section vdf_facts.
Import VDF.

Lemma get_cstring_bytes_app (bs rest : list byte) :
  x00 ∉ bs → get_cstring_bytes (bs ++ x00 :: rest) = Some (bs, rest).
Proof.
  induction bs as [|b bs IH]; intros Hn; [done|].
  rewrite not_elem_of_cons in Hn. destruct Hn as [Hb Hn].
  cbn [app get_cstring_bytes]. destruct (decide (b = x00)) as [->|_]; [done|].
  by rewrite IH.
Qed.

Lemma get_put_cstring s rest :
  nul_free s → get_cstring (put_cstring s ++ rest) = Some (s, rest).
Proof.
  intros Hs. unfold get_cstring, put_cstring. rewrite <-app_assoc. simpl.
  rewrite get_cstring_bytes_app by done. simpl.
  by rewrite String.string_of_list_byte_of_string.
Qed.

Lemma Z_of_byte_of_Z z : 0 <= z < 256 → Z_of_byte (byte_of_Z z) = z.
Proof.
  intros Hz. unfold Z_of_byte, byte_of_Z. rewrite Z.mod_small by done.
  destruct (Byte.of_N (Z.to_N z)) as [b|] eqn:Hb; simpl.
  - apply Byte.to_of_N in Hb. lia.
  - apply Byte.of_N_None_iff in Hb. lia.
Qed.

Lemma Z_of_byte_of_Z_mod z : Z_of_byte (byte_of_Z z) = z mod 256.
Proof.
  transitivity (Z_of_byte (byte_of_Z (z mod 256))).
  - unfold byte_of_Z. by rewrite Z.mod_mod.
  - apply Z_of_byte_of_Z. by apply Z.mod_pos_bound.
Qed.

Lemma Z_of_byte_range b : 0 <= Z_of_byte b < 256.
Proof. unfold Z_of_byte. pose proof (Byte.to_N_bounded b). lia. Qed.

Lemma get_uint32_range b0 b1 b2 b3 : is_uint32 (get_uint32 b0 b1 b2 b3).
Proof.
  unfold is_uint32, get_uint32, uint32_max.
  pose proof (Z_of_byte_range b0). pose proof (Z_of_byte_range b1).
  pose proof (Z_of_byte_range b2). pose proof (Z_of_byte_range b3). lia.
Qed.

Lemma get_put_uint32 z :
  is_uint32 z →
  ∃ b0 b1 b2 b3, put_uint32 z = [b0; b1; b2; b3] ∧ get_uint32 b0 b1 b2 b3 = z.
Proof.
  intros Hz. eexists _, _, _, _. split; [reflexivity|].
  unfold get_uint32. rewrite !Z_of_byte_of_Z_mod.
  unfold is_uint32, uint32_max in Hz.
  Z.div_mod_to_equations. lia.
Qed.

Lemma encode_node_NMap key m :
  encode_node key (NMap m)
  = tag_map :: put_cstring key ++ encode_entries (map_to_list m).
Proof.
  simpl. rewrite map_fold_foldr. unfold encode_entries. do 2 f_equal.
  apply foldr_ext; [|done..]. by intros [??] ?.
Qed.

Lemma WriteBinary_entries m :
  WriteBinary m = Some (encode_entries (map_to_list m)).
Proof.
  unfold WriteBinary. rewrite map_fold_foldr. unfold encode_entries. f_equal.
  apply foldr_ext; [|done..]. by intros [??] ?.
Qed.

Lemma insert_all_union l acc :
  insert_all l acc = list_to_map (reverse l) ∪ acc.
Proof.
  revert acc. induction l as [|[k v] l IH]; intros acc; simpl.
  - by rewrite (left_id_L ∅ (∪)).
  - rewrite IH, reverse_cons, list_to_map_app. simpl.
    rewrite <-(assoc_L (∪)). f_equal.
    by rewrite insert_empty, <-insert_union_singleton_l.
Qed.

Lemma insert_all_map_to_list (m : gmap string Node) :
  insert_all (map_to_list m) ∅ = m.
Proof.
  rewrite insert_all_union, (right_id_L ∅ (∪)).
  rewrite <-(list_to_map_to_list m) at 2.
  symmetry. apply list_to_map_proper; [apply NoDup_fst_map_to_list|].
  symmetry. apply reverse_Permutation.
Qed.

Lemma encode_entries_cons k v l :
  encode_entries ((k, v) :: l) = encode_node k v ++ encode_entries l.
Proof. done. Qed.

Lemma decodes_list l :
  Forall (λ kv, nul_free kv.1 ∧ node_wf kv.2 ∧ node_decodes kv.2) l →
  decodes l.
Proof.
  induction 1 as [|[k v] l (Hk & Hv & Hd) _ IH]; intros fuel acc rest Hfuel.
  - destruct fuel as [|fuel]; [simpl in Hfuel; lia|]. done.
  - rewrite encode_entries_cons in *. rewrite length_app in Hfuel.
    destruct fuel as [|fuel]; [destruct v; simpl in Hfuel; lia|].
    simpl in Hk, Hv, Hd. destruct v as [s|z|m].
    + cbn [encode_node] in *. rewrite <-!app_comm_cons, <-!app_assoc.
      cbn [decode_entries]. rewrite decide_False by done.
      rewrite get_put_cstring by done. cbn [mbind option_bind].
      rewrite decide_False by done. rewrite decide_True by done.
      rewrite get_put_cstring by done. cbn [mbind option_bind].
      apply IH. simpl in Hfuel. lia.
    + cbn [encode_node] in *. rewrite <-!app_comm_cons, <-!app_assoc.
      cbn [decode_entries]. rewrite decide_False by done.
      rewrite get_put_cstring by done. cbn [mbind option_bind].
      rewrite decide_False by done. rewrite decide_False by done.
      rewrite decide_True by done.
      destruct (get_put_uint32 z Hv) as (b0 & b1 & b2 & b3 & -> & Hget).
      cbn [app]. rewrite Hget. apply IH. simpl in Hfuel. lia.
    + rewrite encode_node_NMap in *. rewrite <-!app_comm_cons, <-!app_assoc.
      cbn [decode_entries]. rewrite decide_False by done.
      rewrite get_put_cstring by done. cbn [mbind option_bind].
      rewrite decide_True by done.
      simpl in Hfuel. rewrite !length_app in Hfuel.
      rewrite Hd by lia. cbn [mbind option_bind].
      rewrite insert_all_map_to_list. apply IH. lia.
Qed.

Lemma node_wf_decodes n : node_wf n → node_decodes n.
Proof.
  induction n as [s|z|m IH] using Node_nested_ind; [done..|].
  rewrite node_wf_NMap. intros Hwf. simpl. apply decodes_list.
  apply Forall_forall. intros [k v] Hkv%elem_of_map_to_list. simpl.
  destruct (Hwf k v Hkv) as [??]. split_and!; [done..|]. by eapply IH.
Qed.

Lemma encode_entries_nonempty l : encode_entries l ≠ [].
Proof. destruct l as [|[k [s|z|m]] l]; done. Qed.

Lemma ReadBinary_WriteBinary m :
  map_wf m →
  ∃ data, WriteBinary m = Some data ∧ data ≠ [] ∧ ReadBinary data = Some m.
Proof.
  intros Hwf. eexists. split; [apply WriteBinary_entries|].
  split; [apply encode_entries_nonempty|].
  pose proof (node_wf_decodes (NMap m)) as Hd. rewrite node_wf_NMap in Hd.
  specialize (Hd Hwf (length (encode_entries (map_to_list m))) ∅ []).
  rewrite (right_id_L [] (++)), insert_all_map_to_list in Hd.
  specialize (Hd ltac:(done)). unfold ReadBinary.
  pose proof (encode_entries_nonempty (map_to_list m)) as Hne.
  destruct (encode_entries (map_to_list m)) as [|b data]; [done|].
  by rewrite Hd.
Qed.

Lemma get_cstring_bytes_nul bs s rest :
  get_cstring_bytes bs = Some (s, rest) → x00 ∉ s.
Proof.
  revert s. induction bs as [|b bs IH]; intros s; [by intros [=]|].
  cbn [get_cstring_bytes]. destruct (decide (b = x00)) as [->|Hb].
  - intros [= <- _]. apply not_elem_of_nil.
  - destruct (get_cstring_bytes bs) as [[s' r]|]; [|done]. simpl.
    intros [= <- <-]. apply not_elem_of_cons. split; [done|]. by apply IH.
Qed.

Lemma get_cstring_nul_free bs s rest :
  get_cstring bs = Some (s, rest) → nul_free s.
Proof.
  unfold get_cstring.
  destruct (get_cstring_bytes bs) as [[s' r]|] eqn:E; [|done]. simpl.
  intros [= <- _]. unfold nul_free.
  rewrite String.list_byte_of_string_of_list_byte.
  by eapply get_cstring_bytes_nul.
Qed.

Lemma map_wf_insert k v m :
  nul_free k → node_wf v → map_wf m → map_wf (<[k:=v]> m).
Proof. intros. by apply map_Forall_insert_2. Qed.

Lemma decode_entries_wf fuel acc bs m rest :
  map_wf acc → decode_entries fuel acc bs = Some (m, rest) → map_wf m.
Proof.
  revert acc bs m rest. induction fuel as [|fuel IH]; intros acc bs m rest Hacc; [done|].
  destruct bs as [|tag bs1]; [done|]. cbn [decode_entries].
  destruct (decide (tag = tag_end)); [by intros [= <- _]|].
  destruct (get_cstring bs1) as [[key bs2]|] eqn:Hkey; [|done].
  apply get_cstring_nul_free in Hkey. cbn [mbind option_bind].
  repeat case_decide.
  - destruct (decode_entries fuel ∅ bs2) as [[m' bs3]|] eqn:Hm; [|done].
    cbn [mbind option_bind]. apply IH. apply map_wf_insert; [done| |done].
    apply node_wf_NMap. eapply IH; [|done]. apply map_Forall_empty.
  - destruct (get_cstring bs2) as [[s bs3]|] eqn:Hs; [|done].
    apply get_cstring_nul_free in Hs. cbn [mbind option_bind].
    apply IH. by apply map_wf_insert.
  - destruct bs2 as [|b0 [|b1 [|b2 [|b3 bs3]]]]; try done.
    apply IH. apply map_wf_insert; [done| |done]. apply get_uint32_range.
  - done.
Qed.

Lemma ReadBinary_wf data m : ReadBinary data = Some m → map_wf m.
Proof.
  unfold ReadBinary. destruct data as [|b data].
  - intros [= <-]. apply map_Forall_empty.
  - destruct (decode_entries _ _ _) as [[m' [|??]]|] eqn:E; [|done..].
    intros [= <-]. eapply decode_entries_wf; [|done]. apply map_Forall_empty.
Qed.

End vdf_facts.

(** ** Maps, entries and well-formed values *)

Lemma foldl_pointwise {A B} (f g : A → B → A) a (l : list B) :
  (∀ a b, f a b = g a b) → foldl f a l = foldl g a l.
Proof.
  intros Hfg. revert a. induction l as [|b l IH]; intros a; [done|].
  simpl. by rewrite Hfg, IH.
Qed.

Section fold_insert.
Context {A B : Type} (h : A → option B).

Lemma foldl_insert_some_lookup (l : list (string * A)) acc k :
  NoDup l.*1 →
  foldl (insert_some h) acc l !! k
  = match (list_to_map l : gmap string A) !! k ≫= h with
    | Some b => Some b
    | None => acc !! k
    end.
Proof.
  revert acc. induction l as [|[k0 v0] l IH]; intros acc Hnd; [done|].
  apply NoDup_cons in Hnd as [Hk0 Hnd]. cbn [foldl]. rewrite IH by done.
  cbn [list_to_map foldr fst snd]. destruct (decide (k = k0)) as [->|Hne].
  - rewrite lookup_insert_eq. rewrite (not_elem_of_list_to_map_1 _ k0) by done.
    simpl. unfold insert_some. simpl. destruct (h v0); [by rewrite lookup_insert_eq|done].
  - rewrite lookup_insert_ne by done.
    destruct (list_to_map l !! k ≫= h); [done|].
    unfold insert_some. simpl. destruct (h v0); [by rewrite lookup_insert_ne|done].
Qed.

Lemma foldl_insert_some_perm (l : list (string * A)) (m : gmap string A) :
  l ≡ₚ map_to_list m → foldl (insert_some h) ∅ l = omap h m.
Proof.
  intros Hl. apply map_eq. intros k.
  assert (NoDup l.*1) as Hnd.
  { rewrite Hl. apply NoDup_fst_map_to_list. }
  rewrite foldl_insert_some_lookup, lookup_omap by done.
  rewrite (list_to_map_proper l (map_to_list m)), list_to_map_to_list by done.
  rewrite lookup_empty. by destruct (m !! k ≫= h).
Qed.
End fold_insert.

Lemma field_tags_omap it m :
  field_tags it m
  = match m !! "tags" with
    | Some (NMap tags) => omap node_string tags
    | _ => ∅
    end.
Proof.
  unfold field_tags. destruct (m !! "tags") as [[| |tags]|]; try done.
  rewrite <-(foldl_insert_some_perm node_string (range it tags) tags)
    by apply range_perm.
  apply foldl_pointwise. intros acc [k [s|z|t]]; done.
Qed.

Lemma toVDFMap_tags it s :
  toVDFMap it s !! "tags" = Some (NMap (NString <$> Tags s)).
Proof.
  unfold toVDFMap. rewrite lookup_insert_eq. do 2 f_equal.
  transitivity (foldl (insert_some (λ v, Some (NString v))) ∅ (range it (Tags s))).
  { by apply foldl_pointwise. }
  rewrite (foldl_insert_some_perm _ _ (Tags s)) by apply range_perm.
  apply map_eq. intros k. rewrite lookup_omap, lookup_fmap.
  by destruct (Tags s !! k).
Qed.

Lemma parse_toVDFMap it it' s : parseShortcutEntry it' (toVDFMap it s) = s.
Proof.
  destruct s. unfold parseShortcutEntry. f_equal; try reflexivity.
  rewrite field_tags_omap, toVDFMap_tags. simpl.
  apply map_eq. intros k. rewrite lookup_omap, lookup_fmap.
  by destruct (_ !! k).
Qed.

Lemma collectShortcuts_omap it l :
  collectShortcuts it l = omap (entry_shortcut it) l.
Proof.
  unfold collectShortcuts.
  enough (∀ acc, foldl (λ shortcuts kv,
            match kv.2 with
            | NMap entryMap => shortcuts ++ [parseShortcutEntry it entryMap]
            | _ => shortcuts
            end) acc l = acc ++ omap (entry_shortcut it) l) as -> by done.
  induction l as [|[k v] l IH]; intros acc; simpl.
  - by rewrite (right_id_L [] (++)).
  - rewrite IH. unfold entry_shortcut at 2. simpl.
    destruct v; simpl; try done. by rewrite <-app_assoc.
Qed.

Lemma parseShortcutEntry_iter it it' m :
  parseShortcutEntry it m = parseShortcutEntry it' m.
Proof. unfold parseShortcutEntry. by rewrite !field_tags_omap. Qed.

Lemma entry_shortcut_iter it it' kv : entry_shortcut it kv = entry_shortcut it' kv.
Proof.
  unfold entry_shortcut. destruct kv.2; try done.
  by rewrite (parseShortcutEntry_iter it it').
Qed.

Lemma shortcutsToMap_insert_all it shortcuts :
  shortcutsToMap it shortcuts = insert_all (entries it shortcuts) ∅.
Proof.
  unfold shortcutsToMap, insert_all, entries. rewrite foldl_fmap.
  apply foldl_pointwise. by intros acc [i s].
Qed.

Lemma entries_keys it shortcuts :
  (entries it shortcuts).*1 = pretty <$> seq 0 (length shortcuts).
Proof.
  unfold entries. rewrite <-list_fmap_compose.
  transitivity (pretty <$> (zip (seq 0 (length shortcuts)) shortcuts).*1).
  - rewrite <-list_fmap_compose. apply list_fmap_ext. by intros ? [??] ?.
  - by rewrite fst_zip by (rewrite length_seq; lia).
Qed.

Lemma entries_NoDup it shortcuts : NoDup (entries it shortcuts).*1.
Proof.
  rewrite entries_keys. apply (NoDup_fmap_2 _). apply NoDup_seq.
Qed.

Lemma insert_all_list_to_map l :
  NoDup l.*1 → insert_all l ∅ = list_to_map l.
Proof.
  intros Hnd. rewrite insert_all_union, (right_id_L ∅ (∪)). symmetry.
  apply list_to_map_proper; [done|]. symmetry. apply reverse_Permutation.
Qed.

Lemma shortcutsToMap_to_list it shortcuts :
  map_to_list (shortcutsToMap it shortcuts) ≡ₚ entries it shortcuts.
Proof.
  rewrite shortcutsToMap_insert_all, insert_all_list_to_map
    by apply entries_NoDup.
  apply map_to_list_to_map, entries_NoDup.
Qed.

Lemma omap_entries it it' shortcuts :
  omap (entry_shortcut it') (entries it shortcuts) = shortcuts.
Proof.
  unfold entries. generalize 0%nat.
  induction shortcuts as [|s l IH]; intros n; [done|].
  cbn [length seq zip zip_with fmap list_fmap omap list_omap].
  unfold entry_shortcut at 1. cbn [snd]. rewrite parse_toVDFMap.
  f_equal. apply IH.
Qed.

(** Reading the shortcuts map that [WriteShortcuts] builds. *)
Lemma collect_shortcutsToMap it it' shortcuts :
  collectShortcuts it' (range it' (shortcutsToMap it shortcuts)) ≡ₚ shortcuts.
Proof.
  rewrite collectShortcuts_omap, range_perm, shortcutsToMap_to_list.
  by rewrite omap_entries.
Qed.

Lemma nul_free_String c s :
  nul_free (String c s) ↔ c ≠ Ascii.zero ∧ nul_free s.
Proof.
  unfold nul_free.
  change (String.list_byte_of_string (String c s))
    with (byte_of_ascii c :: String.list_byte_of_string s).
  rewrite not_elem_of_cons. split; intros [Hc ?]; (split; [|done]).
  - intros ->. by apply Hc.
  - intros Hb. apply Hc. apply (f_equal ascii_of_byte) in Hb.
    by rewrite ascii_of_byte_of_ascii in Hb.
Qed.

Lemma nul_free_empty : nul_free "".
Proof. apply not_elem_of_nil. Qed.

Lemma pretty_N_go_nul_free x s : nul_free s → nul_free (pretty_N_go x s).
Proof.
  revert s. induction (N.lt_wf_0 x) as [x _ IH]; intros s Hs.
  destruct (decide (0 < x)%N) as [Hx|Hx].
  - rewrite pretty_N_go_step by done. apply IH.
    { by apply N.div_lt. }
    apply nul_free_String. split; [|done].
    unfold pretty_N_char. by repeat case_match.
  - assert (x = 0%N) as -> by lia. by rewrite pretty_N_go_0.
Qed.

Lemma pretty_nat_nul_free (n : nat) : nul_free (pretty n).
Proof.
  unfold pretty, pretty_nat, pretty, pretty_N.
  case_decide; [by_eval|]. apply pretty_N_go_nul_free, nul_free_empty.
Qed.

Lemma node_wf_tags (tags : gmap string string) :
  map_Forall (λ k v, nul_free k ∧ nul_free v) tags →
  node_wf (NMap (NString <$> tags)).
Proof.
  intros Ht. apply node_wf_NMap. intros k v.
  rewrite lookup_fmap. destruct (tags !! k) as [t|] eqn:Hk; [|done].
  intros [= <-]. by apply Ht.
Qed.

Lemma toVDFMap_wf it s : shortcut_wf s → map_wf (toVDFMap it s).
Proof.
  intros (?&?&?&?&?&?&?&?&?&?&?&?&?&?&?&?&Ht).
  intros k v Hk.
  assert (toVDFMap it s !! "tags" = Some (NMap (NString <$> Tags s))) as Htags
    by apply toVDFMap_tags.
  unfold toVDFMap in Hk, Htags. cbn [list_to_map foldr fst snd] in Hk, Htags.
  repeat match type of Hk with
  | <[?k' := _]> _ !! _ = Some _ =>
      apply lookup_insert_Some in Hk as [[<- <-]|[_ Hk]]
  end; try (split; [by_eval|done]).
  - rewrite lookup_insert_eq in Htags. injection Htags as ->.
    split; [by_eval|by apply node_wf_tags].
  - by rewrite lookup_empty in Hk.
Qed.

Lemma insert_all_wf l acc :
  Forall (λ kv, nul_free kv.1 ∧ node_wf kv.2) l → map_wf acc →
  map_wf (insert_all l acc).
Proof.
  intros Hl. revert acc. induction Hl as [|[k v] l [??] _ IH]; intros acc Hacc.
  - done.
  - simpl. apply IH. by apply map_wf_insert.
Qed.

Lemma shortcutsToMap_wf it shortcuts :
  Forall shortcut_wf shortcuts → map_wf (shortcutsToMap it shortcuts).
Proof.
  intros Hwf. rewrite shortcutsToMap_insert_all.
  apply insert_all_wf; [|apply map_Forall_empty].
  unfold entries. apply Forall_fmap, Forall_forall. intros [i s] Hin.
  change (nul_free (pretty i) ∧ node_wf (NMap (toVDFMap it s))).
  split; [apply pretty_nat_nul_free|].
  apply (proj2 (node_wf_NMap _)), toVDFMap_wf.
  rewrite Forall_forall in Hwf. apply Hwf.
  apply elem_of_zip_r in Hin. done.
Qed.

Lemma root_wf it shortcuts :
  Forall shortcut_wf shortcuts →
  map_wf ({["shortcuts" := NMap (shortcutsToMap it shortcuts)]}).
Proof.
  intros Hwf. apply map_Forall_singleton. split; [by_eval|].
  by apply (proj2 (node_wf_NMap _)), shortcutsToMap_wf.
Qed.

Lemma field_uint32_wf m key : map_wf m → is_uint32 (field_uint32 m key).
Proof.
  intros Hm. unfold field_uint32.
  destruct (m !! key) as [[s|z|t]|] eqn:Hk; try by (unfold is_uint32, uint32_max; lia).
  by destruct (Hm _ _ Hk).
Qed.

Lemma field_string_wf m key : map_wf m → nul_free (field_string m key).
Proof.
  intros Hm. unfold field_string.
  destruct (m !! key) as [[s|z|t]|] eqn:Hk; try apply nul_free_empty.
  by destruct (Hm _ _ Hk).
Qed.

Lemma field_tags_wf it m :
  map_wf m → map_Forall (λ k v, nul_free k ∧ nul_free v) (field_tags it m).
Proof.
  intros Hm. rewrite field_tags_omap.
  destruct (m !! "tags") as [[s|z|t]|] eqn:Hk; try apply map_Forall_empty.
  destruct (Hm _ _ Hk) as [_ Ht]. apply node_wf_NMap in Ht.
  intros k v. rewrite lookup_omap.
  destruct (t !! k) as [[s| |]|] eqn:Hkt; try done. simpl. intros [= <-].
  by apply (Ht _ _ Hkt).
Qed.

Lemma parseShortcutEntry_wf it m :
  map_wf m → shortcut_wf (parseShortcutEntry it m).
Proof.
  intros Hm. unfold shortcut_wf, parseShortcutEntry. cbn -[field_tags].
  split_and!; auto using field_uint32_wf, field_string_wf, field_tags_wf.
Qed.

(** ** Reading and writing the file *)

(** The codec modelled from the spec has the properties the repository
    relies on. *)
Lemma vdf_laws : CodecLaws vdf_codec.
Proof.
  split.
  - done.
  - intros m Hm. destruct (ReadBinary_WriteBinary m Hm) as (data & ? & _ & ?).
    by exists data.
  - apply ReadBinary_wf.
Qed.
#[global] Existing Instance vdf_laws.

Section repository.
Context `{codec : Codec}.



Lemma ReadShortcuts_directory it (fs : filesystem) path :
  fs !! path = Some Directory → ReadShortcuts it fs path = Err ErrReadFile.
Proof. intros Hp. unfold ReadShortcuts, os_ReadFile. by rewrite Hp. Qed.

(** Reading depends on the file at [path] only. *)
Lemma ReadShortcuts_agree it (fs fs' : filesystem) path :
  fs !! path = fs' !! path →
  ReadShortcuts it fs path = ReadShortcuts it fs' path.
Proof. intros Hp. unfold ReadShortcuts, os_ReadFile. by rewrite Hp. Qed.

Lemma collectShortcuts_iter it it' l :
  collectShortcuts it l = collectShortcuts it' l.
Proof.
  rewrite !collectShortcuts_omap. apply list_omap_ext.
  apply Forall2_same_length_lookup_2; [done|].
  intros i x y Hx Hy. simplify_eq. apply entry_shortcut_iter.
Qed.

(** Two reads of one file return the same shortcuts, in orders that may
    differ. *)
Lemma ReadShortcuts_perm it it' (fs : filesystem) path l :
  ReadShortcuts it fs path = Ok l →
  ∃ l', ReadShortcuts it' fs path = Ok l' ∧ l' ≡ₚ l.
Proof.
  unfold ReadShortcuts. destruct (os_ReadFile fs path) as [data| |]; [|by eauto|done].
  case_decide; [by eauto|].
  destruct (ReadBinary data) as [vdfMap|]; [|done].
  destruct (vdfMap !! "shortcuts") as [[s|z|shortcutsMap]|]; try by eauto.
  intros [= <-]. eexists. split; [done|].
  rewrite (collectShortcuts_iter it' it), !collectShortcuts_omap.
  by rewrite !range_perm.
Qed.

Lemma collectShortcuts_wf it l :
  Forall (λ kv, node_wf kv.2) l → Forall shortcut_wf (collectShortcuts it l).
Proof.
  rewrite collectShortcuts_omap. induction 1 as [|[k v] l Hv _ IH]; [done|].
  cbn [omap list_omap]. unfold entry_shortcut at 1. cbn [snd] in *.
  destruct v as [s|z|m]; try done. constructor; [|done].
  by apply parseShortcutEntry_wf, node_wf_NMap.
Qed.

Lemma ReadShortcuts_wf `{!CodecLaws codec} it (fs : filesystem) path l :
  ReadShortcuts it fs path = Ok l → Forall shortcut_wf l.
Proof.
  unfold ReadShortcuts. destruct (os_ReadFile fs path) as [data| |];
    [|by intros [= <-]|done].
  case_decide; [by intros [= <-]|].
  destruct (ReadBinary data) as [vdfMap|] eqn:Hread; [|done].
  apply read_wf in Hread.
  destruct (vdfMap !! "shortcuts") as [[s|z|shortcutsMap]|] eqn:Hs;
    try by intros [= <-].
  intros [= <-]. apply collectShortcuts_wf.
  destruct (Hread _ _ Hs) as [_ Hm]. apply node_wf_NMap in Hm.
  rewrite range_perm. apply Forall_forall.
  intros [k v] Hkv%elem_of_map_to_list. by destruct (Hm _ _ Hkv).
Qed.

Lemma WriteShortcuts_Ok it (fs fs' : filesystem) path shortcuts :
  WriteShortcuts it fs path shortcuts = (Ok (), fs') →
  ∃ data fs1,
    WriteBinary ({["shortcuts" := NMap (shortcutsToMap it shortcuts)]}) = Some data
    ∧ os_MkdirAll fs (filepath_Dir path) = Some fs1
    ∧ os_WriteFile fs1 path data = Some fs'
    ∧ fs' = <[path := File data]> fs1.
Proof.
  unfold WriteShortcuts.
  destruct (WriteBinary _) as [data|]; [|done].
  destruct (os_MkdirAll _ _) as [fs1|]; [|done].
  destruct (os_WriteFile fs1 path data) as [fs2|] eqn:Hw; [|done].
  intros [= <-]. exists data, fs1. split_and!; try done.
  unfold os_WriteFile in Hw. by destruct (fs1 !! path) as [[]|]; simplify_eq.
Qed.

(** A failed write leaves the file as it was, or the path is a directory. *)
Lemma WriteShortcuts_Err it (fs fs' : filesystem) path shortcuts e :
  WriteShortcuts it fs path shortcuts = (Err e, fs') →
  fs' !! path = fs !! path ∨ fs' !! path = Some Directory.
Proof.
  unfold WriteShortcuts.
  destruct (WriteBinary _) as [data|]; [|by intros [= _ <-]; left].
  destruct (os_MkdirAll _ _) as [fs1|] eqn:Hmk; [|by intros [= _ <-]; left].
  destruct (os_WriteFile fs1 path data) as [fs2|] eqn:Hw; [done|].
  intros [= _ <-]. right. unfold os_WriteFile in Hw.
  by destruct (fs1 !! path) as [[]|].
Qed.

Lemma singleton_shortcuts_ne it shortcuts :
  ({["shortcuts" := NMap (shortcutsToMap it shortcuts)]} : gmap string Node) ≠ ∅.
Proof. apply insert_non_empty. Qed.

Lemma WriteBinary_root `{!CodecLaws codec} it shortcuts data :
  Forall shortcut_wf shortcuts →
  WriteBinary ({["shortcuts" := NMap (shortcutsToMap it shortcuts)]}) = Some data →
  data ≠ []
  ∧ ReadBinary data = Some ({["shortcuts" := NMap (shortcutsToMap it shortcuts)]}).
Proof.
  intros Hwf Hdata.
  destruct (write_read _ (root_wf it shortcuts Hwf)) as (data' & Hw & Hr).
  rewrite Hdata in Hw. injection Hw as <-. split; [|done]. intros ->.
  rewrite read_empty in Hr.
  assert (∅ = ({["shortcuts" := NMap (shortcutsToMap it shortcuts)]}
               : gmap string Node)) as Hr' by congruence.
  symmetry in Hr'. by apply singleton_shortcuts_ne in Hr'.
Qed.

(** Reading back what [WriteShortcuts] wrote. *)
Lemma ReadShortcuts_WriteShortcuts `{!CodecLaws codec} it
    (fs fs' : filesystem) path shortcuts :
  Forall shortcut_wf shortcuts →
  WriteShortcuts it fs path shortcuts = (Ok (), fs') →
  holds fs' path shortcuts.
Proof.
  intros Hwf (data & fs1 & Hdata & _ & _ & ->)%WriteShortcuts_Ok it'.
  destruct (WriteBinary_root it shortcuts data Hwf Hdata) as [Hne Hr].
  unfold ReadShortcuts, os_ReadFile. rewrite lookup_insert_eq.
  destruct data as [|b data]; [done|].
  rewrite decide_False by done. rewrite Hr, lookup_singleton_eq.
  eexists. split; [done|]. apply collect_shortcutsToMap.
Qed.

Lemma WriteShortcuts_writable `{!CodecLaws codec} it (fs : filesystem)
    path shortcuts :
  Forall shortcut_wf shortcuts → writable fs path →
  ∃ fs', WriteShortcuts it fs path shortcuts = (Ok (), fs').
Proof.
  intros Hwf (Hdir & Hne & Hp).
  destruct (write_read _ (root_wf it shortcuts Hwf)) as (data & Hw & _).
  unfold WriteShortcuts. rewrite Hw. unfold os_MkdirAll.
  assert (∀ fs1 : filesystem, fs1 = <[filepath_Dir path := Directory]> fs →
    ∃ fs', match os_WriteFile fs1 path data with
           | Some fs2 => (Ok (), fs2)
           | None => (Err ErrWriteFile, fs1)
           end = (Ok (), fs')) as Hfs1.
  { intros fs1 ->. unfold os_WriteFile. rewrite lookup_insert_ne by done.
    destruct (fs !! path) as [[]|]; by eauto. }
  destruct (fs !! filepath_Dir path) as [[d|]|] eqn:Hd; [by destruct (Hdir d)|..];
    by apply Hfs1.
Qed.

End repository.

(** ** AppID allocation *)

Lemma GenerateAppID_RandInt n : GenerateAppID (RandInt n) = Ok (appID_of_draw n).
Proof. done. Qed.

Lemma appID_of_draw_range n :
  0 <= n < rangeSize → appID_of_draw n = minID + n ∧ minID <= appID_of_draw n < maxID.
Proof.
  unfold appID_of_draw, uint32, uint32_max.
  change rangeSize with 16777215. change minID with 4278190080.
  change maxID with 4294967295. intros Hn.
  rewrite (Z.mod_small n) by lia. rewrite Z.mod_small by lia. lia.
Qed.

Lemma GenerateAppID_Ok r id :
  rand_ok r → GenerateAppID r = Ok id → minID <= id < maxID.
Proof.
  destruct r as [|n]; [done|]. simpl. intros Hn [= <-].
  by apply appID_of_draw_range.
Qed.

Lemma conflict_false shortcuts appID :
  conflict shortcuts appID = false ↔ appID ∉ (AppID <$> shortcuts).
Proof.
  unfold conflict. induction shortcuts as [|s l IH]; simpl.
  - split; [intros _; apply not_elem_of_nil|done].
  - rewrite orb_false_iff, IH, not_elem_of_cons, Z.eqb_neq.
    split; intros [Hs ?]; (split; [|done]); intros Heq; by apply Hs.
Qed.

Lemma conflict_true shortcuts appID :
  conflict shortcuts appID = true ↔ appID ∈ (AppID <$> shortcuts).
Proof.
  destruct (conflict shortcuts appID) eqn:Hc.
  - split; [|done]. intros _. destruct (decide (appID ∈ (AppID <$> shortcuts))); [done|].
    apply conflict_false in n. congruence.
  - apply conflict_false in Hc. split; [done|]. intros; contradiction.
Qed.

Lemma retryAppID_unfold shortcuts appID rng :
  retryAppID shortcuts appID rng
  = if conflict shortcuts appID then
      match rng with
      | [] => None
      | r :: rng' =>
          match GenerateAppID r with
          | Err e => Some (Err e, rng')
          | Ok appID' => retryAppID shortcuts appID' rng'
          end
      end
    else Some (Ok appID, rng).
Proof. by destruct rng. Qed.

(** The retry loop stops at the first free candidate, however many
    candidates were taken before it. *)
Lemma retryAppID_free shortcuts appID (ks : list Z) n rest :
  conflict shortcuts appID = true →
  Forall (λ k, conflict shortcuts (appID_of_draw k) = true) ks →
  conflict shortcuts (appID_of_draw n) = false →
  retryAppID shortcuts appID ((RandInt <$> ks) ++ RandInt n :: rest)
  = Some (Ok (appID_of_draw n), rest).
Proof.
  intros Ha Hks Hn. revert appID Ha.
  induction Hks as [|k ks Hk _ IH]; intros appID Ha;
    rewrite retryAppID_unfold, Ha; cbn [fmap list_fmap app];
    rewrite GenerateAppID_RandInt.
  - by rewrite retryAppID_unfold, Hn.
  - by apply IH.
Qed.

Lemma retryAppID_pending shortcuts appID (ks : list Z) :
  conflict shortcuts appID = true →
  Forall (λ k, conflict shortcuts (appID_of_draw k) = true) ks →
  retryAppID shortcuts appID (RandInt <$> ks) = None.
Proof.
  intros Ha Hks. revert appID Ha.
  induction Hks as [|k ks Hk _ IH]; intros appID Ha;
    rewrite retryAppID_unfold, Ha; cbn [fmap list_fmap app]; [done|].
  rewrite GenerateAppID_RandInt. by apply IH.
Qed.

Lemma retryAppID_rand_error shortcuts appID (ks : list Z) rest :
  conflict shortcuts appID = true →
  Forall (λ k, conflict shortcuts (appID_of_draw k) = true) ks →
  retryAppID shortcuts appID ((RandInt <$> ks) ++ RandErr :: rest)
  = Some (Err ErrRandom, rest).
Proof.
  intros Ha Hks. revert appID Ha.
  induction Hks as [|k ks Hk _ IH]; intros appID Ha;
    rewrite retryAppID_unfold, Ha; cbn [fmap list_fmap app]; [done|].
  rewrite GenerateAppID_RandInt. by apply IH.
Qed.

Lemma allocateAppID_free shortcuts (ks : list Z) n rest :
  Forall (λ k, conflict shortcuts (appID_of_draw k) = true) ks →
  conflict shortcuts (appID_of_draw n) = false →
  allocateAppID shortcuts ((RandInt <$> ks) ++ RandInt n :: rest)
  = Some (Ok (appID_of_draw n), rest).
Proof.
  intros Hks Hn. unfold allocateAppID.
  destruct Hks as [|k ks Hk Hks]; cbn [fmap list_fmap app];
    rewrite GenerateAppID_RandInt.
  - by rewrite retryAppID_unfold, Hn.
  - by apply retryAppID_free.
Qed.

Lemma allocateAppID_pending shortcuts (ks : list Z) :
  Forall (λ k, conflict shortcuts (appID_of_draw k) = true) ks →
  allocateAppID shortcuts (RandInt <$> ks) = None.
Proof.
  intros Hks. unfold allocateAppID.
  destruct Hks as [|k ks Hk Hks]; cbn [fmap list_fmap app]; [done|].
  rewrite GenerateAppID_RandInt. by apply retryAppID_pending.
Qed.

Lemma allocateAppID_rand_error shortcuts (ks : list Z) rest :
  Forall (λ k, conflict shortcuts (appID_of_draw k) = true) ks →
  allocateAppID shortcuts ((RandInt <$> ks) ++ RandErr :: rest)
  = Some (Err ErrRandom, rest).
Proof.
  intros Hks. unfold allocateAppID.
  destruct Hks as [|k ks Hk Hks]; cbn [fmap list_fmap app]; [done|].
  rewrite GenerateAppID_RandInt. by apply retryAppID_rand_error.
Qed.

(** What a successful allocation returns. *)
Lemma retryAppID_Ok shortcuts appID rng id rng' :
  retryAppID shortcuts appID rng = Some (Ok id, rng') →
  conflict shortcuts id = false
  ∧ (id = appID ∨ ∃ r, r ∈ rng ∧ GenerateAppID r = Ok id)
  ∧ ∃ used, rng = used ++ rng'.
Proof.
  revert appID. induction rng as [|r rng IH]; intros appID;
    rewrite retryAppID_unfold.
  - destruct (conflict shortcuts appID) eqn:Hc; [done|].
    intros [= <- <-]. split_and!; [done|by left|by exists []].
  - destruct (conflict shortcuts appID) eqn:Hc.
    + destruct (GenerateAppID r) as [a|e] eqn:Hr; [|done].
      intros (? & Hid & used & ->)%IH. split_and!; [done| |by exists (r :: used)].
      right. destruct Hid as [->|(r' & ? & ?)].
      * exists r. split; [left|done].
      * exists r'. split; [by right|done].
    + intros [= <- <-]. split_and!; [done|by left|by exists []].
Qed.

Lemma allocateAppID_Ok shortcuts rng id rng' :
  allocateAppID shortcuts rng = Some (Ok id, rng') →
  (id ∉ (AppID <$> shortcuts))
  ∧ (∃ r, r ∈ rng ∧ GenerateAppID r = Ok id)
  ∧ ∃ used, rng = used ++ rng'.
Proof.
  unfold allocateAppID. destruct rng as [|r rng]; [done|].
  destruct (GenerateAppID r) as [a|e] eqn:Hr; [|done].
  intros (Hc & Hid & used & ->)%retryAppID_Ok.
  split_and!; [by apply conflict_false| |by exists (r :: used)].
  destruct Hid as [->|(r' & ? & ?)].
  - exists r. split; [left|done].
  - exists r'. split; [by right|done].
Qed.

(** ** The three operations *)

Section add.
Context `{codec : Codec}.

Lemma AddShortcut_read_error it user shortcut fs rng e :
  ReadShortcuts it fs (ShortcutsPath user) = Err e →
  AddShortcut it user shortcut fs rng
  = Some {| add_ret := Err e; add_shortcut := shortcut;
            add_fs := fs; add_rng := rng |}.
Proof. intros Hr. unfold AddShortcut. by rewrite Hr. Qed.

Lemma AddShortcut_existing it user shortcut fs rng shortcuts s :
  ReadShortcuts it fs (ShortcutsPath user) = Ok shortcuts →
  find (λ s, String.eqb (AppName s) (AppName shortcut)) shortcuts = Some s →
  AddShortcut it user shortcut fs rng
  = Some {| add_ret := Ok (AppID s, false); add_shortcut := shortcut;
            add_fs := fs; add_rng := rng |}.
Proof. intros Hr Hf. unfold AddShortcut. by rewrite Hr, Hf. Qed.

Lemma AddShortcut_fresh it user shortcut fs rng shortcuts :
  ReadShortcuts it fs (ShortcutsPath user) = Ok shortcuts →
  find (λ s, String.eqb (AppName s) (AppName shortcut)) shortcuts = None →
  AddShortcut it user shortcut fs rng
  = '(assigned, rng') ←
      (if AppID shortcut =? 0 then allocateAppID shortcuts rng
       else Some (Ok (AppID shortcut), rng));
    match assigned with
    | Err e => Some {| add_ret := Err e; add_shortcut := shortcut;
                       add_fs := fs; add_rng := rng' |}
    | Ok appID =>
        Some (add_written it user shortcuts (set_AppID appID shortcut) fs rng')
    end.
Proof.
  intros Hr Hf. unfold AddShortcut, add_written. rewrite Hr, Hf.
  destruct (if AppID shortcut =? 0 then _ else _) as [[[appID|e] rng']|]; try done.
  simpl. by destruct (WriteShortcuts _ _ _ _) as [[[]|] ?].
Qed.

Lemma set_AppID_id s : set_AppID (AppID s) s = s.
Proof. by destruct s. Qed.

(** A call that reports a new entry: what was read, what was assigned and
    what was written. *)
Lemma AddShortcut_new_inv it user shortcut fs rng r id :
  AddShortcut it user shortcut fs rng = Some r →
  add_ret r = Ok (id, true) →
  ∃ shortcuts,
    ReadShortcuts it fs (ShortcutsPath user) = Ok shortcuts
    ∧ find (λ s, String.eqb (AppName s) (AppName shortcut)) shortcuts = None
    ∧ add_shortcut r = set_AppID id shortcut
    ∧ WriteShortcuts it fs (ShortcutsPath user)
        (shortcuts ++ [set_AppID id shortcut]) = (Ok (), add_fs r)
    ∧ (if AppID shortcut =? 0
       then allocateAppID shortcuts rng = Some (Ok id, add_rng r)
       else id = AppID shortcut ∧ add_rng r = rng).
Proof.
  intros Hadd Hret.
  destruct (ReadShortcuts it fs (ShortcutsPath user)) as [shortcuts|e] eqn:Hr.
  2: { rewrite (AddShortcut_read_error _ _ _ _ _ e) in Hadd by done.
       by simplify_eq. }
  destruct (find (λ s, String.eqb (AppName s) (AppName shortcut)) shortcuts)
    as [s|] eqn:Hf.
  { rewrite (AddShortcut_existing _ _ _ _ _ shortcuts s) in Hadd by done.
    by simplify_eq. }
  exists shortcuts. rewrite (AddShortcut_fresh _ _ _ _ _ shortcuts) in Hadd by done.
  destruct (if AppID shortcut =? 0 then _ else _) as [[[appID|e] rng']|] eqn:Ha;
    simpl in Hadd; [|by simplify_eq..].
  injection Hadd as <-. unfold add_written in *.
  destruct (WriteShortcuts _ _ _ _) as [[[]|e] fs'] eqn:Hw; simpl in *; [|done].
  injection Hret as <-. split_and!; try done.
  destruct (AppID shortcut =? 0); by simplify_eq.
Qed.

End add.

Section update_remove.
Context `{codec : Codec}.


Lemma UpdateShortcut_missing it user shortcut fs shortcuts :
  ReadShortcuts it fs (ShortcutsPath user) = Ok shortcuts →
  AppID shortcut ∉ (AppID <$> shortcuts) →
  UpdateShortcut it user shortcut fs
  = (Err (ErrNotFound (AppID shortcut)), fs).
Proof.
  intros Hr Hnot. unfold UpdateShortcut. rewrite Hr.
  assert (list_find (λ s, AppID s = AppID shortcut) shortcuts = None) as ->; [|done].
  apply list_find_None, Forall_forall. intros s Hs Heq. apply Hnot.
  rewrite <-Heq. by apply list_elem_of_fmap_2.
Qed.

(** What [UpdateShortcut] does once the collection is read: nothing but
    the error when no entry matches, one replacement otherwise. *)
Lemma UpdateShortcut_cases it user shortcut fs shortcuts :
  ReadShortcuts it fs (ShortcutsPath user) = Ok shortcuts →
  ((AppID shortcut ∉ (AppID <$> shortcuts))
   ∧ UpdateShortcut it user shortcut fs
     = (Err (ErrNotFound (AppID shortcut)), fs))
  ∨ (∃ i s, shortcuts !! i = Some s ∧ AppID s = AppID shortcut
       ∧ UpdateShortcut it user shortcut fs
         = WriteShortcuts it fs (ShortcutsPath user)
             (<[i := shortcut]> shortcuts)).
Proof.
  intros Hr. unfold UpdateShortcut. rewrite Hr.
  destruct (list_find _ shortcuts) as [[i s]|] eqn:Hf.
  - right. apply list_find_Some in Hf as (? & ? & _). by exists i, s.
  - left. split; [|done]. rewrite list_find_None, Forall_forall in Hf.
    intros (s & Heq & Hs)%list_elem_of_fmap. by apply (Hf s).
Qed.

End update_remove.

Lemma filter_AppID_absent (shortcuts : list Shortcut) appID :
  appID ∉ (AppID <$> shortcuts) →
  filter (λ s, AppID s ≠ appID) shortcuts = shortcuts.
Proof.
  induction shortcuts as [|s l IH]; [done|]. cbn [fmap list_fmap].
  intros [Hs Hl]%not_elem_of_cons.
  rewrite filter_cons_True by done. by rewrite IH.
Qed.

Lemma filter_AppID_removed (shortcuts : list Shortcut) appID :
  appID ∉ (AppID <$> filter (λ s, AppID s ≠ appID) shortcuts).
Proof.
  intros (s & -> & [Hs _]%list_elem_of_filter)%list_elem_of_fmap. done.
Qed.

Lemma RemoveShortcut_read `{Codec} it user appID fs shortcuts :
  ReadShortcuts it fs (ShortcutsPath user) = Ok shortcuts →
  RemoveShortcut it user appID fs
  = WriteShortcuts it fs (ShortcutsPath user)
      (filter (λ s, AppID s ≠ appID) shortcuts).
Proof. intros Hr. unfold RemoveShortcut. by rewrite Hr. Qed.

Lemma Forall_wf_filter (P : Shortcut → Prop) `{∀ s, Decision (P s)} l :
  Forall shortcut_wf l → Forall shortcut_wf (filter P l).
Proof.
  rewrite !Forall_forall. intros Hl s [_ Hs]%list_elem_of_filter. by apply Hl.
Qed.

Lemma unique_nonzero_perm : Proper ((≡ₚ) ==> iff) unique_nonzero.
Proof. intros l l' Hl. unfold unique_nonzero. by rewrite Hl. Qed.
#[global] Existing Instance unique_nonzero_perm.

Lemma unique_nonzero_sublist l l' :
  l `sublist_of` l' → unique_nonzero l' → unique_nonzero l.
Proof.
  unfold unique_nonzero. intros Hsub Hnd. eapply sublist_NoDup; [exact Hnd|].
  clear Hnd. induction Hsub as [|s l1 l2 _ IH|s l1 l2 _ IH]; cbn [fmap list_fmap].
  - done.
  - rewrite !filter_cons. case_decide; [by constructor|done].
  - rewrite filter_cons. case_decide; [by constructor|done].
Qed.

Lemma unique_nonzero_snoc l s :
  unique_nonzero l → AppID s ∉ (AppID <$> l) → unique_nonzero (l ++ [s]).
Proof.
  unfold unique_nonzero. intros Hl Hs. rewrite fmap_app, filter_app.
  apply NoDup_app. split_and!; [done| |].
  - intros a [_ Ha]%list_elem_of_filter. cbn [fmap list_fmap].
    rewrite filter_cons, filter_nil. case_decide; [|apply not_elem_of_nil].
    rewrite list_elem_of_singleton. by intros ->.
  - cbn [fmap list_fmap]. rewrite filter_cons, filter_nil.
    case_decide; [apply NoDup_singleton|apply NoDup_nil_2].
Qed.

Lemma unique_nonzero_insert l i s s' :
  l !! i = Some s → AppID s = AppID s' →
  unique_nonzero (<[i := s']> l) ↔ unique_nonzero l.
Proof.
  intros Hi Hs. unfold unique_nonzero.
  rewrite list_fmap_insert, <-Hs, list_insert_id; [done|].
  by rewrite list_lookup_fmap, Hi.
Qed.

Lemma NoDup_fmap_inj_on {A B} (f : A → B) (l : list A) x y :
  NoDup (f <$> l) → x ∈ l → y ∈ l → f x = f y → x = y.
Proof.
  intros Hnd [i Hi]%list_elem_of_lookup [j Hj]%list_elem_of_lookup Hxy.
  assert (i = j) as ->; [|congruence].
  apply (NoDup_lookup _ _ _ (f x) Hnd); rewrite list_lookup_fmap.
  - by rewrite Hi.
  - by rewrite Hj, Hxy.
Qed.

Lemma GenerateAppID_uint32 r id : GenerateAppID r = Ok id → is_uint32 id.
Proof.
  destruct r as [|n]; [done|]. intros [= <-]. unfold is_uint32, uint32.
  by apply Z.mod_pos_bound.
Qed.

Lemma set_AppID_wf id s : is_uint32 id → shortcut_wf s → shortcut_wf (set_AppID id s).
Proof. unfold shortcut_wf. simpl. tauto. Qed.

Lemma find_name_Some (l : list Shortcut) name s :
  find (λ s, String.eqb (AppName s) name) l = Some s →
  s ∈ l ∧ AppName s = name.
Proof.
  intros [Hin Hname]%find_some. split; [by apply list_elem_of_In|].
  by apply String.eqb_eq.
Qed.

Lemma find_name_None (l : list Shortcut) name s :
  find (λ s, String.eqb (AppName s) name) l = None →
  s ∈ l → AppName s ≠ name.
Proof.
  intros Hnone Hin%list_elem_of_In. apply String.eqb_neq.
  by apply (find_none _ _ Hnone).
Qed.

Lemma find_name_is_Some (l : list Shortcut) name s :
  s ∈ l → AppName s = name →
  ∃ s', find (λ s, String.eqb (AppName s) name) l = Some s'.
Proof.
  intros Hin Hname.
  destruct (find (λ s, String.eqb (AppName s) name) l) as [s'|] eqn:Hf; [by eauto|].
  by destruct (find_name_None _ _ _ Hf Hin).
Qed.

Section steps.
Context `{codec : Codec} `{!CodecLaws codec}.

Lemma holds_read it fs path l :
  ReadShortcuts it fs path = Ok l → holds fs path l.
Proof. intros Hr it'. by eapply ReadShortcuts_perm. Qed.

Lemma holds_agree it fs path S l :
  holds fs path S → ReadShortcuts it fs path = Ok l → l ≡ₚ S.
Proof. intros HS Hr. destruct (HS it) as (l' & Hl' & Hperm). congruence. Qed.

Lemma holds_perm fs path S S' : S ≡ₚ S' → holds fs path S → holds fs path S'.
Proof.
  intros HSS HS it. destruct (HS it) as (l & Hl & Hperm).
  exists l. split; [done|]. by rewrite Hperm.
Qed.

(** A new entry was appended: the incoming shortcut is well formed once it
    carries the assigned AppID. *)
Lemma AddShortcut_new_wf it user shortcut fs rng r id shortcuts :
  shortcut_wf shortcut →
  AddShortcut it user shortcut fs rng = Some r →
  add_ret r = Ok (id, true) →
  ReadShortcuts it fs (ShortcutsPath user) = Ok shortcuts →
  Forall shortcut_wf (shortcuts ++ [set_AppID id shortcut])
  ∧ holds (add_fs r) (ShortcutsPath user) (shortcuts ++ [set_AppID id shortcut])
  ∧ find (λ s, String.eqb (AppName s) (AppName shortcut)) shortcuts = None
  ∧ (AppID shortcut = 0 → id ∉ (AppID <$> shortcuts)).
Proof.
  intros Hwf Hadd Hret Hread.
  destruct (AddShortcut_new_inv _ _ _ _ _ _ _ Hadd Hret)
    as (shortcuts' & Hread' & Hfind & _ & Hw & Halloc).
  rewrite Hread in Hread'. injection Hread' as <-.
  assert (is_uint32 id) as Hid.
  { destruct (AppID shortcut =? 0) eqn:Hz.
    - apply allocateAppID_Ok in Halloc as (_ & (r0 & _ & Hgen) & _).
      by eapply GenerateAppID_uint32.
    - destruct Halloc as [-> _]. by destruct Hwf. }
  assert (Forall shortcut_wf (shortcuts ++ [set_AppID id shortcut])) as Hwf'.
  { apply Forall_app. split; [by eapply ReadShortcuts_wf|].
    apply Forall_singleton. by apply set_AppID_wf. }
  split_and!; [done|by eapply ReadShortcuts_WriteShortcuts|done|].
  intros Hz. rewrite Hz in Halloc. simpl in Halloc.
  by apply allocateAppID_Ok in Halloc as (? & _).
Qed.

(** An existing entry was found: nothing changes. *)
Lemma AddShortcut_old_inv it user shortcut fs rng r id :
  AddShortcut it user shortcut fs rng = Some r →
  add_ret r = Ok (id, false) →
  ∃ shortcuts s,
    ReadShortcuts it fs (ShortcutsPath user) = Ok shortcuts
    ∧ find (λ s, String.eqb (AppName s) (AppName shortcut)) shortcuts = Some s
    ∧ AppID s = id
    ∧ r = {| add_ret := Ok (id, false); add_shortcut := shortcut;
             add_fs := fs; add_rng := rng |}.
Proof.
  intros Hadd Hret.
  destruct (ReadShortcuts it fs (ShortcutsPath user)) as [shortcuts|e] eqn:Hr.
  2: { rewrite (AddShortcut_read_error _ _ _ _ _ e) in Hadd by done.
       by simplify_eq. }
  destruct (find (λ s, String.eqb (AppName s) (AppName shortcut)) shortcuts)
    as [s|] eqn:Hf.
  { rewrite (AddShortcut_existing _ _ _ _ _ shortcuts s) in Hadd by done.
    exists shortcuts, s. by simplify_eq/=. }
  rewrite (AddShortcut_fresh _ _ _ _ _ shortcuts) in Hadd by done.
  destruct (if AppID shortcut =? 0 then _ else _) as [[[appID|e] rng']|] eqn:Ha;
    simpl in Hadd; [|by simplify_eq..].
  injection Hadd as <-. unfold add_written in Hret.
  by destruct (WriteShortcuts _ _ _ _) as [[[]|e] fs'].
Qed.

End steps.

Section invariant.
Context `{codec : Codec} `{!CodecLaws codec}.

Lemma disk_unique_agree (fs fs' : filesystem) path :
  fs' !! path = fs !! path → disk_unique fs path → disk_unique fs' path.
Proof.
  intros Hp Hu it l Hl. apply (Hu it).
  by rewrite <-(ReadShortcuts_agree it fs' fs path).
Qed.

Lemma disk_unique_directory (fs : filesystem) path :
  fs !! path = Some Directory → disk_unique fs path.
Proof. intros Hp it l. by rewrite ReadShortcuts_directory. Qed.

Lemma disk_unique_holds fs path S :
  holds fs path S → unique_nonzero S → disk_unique fs path.
Proof.
  intros HS Hu it l Hl. by rewrite (holds_agree it fs path S l).
Qed.

(** Writing a collection with unique AppIDs keeps the file's invariant,
    whether the write succeeds or not. *)
Lemma WriteShortcuts_unique it fs path S r fs' :
  Forall shortcut_wf S → unique_nonzero S → disk_unique fs path →
  WriteShortcuts it fs path S = (r, fs') → disk_unique fs' path.
Proof.
  intros Hwf HS Hfs Hw. destruct r as [[]|e].
  - eapply disk_unique_holds; [|done]. by eapply ReadShortcuts_WriteShortcuts.
  - destruct (WriteShortcuts_Err _ _ _ _ _ _ Hw) as [Hp|Hp].
    + by eapply disk_unique_agree.
    + by apply disk_unique_directory.
Qed.

Lemma RemoveShortcut_unique it user appID fs r fs' :
  disk_unique fs (ShortcutsPath user) →
  RemoveShortcut it user appID fs = (r, fs') →
  disk_unique fs' (ShortcutsPath user).
Proof.
  intros Hu. unfold RemoveShortcut.
  destruct (ReadShortcuts it fs (ShortcutsPath user)) as [shortcuts|e] eqn:Hr;
    [|by intros [= _ <-]].
  apply WriteShortcuts_unique; [| |done].
  - apply Forall_wf_filter. by eapply ReadShortcuts_wf.
  - eapply unique_nonzero_sublist; [apply sublist_filter|]. by apply (Hu it).
Qed.

Lemma UpdateShortcut_unique it user shortcut fs r fs' :
  shortcut_wf shortcut →
  disk_unique fs (ShortcutsPath user) →
  UpdateShortcut it user shortcut fs = (r, fs') →
  disk_unique fs' (ShortcutsPath user).
Proof.
  intros Hwf Hu.
  destruct (ReadShortcuts it fs (ShortcutsPath user)) as [shortcuts|e] eqn:Hr.
  2: { unfold UpdateShortcut. rewrite Hr. by intros [= _ <-]. }
  destruct (UpdateShortcut_cases it user shortcut fs shortcuts Hr)
    as [[_ ->]|(i & s & Hi & Hs & ->)]; [by intros [= _ <-]|].
  apply WriteShortcuts_unique; [| |done].
  - apply Forall_insert; [by eapply ReadShortcuts_wf|done].
  - apply (unique_nonzero_insert _ _ s); [done..|]. by apply (Hu it).
Qed.

Lemma AddShortcut_unique it user shortcut fs rng r :
  shortcut_wf shortcut →
  disk_unique fs (ShortcutsPath user) →
  (AppID shortcut = 0
   ∨ ∀ l, ReadShortcuts it fs (ShortcutsPath user) = Ok l →
          AppID shortcut ∉ (AppID <$> l)) →
  AddShortcut it user shortcut fs rng = Some r →
  disk_unique (add_fs r) (ShortcutsPath user).
Proof.
  intros Hwf Hu Hfree Hadd.
  destruct (ReadShortcuts it fs (ShortcutsPath user)) as [shortcuts|e] eqn:Hr.
  2: { rewrite (AddShortcut_read_error _ _ _ _ _ e) in Hadd by done.
       by simplify_eq. }
  destruct (find (λ s, String.eqb (AppName s) (AppName shortcut)) shortcuts)
    as [s|] eqn:Hf.
  { rewrite (AddShortcut_existing _ _ _ _ _ shortcuts s) in Hadd by done.
    by simplify_eq. }
  rewrite (AddShortcut_fresh _ _ _ _ _ shortcuts) in Hadd by done.
  destruct (if AppID shortcut =? 0 then _ else _) as [[[id|e] rng']|] eqn:Ha;
    simpl in Hadd; [|by simplify_eq..].
  injection Hadd as <-.
  assert (is_uint32 id ∧ id ∉ (AppID <$> shortcuts)) as [Hid Hnew].
  { destruct (AppID shortcut =? 0) eqn:Hz.
    - apply allocateAppID_Ok in Ha as (? & (r0 & _ & Hgen) & _).
      split; [by eapply GenerateAppID_uint32|done].
    - injection Ha as <- <-. split; [by destruct Hwf|].
      destruct Hfree as [Hz'|Hfree]; [|by apply Hfree].
      rewrite Hz' in Hz. done. }
  assert (disk_unique (WriteShortcuts it fs (ShortcutsPath user)
            (shortcuts ++ [set_AppID id shortcut])).2 (ShortcutsPath user)) as Hw.
  { destruct (WriteShortcuts _ _ _ _) as [r fs'] eqn:Hw.
    eapply WriteShortcuts_unique; [| |done|done].
    - apply Forall_app. split; [by eapply ReadShortcuts_wf|].
      apply Forall_singleton. by apply set_AppID_wf.
    - apply unique_nonzero_snoc; [by apply (Hu it)|done]. }
  unfold add_written. by destruct (WriteShortcuts _ _ _ _) as [[[]|e] fs'].
Qed.

End invariant.

Section sequence.
Context `{codec : Codec} `{!CodecLaws codec}.

(** One successful call with AppID 0 on a collection whose AppIDs are
    pairwise distinct: the collection grows by at most the new entry, its
    AppIDs stay distinct, and the returned AppID is that of an entry with
    the incoming name. *)
Lemma AddShortcut_step it user shortcut fs rng r id isNew S :
  holds fs (ShortcutsPath user) S →
  NoDup (AppID <$> S) →
  shortcut_wf shortcut →
  AppID shortcut = 0 →
  AddShortcut it user shortcut fs rng = Some r →
  add_ret r = Ok (id, isNew) →
  ∃ S', holds (add_fs r) (ShortcutsPath user) S'
        ∧ NoDup (AppID <$> S')
        ∧ (∀ s, s ∈ S → s ∈ S')
        ∧ ∃ s, s ∈ S' ∧ AppName s = AppName shortcut ∧ AppID s = id.
Proof.
  intros HS Hnd Hwf Hz Hadd Hret. destruct isNew.
  - destruct (HS it) as (l & Hread & Hperm).
    destruct (AddShortcut_new_wf _ _ _ _ _ _ _ _ Hwf Hadd Hret Hread)
      as (_ & Hholds & _ & Hnew).
    exists (l ++ [set_AppID id shortcut]). split_and!.
    + done.
    + rewrite fmap_app. apply NoDup_app. split_and!.
      * by rewrite Hperm.
      * intros a Ha. cbn. rewrite list_elem_of_singleton. intros ->.
        by apply (Hnew Hz).
      * apply NoDup_singleton.
    + intros s Hs. apply elem_of_app. left. by rewrite Hperm.
    + exists (set_AppID id shortcut). split_and!; [|done..].
      apply elem_of_app. right. by apply list_elem_of_singleton.
  - destruct (AddShortcut_old_inv _ _ _ _ _ _ _ Hadd Hret)
      as (l & s & Hread & Hfind & Hid & ->).
    apply find_name_Some in Hfind as [Hin Hname].
    exists S. split_and!; [done..|]. exists s. split_and!; [|done..].
    by rewrite <-(holds_agree it fs (ShortcutsPath user) S l HS Hread).
Qed.

Lemma AddShortcuts_steps calls user fs rng S oks fs' rng' :
  holds fs (ShortcutsPath user) S →
  NoDup (AppID <$> S) →
  Forall (λ c, AppID c.2 = 0 ∧ shortcut_wf c.2) calls →
  AddShortcuts calls user fs rng = Some (Ok <$> oks, fs', rng') →
  ∃ S', holds fs' (ShortcutsPath user) S'
        ∧ NoDup (AppID <$> S')
        ∧ (∀ s, s ∈ S → s ∈ S')
        ∧ Forall2 (λ c ok, ∃ s, s ∈ S' ∧ AppName s = AppName c.2
                                ∧ AppID s = ok.1) calls oks.
Proof.
  intros HS Hnd Hcalls. revert fs rng S oks HS Hnd.
  induction Hcalls as [|[it sc] calls [Hz Hwf] _ IH];
    intros fs rng S oks HS Hnd Hrun.
  - cbn in Hrun. injection Hrun as Hoks <- <-.
    destruct oks; [|done]. exists S. split_and!; [done..|constructor].
  - cbn [AddShortcuts] in Hrun.
    destruct (AddShortcut it user sc fs rng) as [r|] eqn:Hadd; [|done].
    cbn [mbind option_bind] in Hrun.
    destruct (AddShortcuts calls user (add_fs r) (add_rng r))
      as [[[rets fs1] rng1]|] eqn:Hrest; [|done].
    cbn in Hrun. injection Hrun as Hrets <- <-.
    destruct oks as [|[id isNew] oks]; [done|].
    cbn [fmap list_fmap] in Hrets. injection Hrets as Hret ->.
    destruct (AddShortcut_step _ _ _ _ _ _ _ _ _ HS Hnd Hwf Hz Hadd Hret)
      as (S1 & HS1 & Hnd1 & Hsub1 & s & Hs & Hname & Hid).
    destruct (IH _ _ S1 oks HS1 Hnd1 Hrest) as (S' & HS' & Hnd' & Hsub' & Hall).
    exists S'. split_and!; [done..|by auto|].
    constructor; [|done]. exists s. split_and!; [by apply Hsub'|done..].
Qed.

Lemma distinct_names_distinct_ids (calls : list (MapIter * Shortcut))
    (oks : list (Z * bool)) (S : list Shortcut) :
  NoDup (AppID <$> S) →
  NoDup ((λ c, AppName c.2) <$> calls) →
  Forall2 (λ c ok, ∃ s, s ∈ S ∧ AppName s = AppName c.2 ∧ AppID s = ok.1)
    calls oks →
  NoDup oks.*1.
Proof.
  intros HS Hnames Hall.
  induction Hall as [|c ok calls oks (s & Hs & Hname & Hid) Hall IH].
  - constructor.
  - cbn [fmap list_fmap] in *. apply NoDup_cons in Hnames as [Hc Hnames].
    apply NoDup_cons. split; [|by apply IH].
    intros (ok' & Heq & Hok')%list_elem_of_fmap.
    apply list_elem_of_lookup in Hok' as [i Hi].
    destruct (Forall2_lookup_r _ _ _ _ _ Hall Hi)
      as (c' & Hc' & s' & Hs' & Hname' & Hid').
    assert (s = s') as <-.
    { apply (NoDup_fmap_inj_on AppID S); [done..|congruence]. }
    apply Hc. apply list_elem_of_fmap. exists c'. split; [congruence|].
    by eapply list_elem_of_lookup_2.
Qed.

Lemma AddShortcuts_distinct calls user fs rng S oks fs' rng' :
  holds fs (ShortcutsPath user) S →
  NoDup (AppID <$> S) →
  Forall (λ c, AppID c.2 = 0 ∧ shortcut_wf c.2) calls →
  NoDup ((λ c, AppName c.2) <$> calls) →
  AddShortcuts calls user fs rng = Some (Ok <$> oks, fs', rng') →
  NoDup oks.*1.
Proof.
  intros HS Hnd Hcalls Hnames Hrun.
  destruct (AddShortcuts_steps _ _ _ _ _ _ _ _ HS Hnd Hcalls Hrun)
    as (S' & _ & Hnd' & _ & Hall).
  by eapply distinct_names_distinct_ids.
Qed.

End sequence.

(** * The claims *)

(** Claim C1, as amended.  For a collection [S] of valid shortcuts (no NUL
    byte in a string, every integer a [uint32]), [ReadShortcuts] after a
    successful [WriteShortcuts] of [S] returns the shortcuts of [S], each
    equal field for field, tags included, and as many of them; the order is
    the one Go's iteration over the decoded map produces, so the result is
    a permutation of [S]. *)
Theorem ReadShortcuts_after_WriteShortcuts `{codec : Codec}
    `{!CodecLaws codec} (it it' : MapIter) (fs fs' : filesystem)
    (path : string) (S : list Shortcut) :
  Forall shortcut_wf S →
  WriteShortcuts it fs path S = (Ok (), fs') →
  ∃ l, ReadShortcuts it' fs' path = Ok l
       ∧ l ≡ₚ S
       ∧ length l = length S
       ∧ ∀ s, s ∈ l ↔ s ∈ S.
Proof.
  intros Hwf Hw.
  destruct (ReadShortcuts_WriteShortcuts it fs fs' path S Hwf Hw it')
    as (l & Hl & Hperm).
  exists l. split_and!; [done..| |].
  - by rewrite Hperm.
  - intros s. by rewrite Hperm.
Qed.

Lemma ReadShortcuts_after_WriteShortcuts_witness :
  Forall shortcut_wf [game1; tagged]
  ∧ WriteShortcuts iter_fwd ∅ path0 [game1; tagged]
    = (Ok (), disk_of [game1; tagged])
  ∧ ∃ l, ReadShortcuts iter_rev (disk_of [game1; tagged]) path0 = Ok l
         ∧ l ≡ₚ [game1; tagged]
         ∧ length l = length [game1; tagged]
         ∧ ∀ s, s ∈ l ↔ s ∈ [game1; tagged].
Proof.
  assert (Forall shortcut_wf [game1; tagged]) as Hwf by by_eval.
  assert (WriteShortcuts iter_fwd ∅ path0 [game1; tagged]
          = (Ok (), disk_of [game1; tagged])) as Hw by (vm_compute; reflexivity).
  split; [exact Hwf|]. split; [exact Hw|].
  exact (ReadShortcuts_after_WriteShortcuts iter_fwd iter_rev ∅ _ path0
           [game1; tagged] Hwf Hw).
Defined.

(** Two shortcuts are written in the order [game1], [game2] and read back
    in the order [game2], [game1]. *)
Lemma ReadShortcuts_reorders :
  WriteShortcuts iter_fwd ∅ path0 [game1; game2]
  = (Ok (), disk_of [game1; game2])
  ∧ ReadShortcuts iter_fwd (disk_of [game1; game2]) path0 = Ok [game2; game1]
  ∧ ReadShortcuts iter_rev (disk_of [game1; game2]) path0 = Ok [game1; game2]
  ∧ [game2; game1] ≠ [game1; game2].
Proof.
  split_and!; [vm_compute; reflexivity..|]. intros [=].
Qed.

(** Claim C2, as amended.  When the incoming shortcut has AppID 0 and a
    new name, [AddShortcut] calls [GenerateAppID] again for as long as the
    candidate is the AppID of an entry: after any number of taken candidates
    it accepts the first free one and goes on to write; while every
    candidate is taken it keeps looping (the call has not returned when the
    listed outcomes are used up); it gives up only when the random source
    fails, with that error.  There is no retry cap. *)
Theorem AddShortcut_retries_without_cap `{Codec} (it : MapIter) (user : User)
    (shortcut : Shortcut) (fs : filesystem) (shortcuts : list Shortcut)
    (ks : list Z) (n : Z) (rest : list rand_outcome) :
  ReadShortcuts it fs (ShortcutsPath user) = Ok shortcuts →
  find (λ s, String.eqb (AppName s) (AppName shortcut)) shortcuts = None →
  AppID shortcut = 0 →
  Forall (λ k, appID_of_draw k ∈ (AppID <$> shortcuts)) ks →
  appID_of_draw n ∉ (AppID <$> shortcuts) →
  AddShortcut it user shortcut fs ((RandInt <$> ks) ++ RandInt n :: rest)
  = Some (add_written it user shortcuts
            (set_AppID (appID_of_draw n) shortcut) fs rest)
  ∧ AddShortcut it user shortcut fs (RandInt <$> ks) = None
  ∧ AddShortcut it user shortcut fs ((RandInt <$> ks) ++ RandErr :: rest)
    = Some {| add_ret := Err ErrRandom; add_shortcut := shortcut;
              add_fs := fs; add_rng := rest |}.
Proof.
  intros Hread Hfind Hzero Hks Hn.
  assert (Forall (λ k, conflict shortcuts (appID_of_draw k) = true) ks) as Hks'.
  { eapply Forall_impl; [done|]. intros k Hk. by apply conflict_true. }
  apply conflict_false in Hn.
  rewrite !(AddShortcut_fresh _ _ _ _ _ shortcuts) by done.
  rewrite Hzero. cbn [Z.eqb].
  rewrite allocateAppID_free, allocateAppID_pending, allocateAppID_rand_error
    by done.
  done.
Qed.

Lemma AddShortcut_retries_without_cap_witness :
  ∃ r, AddShortcut iter_fwd user0 gameB (disk_of [set_AppID minID gameA])
         (RandInt 0 :: RandInt 0 :: RandInt 0 :: RandInt 1 :: []) = Some r
       ∧ add_ret r = Ok (0xFF000001, true) ∧ add_rng r = [].
Proof.
  eexists. split.
  { refine (proj1 (AddShortcut_retries_without_cap iter_fwd user0 gameB
              (disk_of [set_AppID minID gameA]) [set_AppID minID gameA]
              [0; 0; 0] 1 [] _ _ _ _ _)).
    - vm_compute; reflexivity.
    - reflexivity.
    - reflexivity.
    - by_eval.
    - by_eval. }
  split; vm_compute; reflexivity.
Defined.

(** One entry uses the first AppID of the range; the random source yields
    that AppID 1001 times before a free one: the call draws 1002 times and
    succeeds. *)
Lemma AddShortcut_1001_retries :
  ∃ r, AddShortcut iter_fwd user0 gameB (disk_of [set_AppID minID gameA])
         (replicate 1001 (RandInt 0) ++ [RandInt 1]) = Some r
       ∧ add_ret r = Ok (0xFF000001, true)
       ∧ add_rng r = []
       ∧ length (replicate 1001 (RandInt 0) ++ [RandInt 1]) = 1002%nat.
Proof.
  eexists. split; [vm_compute; reflexivity|]. by split_and!.
Qed.

(** Claim C3, as amended.  For shortcuts without NUL bytes,
    [RemoveShortcut] and [UpdateShortcut] keep the non-zero AppIDs of the
    collection on disk pairwise distinct, and so does [AddShortcut] when the
    incoming AppID is 0 or is not used by an entry yet (a given AppID is
    appended unchecked).  Starting from a collection whose AppIDs are
    pairwise distinct, successful sequential calls of [AddShortcut] with
    pairwise distinct names and AppID 0 return pairwise distinct AppIDs. *)
Theorem repository_keeps_AppIDs_unique `{codec : Codec} `{!CodecLaws codec}
    (user : User) :
  (∀ it appID fs r fs',
     disk_unique fs (ShortcutsPath user) →
     RemoveShortcut it user appID fs = (r, fs') →
     disk_unique fs' (ShortcutsPath user))
  ∧ (∀ it shortcut fs r fs',
       shortcut_wf shortcut →
       disk_unique fs (ShortcutsPath user) →
       UpdateShortcut it user shortcut fs = (r, fs') →
       disk_unique fs' (ShortcutsPath user))
  ∧ (∀ it shortcut fs rng r,
       shortcut_wf shortcut →
       disk_unique fs (ShortcutsPath user) →
       (AppID shortcut = 0
        ∨ ∀ l, ReadShortcuts it fs (ShortcutsPath user) = Ok l →
               AppID shortcut ∉ (AppID <$> l)) →
       AddShortcut it user shortcut fs rng = Some r →
       disk_unique (add_fs r) (ShortcutsPath user))
  ∧ (∀ calls fs rng S oks fs' rng',
       holds fs (ShortcutsPath user) S →
       NoDup (AppID <$> S) →
       Forall (λ c, AppID c.2 = 0 ∧ shortcut_wf c.2) calls →
       NoDup ((λ c, AppName c.2) <$> calls) →
       AddShortcuts calls user fs rng = Some (Ok <$> oks, fs', rng') →
       NoDup oks.*1).
Proof.
  split_and!.
  - intros. by eapply RemoveShortcut_unique.
  - intros. by eapply UpdateShortcut_unique.
  - intros. by eapply AddShortcut_unique.
  - intros. by eapply AddShortcuts_distinct.
Qed.

Lemma repository_keeps_AppIDs_unique_witness :
  ∃ fs',
    AddShortcuts [(iter_fwd, gameA); (iter_rev, gameB)] user0 ∅
      [RandInt 5; RandInt 5; RandInt 7]
    = Some (Ok <$> [(0xFF000005, true); (0xFF000007, true)], fs', [])
    ∧ NoDup [0xFF000005; 0xFF000007].
Proof.
  eexists. split; [vm_compute; reflexivity|].
  refine (proj2 (proj2 (proj2 (repository_keeps_AppIDs_unique user0)))
            [(iter_fwd, gameA); (iter_rev, gameB)] ∅
            [RandInt 5; RandInt 5; RandInt 7] []
            [(0xFF000005, true); (0xFF000007, true)] _ [] _ _ _ _ _).
  - intros it. exists []. split; reflexivity.
  - constructor.
  - repeat (apply Forall_cons_2; [split; [reflexivity|by_eval]|]).
    apply Forall_nil_2.
  - by_eval.
  - vm_compute; reflexivity.
Defined.

(** No entry uses [0xFF000001] twice until [AddShortcut] is given that
    AppID for a second name. *)
Lemma AddShortcut_duplicates_given_AppID :
  (add_ret <$> AddShortcut iter_fwd user0 game1 ∅ [])
  = Some (Ok (0xFF000001, true))
  ∧ ReadShortcuts iter_fwd (after_add iter_fwd game1 [] ∅) path0 = Ok [game1]
  ∧ (add_ret <$> AddShortcut iter_fwd user0 game2_dup
                   (after_add iter_fwd game1 [] ∅) [])
    = Some (Ok (0xFF000001, true))
  ∧ ReadShortcuts iter_fwd disk_dup path0 = Ok [game2_dup; game1]
  ∧ AppID <$> [game2_dup; game1] = [0xFF000001; 0xFF000001].
Proof. split_and!; vm_compute; reflexivity. Qed.

(** Claim C4, as amended.  When the collection read holds an entry with
    the incoming AppName, [AddShortcut] returns the AppID of the first such
    entry in the order of this read, with [isNew = false], and writes
    nothing.  When all entries with that name carry one AppID (at most one
    entry has the name, say), a second call with the same name returns the
    AppID the first call returned, reports [isNew = false] and leaves the
    file as the first call left it. *)
Theorem AddShortcut_existing_name `{codec : Codec} `{!CodecLaws codec}
    (it1 it2 : MapIter) (user : User) (shortcut shortcut2 : Shortcut)
    (fs : filesystem) (rng : list rand_outcome) (shortcuts : list Shortcut) :
  ReadShortcuts it1 fs (ShortcutsPath user) = Ok shortcuts →
  shortcut_wf shortcut →
  AppName shortcut2 = AppName shortcut →
  (∀ s, find (λ s, String.eqb (AppName s) (AppName shortcut)) shortcuts
        = Some s →
        AddShortcut it1 user shortcut fs rng
        = Some {| add_ret := Ok (AppID s, false); add_shortcut := shortcut;
                  add_fs := fs; add_rng := rng |})
  ∧ (name_determines_id (AppName shortcut) shortcuts →
     ∀ r1 id isNew,
       AddShortcut it1 user shortcut fs rng = Some r1 →
       add_ret r1 = Ok (id, isNew) →
       AddShortcut it2 user shortcut2 (add_fs r1) (add_rng r1)
       = Some {| add_ret := Ok (id, false); add_shortcut := shortcut2;
                 add_fs := add_fs r1; add_rng := add_rng r1 |}).
Proof.
  intros Hread Hwf Hname. split.
  { intros s Hfind. by eapply AddShortcut_existing. }
  intros Hdet r1 id isNew Hadd Hret. destruct isNew.
  - (* the first call appended the entry *)
    destruct (AddShortcut_new_wf _ _ _ _ _ _ _ _ Hwf Hadd Hret Hread)
      as (_ & Hholds & Hnone & _).
    destruct (Hholds it2) as (l2 & Hread2 & Hperm).
    destruct (find_name_is_Some l2 (AppName shortcut2) (set_AppID id shortcut))
      as [s2 Hfind2].
    { rewrite Hperm. apply elem_of_app. right. by apply list_elem_of_singleton. }
    { by rewrite Hname. }
    rewrite (AddShortcut_existing _ _ _ _ _ l2 s2) by done.
    apply find_name_Some in Hfind2 as [Hin2 Hname2].
    rewrite Hperm, elem_of_app, list_elem_of_singleton in Hin2.
    destruct Hin2 as [Hin2| ->]; [|done].
    destruct (find_name_None _ _ _ Hnone Hin2). congruence.
  - (* the first call found an entry *)
    destruct (AddShortcut_old_inv _ _ _ _ _ _ _ Hadd Hret)
      as (shortcuts' & s & Hread' & Hfind & Hid & ->).
    rewrite Hread in Hread'. injection Hread' as <-. cbn [add_fs add_rng].
    apply find_name_Some in Hfind as [Hin Hs].
    destruct (ReadShortcuts_perm it1 it2 _ _ _ Hread) as (l2 & Hread2 & Hperm).
    destruct (find_name_is_Some l2 (AppName shortcut2) s) as [s2 Hfind2].
    { by rewrite Hperm. }
    { by rewrite Hname. }
    rewrite (AddShortcut_existing _ _ _ _ _ l2 s2) by done.
    apply find_name_Some in Hfind2 as [Hin2 Hname2]. rewrite Hperm in Hin2.
    rewrite <-Hid, (Hdet s2 s); [done..|congruence|done].
Qed.

Lemma AddShortcut_existing_name_witness :
  ∃ r1, AddShortcut iter_fwd user0 gameA ∅ [RandInt 5] = Some r1
        ∧ add_ret r1 = Ok (0xFF000005, true)
        ∧ AddShortcut iter_rev user0 gameA_again (add_fs r1) (add_rng r1)
          = Some {| add_ret := Ok (0xFF000005, false);
                    add_shortcut := gameA_again;
                    add_fs := add_fs r1; add_rng := add_rng r1 |}.
Proof.
  eexists. split; [vm_compute; reflexivity|]. split; [reflexivity|].
  refine (proj2 (AddShortcut_existing_name iter_fwd iter_rev user0 gameA
                   gameA_again ∅ [RandInt 5] [] _ _ _) _ _ _ true _ _).
  - reflexivity.
  - by_eval.
  - reflexivity.
  - intros s s' Hs. by apply elem_of_nil in Hs.
  - vm_compute; reflexivity.
  - reflexivity.
Defined.

(** Two entries come to share a name through the repository's own
    operations; two calls of [AddShortcut] with that name, neither of which
    writes, then return different AppIDs. *)
Lemma AddShortcut_same_name_two_AppIDs :
  (add_ret <$> AddShortcut iter_fwd user0 gameA ∅ [RandInt 1])
  = Some (Ok (0xFF000001, true))
  ∧ (add_ret <$> AddShortcut iter_fwd user0 gameB
                   (after_add iter_fwd gameA [RandInt 1] ∅) [RandInt 2])
    = Some (Ok (0xFF000002, true))
  ∧ UpdateShortcut iter_fwd user0 game2_renamed disk_two = (Ok (), disk_renamed)
  ∧ AddShortcut iter_fwd user0 gameA_again disk_renamed []
    = Some {| add_ret := Ok (0xFF000001, false); add_shortcut := gameA_again;
              add_fs := disk_renamed; add_rng := [] |}
  ∧ AddShortcut iter_rev user0 gameA_again disk_renamed []
    = Some {| add_ret := Ok (0xFF000002, false); add_shortcut := gameA_again;
              add_fs := disk_renamed; add_rng := [] |}.
Proof. split_and!; vm_compute; reflexivity. Qed.



(** Claim C6, as amended.  [RemoveShortcut] always writes the collection
    back: the entries whose AppID differs from the given one, which is the
    whole collection when no entry has it.  After a successful call the
    file exists, is not empty, and reads back as those entries (up to
    order); the call succeeds whenever the path can be written. *)
Theorem RemoveShortcut_rewrites_collection `{codec : Codec}
    `{!CodecLaws codec} (it : MapIter) (user : User) (appID : Z)
    (fs : filesystem) (shortcuts : list Shortcut) :
  ReadShortcuts it fs (ShortcutsPath user) = Ok shortcuts →
  RemoveShortcut it user appID fs
  = WriteShortcuts it fs (ShortcutsPath user)
      (filter (λ s, AppID s ≠ appID) shortcuts)
  ∧ (appID ∉ (AppID <$> filter (λ s, AppID s ≠ appID) shortcuts))
  ∧ (appID ∉ (AppID <$> shortcuts) →
       filter (λ s, AppID s ≠ appID) shortcuts = shortcuts)
  ∧ (∀ fs', RemoveShortcut it user appID fs = (Ok (), fs') →
       holds fs' (ShortcutsPath user) (filter (λ s, AppID s ≠ appID) shortcuts)
       ∧ ∃ data, fs' !! ShortcutsPath user = Some (File data) ∧ data ≠ [])
  ∧ (writable fs (ShortcutsPath user) →
       ∃ fs', RemoveShortcut it user appID fs = (Ok (), fs')).
Proof.
  intros Hr. pose proof (ReadShortcuts_wf _ _ _ _ Hr) as Hwf.
  pose proof (Forall_wf_filter (λ s, AppID s ≠ appID) _ Hwf) as Hwf'.
  rewrite (RemoveShortcut_read it user appID fs shortcuts Hr).
  split_and!.
  - done.
  - apply filter_AppID_removed.
  - apply filter_AppID_absent.
  - intros fs' Hw. split; [by eapply ReadShortcuts_WriteShortcuts|].
    apply WriteShortcuts_Ok in Hw as (data & fs1 & Hdata & _ & _ & ->).
    exists data. rewrite lookup_insert_eq. split; [done|].
    by eapply WriteBinary_root.
  - by apply WriteShortcuts_writable.
Qed.

Lemma RemoveShortcut_rewrites_collection_witness :
  ReadShortcuts iter_fwd (disk_of [game1; game2]) path0 = Ok [game2; game1]
  ∧ RemoveShortcut iter_fwd user0 0xFF000001 (disk_of [game1; game2])
    = WriteShortcuts iter_fwd (disk_of [game1; game2]) path0 [game2]
  ∧ RemoveShortcut iter_fwd user0 0xFF000003 (disk_of [game1; game2])
    = WriteShortcuts iter_fwd (disk_of [game1; game2]) path0 [game2; game1].
Proof.
  assert (ReadShortcuts iter_fwd (disk_of [game1; game2]) (ShortcutsPath user0)
          = Ok [game2; game1]) as Hr by (vm_compute; reflexivity).
  split; [exact Hr|]. split.
  - exact (proj1 (RemoveShortcut_rewrites_collection iter_fwd user0
                    0xFF000001 _ _ Hr)).
  - exact (proj1 (RemoveShortcut_rewrites_collection iter_fwd user0
                    0xFF000003 _ _ Hr)).
Defined.

(** The shortcuts file does not exist; removing an AppID creates it. *)
Lemma RemoveShortcut_creates_file :
  ReadShortcuts iter_fwd ∅ path0 = Ok []
  ∧ (∅ : filesystem) !! path0 = None
  ∧ RemoveShortcut iter_fwd user0 0xFFFFFFFF ∅
    = (Ok (), <[path0 := File empty_collection_bytes]>
                (<["/cfg" := Directory]> ∅))
  ∧ RemoveShortcut iter_fwd user0 0xFFFFFFFF (<[path0 := File []]> ∅)
    = (Ok (), <[path0 := File empty_collection_bytes]>
                (<["/cfg" := Directory]> (<[path0 := File []]> ∅))).
Proof. split_and!; vm_compute; reflexivity. Qed.


(** Claim C8, the code evaluated against it.  The bound handed to
    [rand.Int] is [maxID - minID], so the largest AppID [GenerateAppID]
    returns is [maxID - 1].  Every result lies in [[minID, maxID]];
    [maxID] itself is never returned; the draws [rand.Int] may return and
    the AppIDs from [minID] to [maxID - 1] correspond one to one, so a
    uniform draw gives a uniform AppID of that smaller range. *)
Theorem GenerateAppID_excludes_maxID :
  rangeSize = 0x00FFFFFF
  ∧ GenerateAppID (RandInt (rangeSize - 1)) = Ok (maxID - 1)
  ∧ (∀ r id, rand_ok r → GenerateAppID r = Ok id → minID <= id <= maxID)
  ∧ (∀ r, rand_ok r → GenerateAppID r ≠ Ok maxID)
  ∧ (∀ id, minID <= id < maxID →
       ∃ n, rand_ok (RandInt n) ∧ GenerateAppID (RandInt n) = Ok id)
  ∧ (∀ n n', rand_ok (RandInt n) → rand_ok (RandInt n') →
       GenerateAppID (RandInt n) = GenerateAppID (RandInt n') → n = n').
Proof.
  split_and!.
  - done.
  - done.
  - intros r id Hr Hid. pose proof (GenerateAppID_Ok r id Hr Hid). lia.
  - intros r Hr Hid. pose proof (GenerateAppID_Ok r _ Hr Hid). lia.
  - intros id Hid. exists (id - minID).
    assert (0 <= id - minID < rangeSize) as Hn.
    { revert Hid. change rangeSize with 16777215.
      change minID with 4278190080. change maxID with 4294967295. lia. }
    split; [done|]. rewrite GenerateAppID_RandInt.
    destruct (appID_of_draw_range _ Hn) as [-> _]. f_equal. lia.
  - intros n n' Hn Hn'. rewrite !GenerateAppID_RandInt.
    destruct (appID_of_draw_range _ Hn) as [-> _].
    destruct (appID_of_draw_range _ Hn') as [-> _]. intros [= Heq]. lia.
Qed.

(** Claim C9.  [parseShortcutEntry] leaves a field at its zero value when
    the key holds a value of another type than the field's: 0 for the
    integer fields, the empty string for the string fields, no tags when
    [tags] is not a map, and no tag for an entry of [tags] that is not a
    string.  The entry is still part of what [ReadShortcuts] collects. *)
Theorem parseShortcutEntry_skips_mistyped (it : MapIter)
    (m : gmap string Node) :
  Forall (λ kf, ∀ v, m !! kf.1 = Some v → is_NUInt32 v = false →
                     kf.2 (parseShortcutEntry it m) = 0) uint32_fields
  ∧ Forall (λ kf, ∀ v, m !! kf.1 = Some v → is_NString v = false →
                       kf.2 (parseShortcutEntry it m) = "") string_fields
  ∧ (∀ v, m !! "tags" = Some v → is_NMap v = false →
          Tags (parseShortcutEntry it m) = ∅)
  ∧ (∀ tags k v, m !! "tags" = Some (NMap tags) → tags !! k = Some v →
          is_NString v = false → Tags (parseShortcutEntry it m) !! k = None)
  ∧ (∀ k, collectShortcuts it [(k, NMap m)] = [parseShortcutEntry it m]).
Proof.
  split_and!.
  - unfold uint32_fields. repeat apply Forall_cons_2; try apply Forall_nil_2;
      cbn [fst snd]; intros v Hv Hty; simpl; unfold field_uint32;
      rewrite Hv; by destruct v.
  - unfold string_fields. repeat apply Forall_cons_2; try apply Forall_nil_2;
      cbn [fst snd]; intros v Hv Hty; simpl; unfold field_string;
      rewrite Hv; by destruct v.
  - intros v Hv Hty. cbn [Tags parseShortcutEntry]. unfold field_tags.
    rewrite Hv. by destruct v.
  - intros tags k v Htags Hk Hty. cbn [Tags parseShortcutEntry].
    rewrite field_tags_omap, Htags, lookup_omap, Hk. by destruct v.
  - done.
Qed.

Lemma parseShortcutEntry_skips_mistyped_witness :
  AppID (parseShortcutEntry iter_fwd mistyped) = 0
  ∧ AppName (parseShortcutEntry iter_fwd mistyped) = ""
  ∧ Exe (parseShortcutEntry iter_fwd mistyped) = "x.exe"
  ∧ Tags (parseShortcutEntry iter_fwd mistyped) = ∅.
Proof.
  destruct (parseShortcutEntry_skips_mistyped iter_fwd mistyped)
    as (Hu & Hs & Ht & _).
  split_and!.
  - apply (Forall_inv Hu (NString "7")); reflexivity.
  - apply (Forall_inv Hs (NUInt32 7)); reflexivity.
  - reflexivity.
  - apply (Ht (NString "t")); reflexivity.
Defined.

(** Claim C10.  When [AddShortcut] reports a new entry, the caller's
    shortcut carries the returned AppID, which is not 0: that is the
    allocated AppID, in the reserved range and unused by the entries read,
    when the incoming AppID was 0, and the incoming AppID otherwise.  The
    collection written ends with the shortcut carrying that AppID. *)
Theorem AddShortcut_stores_AppID_in_argument `{Codec} (it : MapIter)
    (user : User) (shortcut : Shortcut) (fs : filesystem)
    (rng : list rand_outcome) (r : AddResult) (id : Z) :
  Forall rand_ok rng →
  AddShortcut it user shortcut fs rng = Some r →
  add_ret r = Ok (id, true) →
  add_shortcut r = set_AppID id shortcut
  ∧ AppID (add_shortcut r) = id
  ∧ id ≠ 0
  ∧ (∃ shortcuts,
       ReadShortcuts it fs (ShortcutsPath user) = Ok shortcuts
       ∧ WriteShortcuts it fs (ShortcutsPath user)
           (shortcuts ++ [set_AppID id shortcut]) = (Ok (), add_fs r)
       ∧ (AppID shortcut = 0 →
            minID <= id <= maxID ∧ id ∉ (AppID <$> shortcuts)))
  ∧ (AppID shortcut ≠ 0 → id = AppID shortcut ∧ add_shortcut r = shortcut).
Proof.
  intros Hrng Hadd Hret.
  destruct (AddShortcut_new_inv _ _ _ _ _ _ _ Hadd Hret)
    as (shortcuts & Hread & _ & Hsc & Hw & Halloc).
  assert (AppID shortcut = 0 →
          minID <= id < maxID ∧ id ∉ (AppID <$> shortcuts)) as Hzero.
  { intros Hz. rewrite Hz in Halloc. simpl in Halloc.
    apply allocateAppID_Ok in Halloc as (Hfree & (r0 & Hin & Hgen) & _).
    split; [|done]. eapply GenerateAppID_Ok; [|done].
    rewrite Forall_forall in Hrng. by apply Hrng. }
  assert (AppID shortcut ≠ 0 → id = AppID shortcut) as Hnz.
  { intros Hz. apply Z.eqb_neq in Hz. rewrite Hz in Halloc. by destruct Halloc. }
  split_and!.
  - done.
  - by rewrite Hsc.
  - destruct (decide (AppID shortcut = 0)) as [Hz|Hz].
    + destruct (Hzero Hz) as [Hr _]. revert Hr.
      change minID with 4278190080. lia.
    + by rewrite (Hnz Hz).
  - exists shortcuts. split_and!; [done..|].
    intros Hz. destruct (Hzero Hz). split; [lia|done].
  - intros Hz. split; [by apply Hnz|]. rewrite Hsc, (Hnz Hz).
    apply set_AppID_id.
Qed.

Lemma AddShortcut_stores_AppID_in_argument_witness :
  ∃ r, AddShortcut iter_fwd user0 gameA ∅ [RandInt 5] = Some r
       ∧ add_ret r = Ok (0xFF000005, true)
       ∧ AppID gameA = 0
       ∧ AppID (add_shortcut r) = 0xFF000005.
Proof.
  eexists. split; [vm_compute; reflexivity|]. split; [reflexivity|].
  split; [reflexivity|].
  refine (proj1 (proj2 (AddShortcut_stores_AppID_in_argument iter_fwd user0
                          gameA ∅ [RandInt 5] _ 0xFF000005 _ _ _))).
  - by_eval.
  - vm_compute; reflexivity.
  - reflexivity.
Defined.

(** * Further properties *)

Import Samples.

(** ** Entries and files *)

Lemma toVDFMap_iter it it' s : toVDFMap it s = toVDFMap it' s.
Proof.
  apply map_eq. intros k. destruct (decide (k = "tags")) as [->|Hk].
  - by rewrite !toVDFMap_tags.
  - unfold toVDFMap. cbv zeta. by rewrite !lookup_insert_ne.
Qed.

(** Property X1.  [parseShortcutEntry] undoes [toVDFMap]: parsing the map
    built from a shortcut gives the shortcut back, every field and the tags
    included, whatever the orders in which the two loops over the tags run.
    The map built does not depend on that order, and it always holds the
    seventeen keys, also for fields that are zero or empty. *)
Theorem toVDFMap_parseShortcutEntry (it it' : MapIter) (s : Shortcut) :
  parseShortcutEntry it' (toVDFMap it s) = s
  ∧ toVDFMap it s = toVDFMap it' s
  ∧ dom (toVDFMap it s)
    = list_to_set ("tags" :: uint32_fields.*1 ++ string_fields.*1).
Proof.
  split; [apply parse_toVDFMap|]. split; [apply toVDFMap_iter|].
  unfold toVDFMap. cbv zeta. rewrite dom_insert_L, dom_list_to_map_L.
  simpl. set_solver.
Qed.

(** Property X2.  The map [WriteShortcuts] builds stores the entry at
    position [i] under the decimal string of [i] and nothing under the
    decimal string of a position past the end; no two positions share a key,
    so the map has as many entries as the collection. *)
Theorem shortcutsToMap_index (it : MapIter) (shortcuts : list Shortcut)
    (i : nat) :
  shortcutsToMap it shortcuts !! pretty i
  = (λ s, NMap (toVDFMap it s)) <$> shortcuts !! i
  ∧ size (shortcutsToMap it shortcuts) = length shortcuts.
Proof.
  rewrite shortcutsToMap_insert_all,
    (insert_all_list_to_map _ (entries_NoDup it shortcuts)).
  split.
  - destruct (shortcuts !! i) as [s|] eqn:Hi; simpl.
    + apply elem_of_list_to_map_1; [apply entries_NoDup|].
      unfold entries. apply list_elem_of_fmap.
      exists (i, s). split; [done|].
      apply list_elem_of_lookup. exists i.
      apply lookup_zip_with_Some. exists i, s. split_and!; [done| |done].
      apply lookup_seq. split; [done|]. by eapply lookup_lt_Some.
    + apply not_elem_of_list_to_map_1. rewrite entries_keys.
      intros (j & Hj & Hin)%list_elem_of_fmap.
      apply (inj pretty) in Hj as <-.
      apply elem_of_seq in Hin. apply lookup_ge_None in Hi. lia.
  - rewrite (map_size_list_to_map _ (entries_NoDup it shortcuts)).
    unfold entries. rewrite length_fmap, length_zip_with, length_seq. lia.
Qed.


Lemma length_omap_entry_shortcut it (l : list (string * Node)) :
  length (omap (entry_shortcut it) l)
  = length (filter (λ kv, is_NMap kv.2) l).
Proof.
  induction l as [|[k v] l IH]; [done|].
  rewrite filter_cons. cbn [omap list_omap]. unfold entry_shortcut at 1.
  destruct v; simpl; rewrite ?IH; done.
Qed.

(** Property X4.  On a non-empty file the codec accepts, [ReadShortcuts]
    succeeds.  It looks at the key ["shortcuts"] only: when that key is
    missing or does not hold a map the result is empty; otherwise every
    entry that is a map yields one shortcut, whatever its key, and entries
    that are not maps are skipped. *)
Theorem ReadShortcuts_map_entries `{Codec} (it : MapIter) (fs : filesystem)
    (path : string) (data : list byte) (m : gmap string Node) :
  fs !! path = Some (File data) → data ≠ [] → ReadBinary data = Some m →
  ∃ l, ReadShortcuts it fs path = Ok l
       ∧ match m !! "shortcuts" with
         | Some (NMap sm) =>
             length l = size (filter (λ kv, is_NMap kv.2) sm)
             ∧ ∀ s, s ∈ l ↔ ∃ k em, sm !! k = Some (NMap em)
                                     ∧ s = parseShortcutEntry it em
         | _ => l = []
         end.
Proof.
  intros Hp Hne Hrd. unfold ReadShortcuts, os_ReadFile. rewrite Hp.
  destruct (decide _) as [Hl|_]; [by apply nil_length_inv in Hl|].
  rewrite Hrd. destruct (m !! "shortcuts") as [[| |sm]|]; try by eexists.
  eexists. split; [done|]. rewrite collectShortcuts_omap. split.
  - rewrite length_omap_entry_shortcut.
    rewrite (range_perm it), map_filter_alt, map_size_list_to_map; [done|].
    eapply sublist_NoDup;
      [apply (NoDup_fst_map_to_list sm)|apply fmap_sublist, sublist_filter].
  - intros s. rewrite list_elem_of_omap. split.
    + intros ([k v] & Hin & Hs). rewrite (range_perm it) in Hin.
      apply elem_of_map_to_list in Hin. unfold entry_shortcut in Hs.
      destruct v as [| |em]; simplify_eq/=. by exists k, em.
    + intros (k & em & Hk & ->). exists (k, NMap em). split; [|done].
      rewrite (range_perm it). by apply elem_of_map_to_list.
Qed.

Lemma ReadShortcuts_map_entries_witness :
  ∃ data, junk_disk !! path0 = Some (File data)
          ∧ data ≠ []
          ∧ ReadBinary data = Some junk_map
          ∧ ReadShortcuts iter_rev junk_disk path0 = Ok [game1]
          ∧ ∃ l, ReadShortcuts iter_rev junk_disk path0 = Ok l
                 ∧ match junk_map !! "shortcuts" with
                   | Some (NMap sm) =>
                       length l = size (filter (λ kv, is_NMap kv.2) sm)
                       ∧ ∀ s, s ∈ l ↔ ∃ k em, sm !! k = Some (NMap em)
                                               ∧ s = parseShortcutEntry iter_rev em
                   | _ => l = []
                   end.
Proof.
  eexists. split; [vm_compute; reflexivity|].
  assert (∀ A (x : A) l, x :: l ≠ []) as Hne by done.
  split; [apply Hne|]. split; [vm_compute; reflexivity|].
  split; [vm_compute; reflexivity|].
  refine (ReadShortcuts_map_entries iter_rev junk_disk path0 _ junk_map _ _ _).
  - vm_compute; reflexivity.
  - apply Hne.
  - vm_compute; reflexivity.
Defined.

(** Property X5.  The order in which Go iterates over the decoded maps
    decides nothing but the order of the result: two reads of one file
    fail with the same error, or return the same shortcuts up to order. *)
Theorem ReadShortcuts_order_independent `{Codec} (it it' : MapIter)
    (fs : filesystem) (path : string) :
  match ReadShortcuts it fs path, ReadShortcuts it' fs path with
  | Ok l, Ok l' => l ≡ₚ l'
  | Err e, Err e' => e = e'
  | _, _ => False
  end.
Proof.
  destruct (ReadShortcuts it fs path) as [l|e] eqn:Hr.
  - destruct (ReadShortcuts_perm it it' fs path l Hr) as (l' & -> & Hperm).
    by symmetry.
  - unfold ReadShortcuts in *.
    destruct (os_ReadFile fs path) as [data| |]; [|done|by simplify_eq].
    destruct (decide _); [done|].
    destruct (ReadBinary data) as [m|]; [|by simplify_eq].
    by destruct (m !! "shortcuts") as [[]|].
Qed.

(** ** Operations, one after the other *)

Lemma find_name_unique_perm (l S : list Shortcut) (x : Shortcut) name :
  l ≡ₚ S ++ [x] →
  find (λ s, String.eqb (AppName s) name) S = None →
  AppName x = name →
  find (λ s, String.eqb (AppName s) name) l = Some x.
Proof.
  intros Hperm Hnone Hx.
  assert (x ∈ l) as Hin by (rewrite Hperm; set_solver).
  destruct (find_name_is_Some l name x Hin Hx) as [s' Hs'].
  rewrite Hs'. f_equal.
  apply find_name_Some in Hs' as [Hin' Hname].
  rewrite Hperm in Hin'. apply elem_of_app in Hin' as [Hin'|Hin'].
  - by destruct (find_name_None S name s' Hnone Hin').
  - by apply list_elem_of_singleton in Hin'.
Qed.

Lemma insert_snoc_perm {A} (l S : list A) (i : nat) (x y : A) :
  l ≡ₚ S ++ [x] → l !! i = Some x → <[i := y]> l ≡ₚ S ++ [y].
Proof.
  intros Hperm Hi.
  assert (delete i l ≡ₚ S) as Hdel.
  { apply (Permutation_cons_inv (a := x)).
    rewrite <-(delete_Permutation l i x Hi), Hperm.
    by rewrite Permutation_app_comm. }
  rewrite insert_take_drop by by eapply lookup_lt_Some.
  rewrite <-Hdel, delete_take_drop.
  by rewrite <-Permutation_middle, (Permutation_app_comm _ [y]).
Qed.

(** Property X6.  After [AddShortcut] has stored a valid shortcut as new,
    [FindShortcutByName] with its name returns that shortcut, carrying the
    AppID [AddShortcut] returned, in whatever order the file is read. *)
Theorem FindShortcutByName_after_AddShortcut `{codec : Codec} `{!CodecLaws codec} (it it' : MapIter) (user : User)
    (shortcut : Shortcut) (fs : filesystem) (rng : list rand_outcome)
    (r : AddResult) (id : Z) :
  shortcut_wf shortcut →
  AddShortcut it user shortcut fs rng = Some r →
  add_ret r = Ok (id, true) →
  FindShortcutByName it' user (AppName shortcut) (add_fs r)
  = Ok (Some (set_AppID id shortcut)).
Proof.
  intros Hwf Hadd Hret.
  destruct (AddShortcut_new_inv _ _ _ _ _ _ _ Hadd Hret)
    as (shortcuts & Hread & _).
  destruct (AddShortcut_new_wf _ _ _ _ _ _ _ _ Hwf Hadd Hret Hread)
    as (_ & Hholds & Hnone & _).
  destruct (Hholds it') as (l & Hl & Hperm).
  unfold FindShortcutByName. rewrite Hl. do 2 f_equal.
  by eapply find_name_unique_perm.
Qed.

Lemma FindShortcutByName_after_AddShortcut_witness :
  ∃ r, AddShortcut iter_fwd user0 gameA (disk_of [game2]) [RandInt 2; RandInt 1]
       = Some r
       ∧ add_ret r = Ok (0xFF000001, true)
       ∧ shortcut_wf gameA
       ∧ FindShortcutByName iter_rev user0 "Game A" (add_fs r) = Ok (Some game1).
Proof.
  eexists. split; [vm_compute; reflexivity|]. split; [reflexivity|].
  split; [by_eval|].
  refine (FindShortcutByName_after_AddShortcut iter_fwd iter_rev user0 gameA
            (disk_of [game2]) [RandInt 2; RandInt 1] _ 0xFF000001 _ _ _).
  - by_eval.
  - vm_compute; reflexivity.
  - reflexivity.
Defined.

(** Property X7.  Adding a valid shortcut without AppID and then removing
    the AppID that was returned restores the collection: the file holds the
    shortcuts that were read before the add. *)
Theorem RemoveShortcut_after_AddShortcut `{codec : Codec} `{!CodecLaws codec} (it it' : MapIter) (user : User)
    (shortcut : Shortcut) (fs fs' : filesystem) (rng : list rand_outcome)
    (r : AddResult) (id : Z) (shortcuts : list Shortcut) :
  shortcut_wf shortcut →
  AppID shortcut = 0 →
  ReadShortcuts it fs (ShortcutsPath user) = Ok shortcuts →
  AddShortcut it user shortcut fs rng = Some r →
  add_ret r = Ok (id, true) →
  RemoveShortcut it' user id (add_fs r) = (Ok (), fs') →
  holds fs' (ShortcutsPath user) shortcuts.
Proof.
  intros Hwf Hz Hread Hadd Hret Hrm.
  destruct (AddShortcut_new_wf _ _ _ _ _ _ _ _ Hwf Hadd Hret Hread)
    as (_ & Hholds & _ & Hfree).
  specialize (Hfree Hz).
  destruct (Hholds it') as (l & Hl & Hperm).
  rewrite (RemoveShortcut_read _ _ _ _ _ Hl) in Hrm.
  apply ReadShortcuts_WriteShortcuts in Hrm.
  - eapply holds_perm; [|done].
    rewrite Hperm, filter_app, (filter_AppID_absent _ _ Hfree).
    rewrite filter_cons_False, filter_nil, app_nil_r; [done|].
    simpl. by intros [].
  - apply Forall_wf_filter. by eapply ReadShortcuts_wf.
Qed.

Lemma RemoveShortcut_after_AddShortcut_witness :
  ∃ r fs',
    shortcut_wf gameA
    ∧ AppID gameA = 0
    ∧ ReadShortcuts iter_fwd (disk_of [game2]) path0 = Ok [game2]
    ∧ AddShortcut iter_fwd user0 gameA (disk_of [game2]) [RandInt 1] = Some r
    ∧ add_ret r = Ok (0xFF000001, true)
    ∧ RemoveShortcut iter_rev user0 0xFF000001 (add_fs r) = (Ok (), fs')
    ∧ holds fs' path0 [game2].
Proof.
  eexists. eexists.
  split; [by_eval|]. split; [reflexivity|].
  split; [vm_compute; reflexivity|].
  split; [vm_compute; reflexivity|]. split; [reflexivity|].
  split; [vm_compute; reflexivity|].
  refine (RemoveShortcut_after_AddShortcut iter_fwd iter_rev user0 gameA
            (disk_of [game2]) _ [RandInt 1] _ 0xFF000001 [game2] _ _ _ _ _ _).
  - by_eval.
  - reflexivity.
  - vm_compute; reflexivity.
  - vm_compute; reflexivity.
  - reflexivity.
  - vm_compute; reflexivity.
Defined.

(** Property X8.  After a successful [RemoveShortcut] no entry carries the
    removed AppID, and [UpdateShortcut] of a shortcut with that AppID fails
    with the not-found error without touching the file system. *)
Theorem UpdateShortcut_after_RemoveShortcut `{codec : Codec} `{!CodecLaws codec} (it it' : MapIter) (user : User)
    (shortcut : Shortcut) (appID : Z) (fs fs' : filesystem) :
  RemoveShortcut it user appID fs = (Ok (), fs') →
  AppID shortcut = appID →
  UpdateShortcut it' user shortcut fs'
  = (Err (ErrNotFound appID), fs')
  ∧ ∀ l, ReadShortcuts it' fs' (ShortcutsPath user) = Ok l →
         appID ∉ (AppID <$> l).
Proof.
  intros Hrm <-.
  destruct (ReadShortcuts it fs (ShortcutsPath user)) as [l|e] eqn:Hread;
    [|unfold RemoveShortcut in Hrm; by rewrite Hread in Hrm].
  rewrite (RemoveShortcut_read _ _ _ _ _ Hread) in Hrm.
  apply ReadShortcuts_WriteShortcuts in Hrm;
    [|apply Forall_wf_filter; by eapply ReadShortcuts_wf].
  assert (∀ l', ReadShortcuts it' fs' (ShortcutsPath user) = Ok l' →
                AppID shortcut ∉ (AppID <$> l')) as Habs.
  { intros l' Hl'. rewrite (holds_agree _ _ _ _ _ Hrm Hl').
    apply filter_AppID_removed. }
  split; [|done].
  destruct (Hrm it') as (l' & Hl' & _).
  eapply UpdateShortcut_missing; [done|by apply Habs].
Qed.

Lemma UpdateShortcut_after_RemoveShortcut_witness :
  ∃ fs', RemoveShortcut iter_fwd user0 0xFF000001 (disk_of [game1; game2])
         = (Ok (), fs')
         ∧ AppID game1_moved = 0xFF000001
         ∧ UpdateShortcut iter_rev user0 game1_moved fs'
           = (Err (ErrNotFound 0xFF000001), fs')
         ∧ ∀ l, ReadShortcuts iter_rev fs' (ShortcutsPath user0) = Ok l →
                0xFF000001 ∉ (AppID <$> l).
Proof.
  eexists. split; [vm_compute; reflexivity|]. split; [reflexivity|].
  refine (UpdateShortcut_after_RemoveShortcut iter_fwd iter_rev user0
            game1_moved 0xFF000001 (disk_of [game1; game2]) _ _ _).
  - vm_compute; reflexivity.
  - reflexivity.
Defined.

(** Property X9.  After a valid shortcut was added without AppID, a
    successful [UpdateShortcut] of a valid shortcut carrying the returned
    AppID replaces the added entry and no other: the file holds the
    previous shortcuts and the updated one. *)
Theorem UpdateShortcut_after_AddShortcut `{codec : Codec} `{!CodecLaws codec} (it it' : MapIter) (user : User)
    (shortcut shortcut' : Shortcut) (fs fs' : filesystem)
    (rng : list rand_outcome) (r : AddResult) (id : Z)
    (shortcuts : list Shortcut) :
  shortcut_wf shortcut → shortcut_wf shortcut' →
  AppID shortcut = 0 →
  ReadShortcuts it fs (ShortcutsPath user) = Ok shortcuts →
  AddShortcut it user shortcut fs rng = Some r →
  add_ret r = Ok (id, true) →
  AppID shortcut' = id →
  UpdateShortcut it' user shortcut' (add_fs r) = (Ok (), fs') →
  holds fs' (ShortcutsPath user) (shortcuts ++ [shortcut']).
Proof.
  intros Hwf Hwf' Hz Hread Hadd Hret Hid Hup.
  destruct (AddShortcut_new_wf _ _ _ _ _ _ _ _ Hwf Hadd Hret Hread)
    as (Hall & Hholds & _ & Hfree).
  specialize (Hfree Hz).
  destruct (Hholds it') as (l & Hl & Hperm).
  destruct (UpdateShortcut_cases it' user shortcut' (add_fs r) l Hl)
    as [[_ Hmiss]|(i & s & Hi & Hs & Hhit)]; [by rewrite Hmiss in Hup|].
  rewrite Hhit in Hup.
  assert (s = set_AppID id shortcut) as ->.
  { assert (s ∈ shortcuts ++ [set_AppID id shortcut]) as Hin.
    { rewrite <-Hperm. by eapply list_elem_of_lookup_2. }
    apply elem_of_app in Hin as [Hin|Hin];
      [|by apply list_elem_of_singleton in Hin].
    destruct Hfree. rewrite <-Hid, <-Hs. by apply list_elem_of_fmap_2. }
  apply ReadShortcuts_WriteShortcuts in Hup.
  - eapply holds_perm; [|done]. by eapply insert_snoc_perm.
  - apply Forall_insert; [|done].
    rewrite Hperm. done.
Qed.

Lemma UpdateShortcut_after_AddShortcut_witness :
  ∃ r fs',
    shortcut_wf gameA ∧ shortcut_wf game1_moved
    ∧ AppID gameA = 0
    ∧ ReadShortcuts iter_fwd (disk_of [game2]) path0 = Ok [game2]
    ∧ AddShortcut iter_fwd user0 gameA (disk_of [game2]) [RandInt 1] = Some r
    ∧ add_ret r = Ok (0xFF000001, true)
    ∧ AppID game1_moved = 0xFF000001
    ∧ UpdateShortcut iter_rev user0 game1_moved (add_fs r) = (Ok (), fs')
    ∧ holds fs' path0 [game2; game1_moved].
Proof.
  eexists. eexists.
  split; [by_eval|]. split; [by_eval|]. split; [reflexivity|].
  split; [vm_compute; reflexivity|].
  split; [vm_compute; reflexivity|]. split; [reflexivity|].
  split; [reflexivity|].
  split; [vm_compute; reflexivity|].
  refine (UpdateShortcut_after_AddShortcut iter_fwd iter_rev user0 gameA
            game1_moved (disk_of [game2]) _ [RandInt 1] _ 0xFF000001 [game2]
            _ _ _ _ _ _ _ _).
  - by_eval.
  - by_eval.
  - reflexivity.
  - vm_compute; reflexivity.
  - vm_compute; reflexivity.
  - reflexivity.
  - reflexivity.
  - vm_compute; reflexivity.
Defined.

(** ** What the operations leave alone *)

Lemma dir_prefix_Join dir name :
  dir_prefix name = None → dir_prefix (filepath_Join dir name) = Some dir.
Proof.
  intros Hname. unfold filepath_Join.
  induction dir as [|c d IH].
  - change (dir_prefix (String "/" name) = Some ""). simpl. by rewrite Hname.
  - change (dir_prefix (String c (d +:+ "/" +:+ name)) = Some (String c d)).
    simpl. by rewrite IH.
Qed.

Lemma filepath_Dir_Join dir name :
  dir_prefix name = None →
  filepath_Dir (filepath_Join dir name) = if decide (dir = "") then "/" else dir.
Proof.
  intros Hname. unfold filepath_Dir. rewrite (dir_prefix_Join _ _ Hname).
  by destruct dir.
Qed.

Lemma filepath_Join_length dir name :
  String.length (filepath_Join dir name)
  = S (String.length dir + String.length name).
Proof.
  unfold filepath_Join. induction dir as [|c d IH]; [done|].
  change (String.length (String c (d +:+ "/" +:+ name))
          = S (String.length (String c d) + String.length name)).
  simpl. by rewrite IH.
Qed.

Lemma filepath_Join_inj dir name name' :
  filepath_Join dir name = filepath_Join dir name' → name = name'.
Proof.
  unfold filepath_Join. induction dir as [|c d IH].
  - by intros [=].
  - intros [=]. by apply IH.
Qed.

Lemma ShortcutsPath_Dir user :
  filepath_Dir (ShortcutsPath user) ≠ ShortcutsPath user.
Proof.
  unfold ShortcutsPath. rewrite filepath_Dir_Join by done.
  intros Heq. apply (f_equal String.length) in Heq.
  rewrite filepath_Join_length in Heq.
  destruct (decide _); simpl in Heq; lia.
Qed.

Lemma LocalConfigPath_other user :
  LocalConfigPath user ≠ ShortcutsPath user
  ∧ LocalConfigPath user ≠ filepath_Dir (ShortcutsPath user).
Proof.
  unfold LocalConfigPath, ShortcutsPath. split.
  - by intros ?%filepath_Join_inj.
  - rewrite filepath_Dir_Join by done.
    intros Heq. apply (f_equal String.length) in Heq.
    rewrite filepath_Join_length in Heq.
    destruct (decide _); simpl in Heq; lia.
Qed.

Section frame.
Context `{codec : Codec}.

Lemma WriteShortcuts_frame it (fs fs' : filesystem) path S r q :
  WriteShortcuts it fs path S = (r, fs') →
  q ≠ path → q ≠ filepath_Dir path → fs' !! q = fs !! q.
Proof.
  unfold WriteShortcuts, os_MkdirAll, os_WriteFile. intros Hw Hq Hd.
  destruct (WriteBinary _); [|by simplify_eq].
  destruct (fs !! filepath_Dir path) as [[]|] eqn:Hdir; simplify_eq/=;
    [done|..];
    (destruct (_ !! path) as [[]|]; simplify_eq/=;
     rewrite ?lookup_insert_ne by done; done).
Qed.

Lemma AddShortcut_frame it user shortcut (fs : filesystem) rng r q :
  AddShortcut it user shortcut fs rng = Some r →
  q ≠ ShortcutsPath user → q ≠ filepath_Dir (ShortcutsPath user) →
  add_fs r !! q = fs !! q.
Proof.
  unfold AddShortcut. intros Hadd Hq Hd.
  destruct (ReadShortcuts _ _ _) as [l|]; [|by simplify_eq/=].
  destruct (find _ _); [by simplify_eq/=|].
  destruct (if AppID shortcut =? 0 then _ else _) as [[[id|] rng']|];
    simplify_eq/=; [|done].
  destruct (WriteShortcuts _ _ _ _) as [[[]|] fs'] eqn:Hw; simplify_eq/=;
    by eapply WriteShortcuts_frame.
Qed.

Lemma UpdateShortcut_frame it user shortcut (fs : filesystem) q :
  q ≠ ShortcutsPath user → q ≠ filepath_Dir (ShortcutsPath user) →
  (UpdateShortcut it user shortcut fs).2 !! q = fs !! q.
Proof.
  unfold UpdateShortcut. intros Hq Hd.
  destruct (ReadShortcuts _ _ _) as [l|]; [|done].
  destruct (list_find _ _) as [[i ?]|]; [|done].
  destruct (WriteShortcuts _ _ _ _) as [? fs'] eqn:Hw.
  by eapply WriteShortcuts_frame.
Qed.

Lemma RemoveShortcut_frame it user appID (fs : filesystem) q :
  q ≠ ShortcutsPath user → q ≠ filepath_Dir (ShortcutsPath user) →
  (RemoveShortcut it user appID fs).2 !! q = fs !! q.
Proof.
  unfold RemoveShortcut. intros Hq Hd.
  destruct (ReadShortcuts _ _ _) as [l|]; [|done].
  destruct (WriteShortcuts _ _ _ _) as [? fs'] eqn:Hw.
  by eapply WriteShortcuts_frame.
Qed.

Lemma WriteShortcuts_keeps_files it (fs fs' : filesystem) path S r q data :
  WriteShortcuts it fs path S = (r, fs') →
  q ≠ path → fs !! q = Some (File data) → fs' !! q = Some (File data).
Proof.
  unfold WriteShortcuts, os_MkdirAll, os_WriteFile. intros Hw Hq Hfile.
  destruct (WriteBinary _); [|by simplify_eq].
  assert (fs !! filepath_Dir path ≠ Some (File data) → q ≠ filepath_Dir path)
    as Hd by (intros ? ->; done).
  destruct (fs !! filepath_Dir path) as [[]|] eqn:Hdir; simplify_eq/=;
    [done|..];
    (destruct (_ !! path) as [[]|]; simplify_eq/=;
     rewrite ?lookup_insert_ne by (by apply not_eq_sym; auto); done).
Qed.

Lemma AddShortcut_keeps_files it user shortcut (fs : filesystem) rng r q data :
  AddShortcut it user shortcut fs rng = Some r →
  q ≠ ShortcutsPath user → fs !! q = Some (File data) →
  add_fs r !! q = Some (File data).
Proof.
  unfold AddShortcut. intros Hadd Hq Hfile.
  destruct (ReadShortcuts _ _ _) as [l|]; [|by simplify_eq/=].
  destruct (find _ _); [by simplify_eq/=|].
  destruct (if AppID shortcut =? 0 then _ else _) as [[[id|] rng']|];
    simplify_eq/=; [|done].
  destruct (WriteShortcuts _ _ _ _) as [[[]|] fs'] eqn:Hw; simplify_eq/=;
    by eapply WriteShortcuts_keeps_files.
Qed.

End frame.

(** Property X10.  [AddShortcut], [UpdateShortcut], [RemoveShortcut] and
    [WriteShortcuts] leave every regular file other than the user's
    shortcuts file as it was, whether they succeed or fail. *)
Theorem shortcut_operations_keep_files `{codec : Codec} (it : MapIter) (user : User)
    (shortcut : Shortcut) (appID : Z) (fs : filesystem)
    (rng : list rand_outcome) (q : string) (data : list byte) :
  q ≠ ShortcutsPath user →
  fs !! q = Some (File data) →
  (∀ r, AddShortcut it user shortcut fs rng = Some r →
        add_fs r !! q = Some (File data))
  ∧ (UpdateShortcut it user shortcut fs).2 !! q = Some (File data)
  ∧ (RemoveShortcut it user appID fs).2 !! q = Some (File data)
  ∧ ∀ S, (WriteShortcuts it fs (ShortcutsPath user) S).2 !! q
         = Some (File data).
Proof.
  intros Hq Hfile. split_and!.
  - intros r Hadd. by eapply AddShortcut_keeps_files.
  - unfold UpdateShortcut.
    destruct (ReadShortcuts _ _ _) as [l|]; [|done].
    destruct (list_find _ _) as [[i ?]|]; [|done].
    destruct (WriteShortcuts _ _ _ _) as [? fs'] eqn:Hw.
    by eapply WriteShortcuts_keeps_files.
  - unfold RemoveShortcut.
    destruct (ReadShortcuts _ _ _) as [l|]; [|done].
    destruct (WriteShortcuts _ _ _ _) as [? fs'] eqn:Hw.
    by eapply WriteShortcuts_keeps_files.
  - intros S. destruct (WriteShortcuts _ _ _ _) as [? fs'] eqn:Hw.
    by eapply WriteShortcuts_keeps_files.
Qed.

Lemma shortcut_operations_keep_files_witness :
  "/cfg/localconfig.vdf" ≠ ShortcutsPath user0
  ∧ notes_disk !! "/cfg/localconfig.vdf" = Some (File [x41])
  ∧ (∀ r, AddShortcut iter_fwd user0 gameA notes_disk [RandInt 1] = Some r →
          add_fs r !! "/cfg/localconfig.vdf" = Some (File [x41]))
  ∧ (UpdateShortcut iter_fwd user0 game2_renamed notes_disk).2
      !! "/cfg/localconfig.vdf" = Some (File [x41])
  ∧ (RemoveShortcut iter_fwd user0 0xFF000002 notes_disk).2
      !! "/cfg/localconfig.vdf" = Some (File [x41])
  ∧ ∀ S, (WriteShortcuts iter_fwd notes_disk (ShortcutsPath user0) S).2
           !! "/cfg/localconfig.vdf" = Some (File [x41]).
Proof.
  assert ("/cfg/localconfig.vdf" ≠ ShortcutsPath user0) as H1 by by_eval.
  assert (notes_disk !! "/cfg/localconfig.vdf" = Some (File [x41])) as H2
    by (vm_compute; reflexivity).
  split; [exact H1|]. split; [exact H2|].
  exact (shortcut_operations_keep_files iter_fwd user0 gameA 0xFF000002
           notes_disk [RandInt 1] "/cfg/localconfig.vdf" [x41] H1 H2).
Defined.

(** Property X11.  The two files of a user, shortcuts.vdf and
    localconfig.vdf, are different paths of one directory, and no
    operation on the shortcuts changes what is at [LocalConfigPath]. *)
Theorem LocalConfigPath_untouched `{codec : Codec} (it : MapIter) (user : User)
    (shortcut : Shortcut) (appID : Z) (fs : filesystem)
    (rng : list rand_outcome) :
  LocalConfigPath user ≠ ShortcutsPath user
  ∧ filepath_Dir (LocalConfigPath user) = filepath_Dir (ShortcutsPath user)
  ∧ (∀ r, AddShortcut it user shortcut fs rng = Some r →
          add_fs r !! LocalConfigPath user = fs !! LocalConfigPath user)
  ∧ (UpdateShortcut it user shortcut fs).2 !! LocalConfigPath user
    = fs !! LocalConfigPath user
  ∧ (RemoveShortcut it user appID fs).2 !! LocalConfigPath user
    = fs !! LocalConfigPath user.
Proof.
  destruct (LocalConfigPath_other user) as [Hq Hd]. split_and!.
  - done.
  - unfold LocalConfigPath, ShortcutsPath. by rewrite !filepath_Dir_Join.
  - intros r Hadd. by eapply AddShortcut_frame.
  - by apply UpdateShortcut_frame.
  - by apply RemoveShortcut_frame.
Qed.


(** ** Given AppIDs and failures *)



Section failures.
Context `{codec : Codec}.



End failures.

(** Property X13.  With an AppID given (not 0), [AddShortcut] returns
    without a call of the random source, whatever the collection holds;
    when it reports a new entry, the AppID returned is the given one and
    the caller's shortcut is unchanged. *)
Theorem AddShortcut_given_AppID `{codec : Codec} (it : MapIter) (user : User)
    (shortcut : Shortcut) (fs : filesystem) (rng : list rand_outcome) :
  AppID shortcut ≠ 0 →
  ∃ r, AddShortcut it user shortcut fs rng = Some r
       ∧ add_rng r = rng
       ∧ ∀ id, add_ret r = Ok (id, true) →
               id = AppID shortcut ∧ add_shortcut r = shortcut.
Proof.
  intros Hnz. unfold AddShortcut.
  destruct (ReadShortcuts _ _ _) as [l|]; [|by eexists].
  destruct (find _ _); [by eexists|].
  apply Z.eqb_neq in Hnz. rewrite Hnz. simpl.
  rewrite set_AppID_id.
  destruct (WriteShortcuts _ _ _ _) as [[[]|] fs']; eexists;
    (split; [done|]); (split; [done|]); simpl; [|done].
  by intros id [= <-].
Qed.

Lemma AddShortcut_given_AppID_witness :
  AppID game1 ≠ 0
  ∧ ∃ r, AddShortcut iter_fwd user0 game1 (disk_of [game2]) [] = Some r
         ∧ add_rng r = []
         ∧ ∀ id, add_ret r = Ok (id, true) →
                 id = AppID game1 ∧ add_shortcut r = game1.
Proof.
  assert (AppID game1 ≠ 0) as H1 by by_eval.
  split; [exact H1|].
  exact (AddShortcut_given_AppID iter_fwd user0 game1 (disk_of [game2]) [] H1).
Defined.



(** ** NewShortcut and the installer *)

Lemma nul_free_app s1 s2 :
  nul_free s1 → nul_free s2 → nul_free (s1 +:+ s2).
Proof.
  intros H1 H2. induction s1 as [|c s1 IH]; [done|].
  apply nul_free_String in H1 as [Hc H1].
  change (nul_free (String c (s1 +:+ s2))).
  apply nul_free_String. split; [done|]. by apply IH.
Qed.

Lemma dir_prefix_nul_free p d :
  dir_prefix p = Some d → nul_free p → nul_free d.
Proof.
  revert d. induction p as [|c p IH]; intros d; simpl; [done|].
  intros Hd [Hc Hp]%nul_free_String.
  destruct (dir_prefix p) as [d'|].
  - simplify_eq. apply nul_free_String. split; [done|]. by apply IH.
  - destruct (Ascii.eqb c "/"); simplify_eq. apply nul_free_empty.
Qed.

Lemma filepath_Dir_nul_free p : nul_free p → nul_free (filepath_Dir p).
Proof.
  intros Hp. unfold filepath_Dir.
  destruct (dir_prefix p) as [d|] eqn:Hd; [|by_eval].
  apply dir_prefix_nul_free in Hd; [|done].
  destruct d; [by_eval|done].
Qed.

Lemma NewShortcut_wf appName exePath :
  nul_free appName → nul_free exePath →
  shortcut_wf (NewShortcut appName exePath).
Proof.
  intros Hn He. unfold shortcut_wf, NewShortcut. simpl.
  assert (nul_free dquote) as Hq by by_eval.
  split_and!; try done; try apply nul_free_empty; try (unfold is_uint32, uint32_max; lia).
  - by repeat apply nul_free_app.
  - repeat apply nul_free_app; try done. by apply filepath_Dir_nul_free.
Qed.

(** Property X15.  A shortcut made by [NewShortcut] from a name and a path
    without NUL bytes is valid, and a file written with it alone reads back
    as exactly that shortcut: the quoted paths and the defaults survive. *)
Theorem NewShortcut_survives_write `{codec : Codec} `{!CodecLaws codec} (it it' : MapIter) (fs fs' : filesystem)
    (path appName exePath : string) :
  nul_free appName → nul_free exePath →
  WriteShortcuts it fs path [NewShortcut appName exePath] = (Ok (), fs') →
  shortcut_wf (NewShortcut appName exePath)
  ∧ ReadShortcuts it' fs' path = Ok [NewShortcut appName exePath].
Proof.
  intros Hn He Hw.
  pose proof (NewShortcut_wf _ _ Hn He) as Hwf. split; [done|].
  eapply ReadShortcuts_WriteShortcuts in Hw; [|by apply Forall_singleton].
  destruct (Hw it') as (l & -> & Hperm).
  by apply Permutation_singleton_r in Hperm as ->.
Qed.

Lemma NewShortcut_survives_write_witness :
  nul_free "Game A" ∧ nul_free "/a/a.exe"
  ∧ WriteShortcuts iter_fwd ∅ path0 [NewShortcut "Game A" "/a/a.exe"]
    = (Ok (), disk_of [gameA])
  ∧ shortcut_wf (NewShortcut "Game A" "/a/a.exe")
  ∧ ReadShortcuts iter_rev (disk_of [gameA]) path0
    = Ok [NewShortcut "Game A" "/a/a.exe"].
Proof.
  assert (nul_free "Game A") as H1 by by_eval.
  assert (nul_free "/a/a.exe") as H2 by by_eval.
  assert (WriteShortcuts iter_fwd ∅ path0 [NewShortcut "Game A" "/a/a.exe"]
          = (Ok (), disk_of [gameA])) as H3 by (vm_compute; reflexivity).
  split; [exact H1|]. split; [exact H2|]. split; [exact H3|].
  exact (NewShortcut_survives_write iter_fwd iter_rev ∅ (disk_of [gameA])
           path0 "Game A" "/a/a.exe" H1 H2 H3).
Defined.

(** Property X16.  Once the installer's step has added the game as a new
    shortcut, running the step again, with any path of the executable, any
    iteration order and any random source, adds nothing: it returns the
    same AppID, reports the entry as existing and leaves the file system
    as it is. *)
Theorem runInstall_AddShortcut_again `{codec : Codec} `{!CodecLaws codec} (it it' : MapIter) (user : User)
    (exePath exePath' : string) (fs : filesystem)
    (rng rng' : list rand_outcome) (r : AddResult) (id : Z) :
  nul_free exePath →
  runInstall_AddShortcut it user exePath fs rng = Some r →
  add_ret r = Ok (id, true) →
  runInstall_AddShortcut it' user exePath' (add_fs r) rng'
  = Some {| add_ret := Ok (id, false);
            add_shortcut := NewShortcut gameName exePath';
            add_fs := add_fs r; add_rng := rng' |}.
Proof.
  unfold runInstall_AddShortcut. intros He Hadd Hret.
  assert (shortcut_wf (NewShortcut gameName exePath)) as Hwf.
  { apply NewShortcut_wf; [by_eval|done]. }
  destruct (AddShortcut_new_inv _ _ _ _ _ _ _ Hadd Hret)
    as (shortcuts & Hread & _).
  destruct (AddShortcut_new_wf _ _ _ _ _ _ _ _ Hwf Hadd Hret Hread)
    as (_ & Hholds & Hnone & _).
  destruct (Hholds it') as (l & Hl & Hperm).
  eapply (AddShortcut_existing it' user _ _ rng' l
            (set_AppID id (NewShortcut gameName exePath))) in Hl as ->;
    [done|].
  by eapply find_name_unique_perm.
Qed.

Lemma runInstall_AddShortcut_again_witness :
  ∃ r, nul_free "/games/zelda/Link.exe"
       ∧ runInstall_AddShortcut iter_fwd user0 "/games/zelda/Link.exe"
           (disk_of [game2]) [RandInt 7] = Some r
       ∧ add_ret r = Ok (0xFF000007, true)
       ∧ runInstall_AddShortcut iter_rev user0 "/moved/Link.exe" (add_fs r) []
         = Some {| add_ret := Ok (0xFF000007, false);
                   add_shortcut := NewShortcut gameName "/moved/Link.exe";
                   add_fs := add_fs r; add_rng := [] |}.
Proof.
  eexists. split; [by_eval|]. split; [vm_compute; reflexivity|].
  split; [reflexivity|].
  refine (runInstall_AddShortcut_again iter_fwd iter_rev user0
            "/games/zelda/Link.exe" "/moved/Link.exe" (disk_of [game2])
            [RandInt 7] [] _ 0xFF000007 _ _ _).
  - by_eval.
  - vm_compute; reflexivity.
  - reflexivity.
Defined.

(** ** Users *)

(** Property X17.  [DisplayName] is never empty.  With a persona name and
    no account name it is the persona name followed by empty
    parentheses. *)
Theorem DisplayName_nonempty (u : User) :
  (0 < String.length (DisplayName u))%nat
  ∧ (PersonaName u ≠ "" → AccountName u = "" →
     DisplayName u = PersonaName u +:+ " ()").
Proof.
  unfold DisplayName. split.
  - destruct (decide (PersonaName u ≠ "")) as [Hp|_].
    + destruct (PersonaName u); [done|]. simpl. lia.
    + destruct (decide (AccountName u ≠ "")) as [Ha|_].
      * destruct (AccountName u); [done|]. simpl. lia.
      * simpl. lia.
  - intros Hp Ha. rewrite Ha. by destruct (decide _).
Qed.

Lemma ParseUint_digits_range n s m :
  ParseUint_digits n s = Some m → 0 <= n <= maxUint64 → 0 <= m <= maxUint64.
Proof.
  revert n. induction s as [|c s IH]; intros n; simpl.
  - intros [= <-]. done.
  - unfold digit_of. destruct (decide (48 <= _ <= 57)); [|done].
    destruct (decide (_ <= n)); [done|].
    destruct (decide (maxUint64 < _)); [done|].
    intros Hm Hn. apply (IH _ Hm). lia.
Qed.

Lemma ParseUint_range s n : ParseUint s = Some n → 0 <= n <= maxUint64.
Proof.
  unfold ParseUint. destruct (decide _); [done|].
  intros Hn. apply (ParseUint_digits_range _ _ _ Hn). unfold maxUint64. lia.
Qed.

Lemma steam3ID_range n : 0 <= steam3ID n <= maxUint64.
Proof.
  unfold steam3ID, uint64, maxUint64.
  pose proof (Z.mod_pos_bound (n - 76561197960265728) 18446744073709551616).
  lia.
Qed.

Lemma steam3ID_inj n m :
  0 <= n <= maxUint64 → 0 <= m <= maxUint64 →
  steam3ID n = steam3ID m → n = m.
Proof.
  unfold steam3ID, uint64, maxUint64. intros Hn Hm Heq.
  pose proof (Z.div_mod (n - 76561197960265728) 18446744073709551616).
  pose proof (Z.div_mod (m - 76561197960265728) 18446744073709551616).
  pose proof (Z.mod_pos_bound (n - 76561197960265728) 18446744073709551616).
  pose proof (Z.mod_pos_bound (m - 76561197960265728) 18446744073709551616).
  nia.
Qed.

Lemma FormatUint_steam3ID_inj n m :
  0 <= n <= maxUint64 → 0 <= m <= maxUint64 →
  FormatUint (steam3ID n) = FormatUint (steam3ID m) → n = m.
Proof.
  intros Hn Hm Heq. unfold FormatUint in Heq.
  apply (inj pretty) in Heq. by apply steam3ID_inj.
Qed.

Lemma getLoginUsers_entries (cs : list DocNode) (acc : gmap string loginUserInfo) :
  let result :=
    foldl (λ result child,
             if negb (IsObject child) then result
             else
               match ParseUint (Key child) with
               | None => result
               | Some steamID64 =>
                   let info :=
                     {| loginAccountName := GetString child "AccountName";
                        loginPersonaName := GetString child "PersonaName" |} in
                   <[FormatUint (steam3ID steamID64) := info]> result
               end) acc cs in
  (∀ c n, c ∈ cs → IsObject c = true → ParseUint (Key c) = Some n →
     ∃ c', c' ∈ cs ∧ IsObject c' = true ∧ ParseUint (Key c') = Some n
           ∧ result !! FormatUint (steam3ID n)
             = Some {| loginAccountName := GetString c' "AccountName";
                       loginPersonaName := GetString c' "PersonaName" |})
  ∧ (∀ k info, result !! k = Some info →
       acc !! k = Some info
       ∨ ∃ c n, c ∈ cs ∧ IsObject c = true ∧ ParseUint (Key c) = Some n
                ∧ k = FormatUint (steam3ID n)
                ∧ info = {| loginAccountName := GetString c "AccountName";
                            loginPersonaName := GetString c "PersonaName" |}).
Proof.
  induction cs as [|x cs IH] using rev_ind; simpl.
  { split; [by intros ?? ?%elem_of_nil|]. intros k info Hk. by left. }
  rewrite foldl_app. simpl. destruct IH as [IH1 IH2].
  destruct (IsObject x) eqn:Hobj; simpl.
  2:{ split.
      - intros c n [Hin|Hin%list_elem_of_singleton]%elem_of_app Hc Hn;
          [|congruence].
        destruct (IH1 c n Hin Hc Hn) as (c' & ? & ? & ? & ?).
        exists c'. split_and!; [apply elem_of_app; by left|done..].
      - intros k info Hk. destruct (IH2 k info Hk) as [?|(c & n & ? & ?)];
          [by left|].
        right. exists c, n. split; [apply elem_of_app; by left|done]. }
  destruct (ParseUint (Key x)) as [m|] eqn:Hm.
  2:{ split.
      - intros c n [Hin|Hin%list_elem_of_singleton]%elem_of_app Hc Hn;
          [|congruence].
        destruct (IH1 c n Hin Hc Hn) as (c' & ? & ? & ? & ?).
        exists c'. split_and!; [apply elem_of_app; by left|done..].
      - intros k info Hk. destruct (IH2 k info Hk) as [?|(c & n & ? & ?)];
          [by left|].
        right. exists c, n. split; [apply elem_of_app; by left|done]. }
  split.
  - intros c n Hin Hc Hn.
    destruct (decide (n = m)) as [->|Hne].
    { exists x. split_and!; [|done..|by rewrite lookup_insert_eq].
      apply elem_of_app. right. by apply list_elem_of_singleton. }
    rewrite lookup_insert_ne.
    2:{ intros Heq. apply FormatUint_steam3ID_inj in Heq;
          [done|by eapply ParseUint_range..]. }
    apply elem_of_app in Hin as [Hin|Hin%list_elem_of_singleton];
      [|congruence].
    destruct (IH1 c n Hin Hc Hn) as (c' & ? & ? & ? & ?).
    exists c'. split_and!; [apply elem_of_app; by left|done..].
  - intros k info Hk.
    destruct (decide (k = FormatUint (steam3ID m))) as [->|Hne].
    + rewrite lookup_insert_eq in Hk. injection Hk as <-.
      right. exists x, m. split_and!; [|done..].
      apply elem_of_app. right. by apply list_elem_of_singleton.
    + rewrite lookup_insert_ne in Hk by done.
      destruct (IH2 k info Hk) as [?|(c & n & ? & ?)]; [by left|].
      right. exists c, n. split; [apply elem_of_app; by left|done].
Qed.

(** Property X18.  [getLoginUsers] keeps, for every object child of the
    users node whose key is a decimal [uint64], an entry under the decimal
    string of that number minus 76561197960265728 on [uint64]; the entry
    comes from a child with the same number, so accounts with different
    SteamID64s never overwrite each other, and the map holds nothing else.
    From 76561197960265728 on and below 76561197960265728 + 2^32 the key is
    the lower 32 bits of the SteamID64; below 76561197960265728 the
    subtraction wraps around and the key is not a 32-bit number. *)
Theorem getLoginUsers_keys (users : DocNode) :
  IsObject users = true →
  (∀ c n, c ∈ Children users → IsObject c = true →
     ParseUint (Key c) = Some n →
     ∃ c', c' ∈ Children users ∧ IsObject c' = true
           ∧ ParseUint (Key c') = Some n
           ∧ getLoginUsers (Some users) !! FormatUint (steam3ID n)
             = Some {| loginAccountName := GetString c' "AccountName";
                       loginPersonaName := GetString c' "PersonaName" |})
  ∧ (∀ k info, getLoginUsers (Some users) !! k = Some info →
       ∃ c n, c ∈ Children users ∧ IsObject c = true
              ∧ ParseUint (Key c) = Some n
              ∧ k = FormatUint (steam3ID n)
              ∧ info = {| loginAccountName := GetString c "AccountName";
                          loginPersonaName := GetString c "PersonaName" |})
  ∧ (∀ n, 76561197960265728 <= n < 76561197960265728 + 4294967296 →
          steam3ID n = n mod 4294967296)
  ∧ (∀ n, 0 <= n < 76561197960265728 → 4294967296 <= steam3ID n).
Proof.
  intros Hobj. unfold getLoginUsers. rewrite Hobj. simpl.
  destruct (getLoginUsers_entries (Children users) ∅) as [H1 H2].
  split_and!.
  - exact H1.
  - intros k info Hk. by destruct (H2 k info Hk) as [?|?].
  - intros n Hn. unfold steam3ID, uint64.
    rewrite Z.mod_small by lia.
    replace n with ((n - 76561197960265728) + 17825793 * 4294967296) at 2
      by lia.
    rewrite Z.mod_add by lia. rewrite Z.mod_small; lia.
  - intros n Hn. unfold steam3ID, uint64.
    replace (n - 76561197960265728)
      with ((n - 76561197960265728 + 18446744073709551616)
            + (-1) * 18446744073709551616) by lia.
    rewrite Z.mod_add by lia. rewrite Z.mod_small; lia.
Qed.

Lemma getLoginUsers_keys_witness :
  IsObject loginusers0 = true
  ∧ link_node ∈ Children loginusers0
  ∧ ParseUint (Key link_node) = Some 76561197960278073
  ∧ getLoginUsers (Some loginusers0) !! "12345"
    = Some {| loginAccountName := "link"; loginPersonaName := "Link" |}
  ∧ ∃ c', c' ∈ Children loginusers0 ∧ IsObject c' = true
          ∧ ParseUint (Key c') = Some 76561197960278073
          ∧ getLoginUsers (Some loginusers0)
              !! FormatUint (steam3ID 76561197960278073)
            = Some {| loginAccountName := GetString c' "AccountName";
                      loginPersonaName := GetString c' "PersonaName" |}.
Proof.
  assert (link_node ∈ Children loginusers0) as Hin by (simpl; by left).
  assert (ParseUint (Key link_node) = Some 76561197960278073) as Hp
    by (vm_compute; reflexivity).
  split; [reflexivity|]. split; [exact Hin|]. split; [exact Hp|].
  split; [vm_compute; reflexivity|].
  exact (proj1 (getLoginUsers_keys loginusers0 eq_refl)
           link_node 76561197960278073 Hin eq_refl Hp).
Defined.

Lemma GetUsers_loop (s : Steam) (names : gmap string loginUserInfo)
    (fs : filesystem) (entries : list DirEntry) (acc : list User) (u : User) :
  u ∈ foldl (λ users entry,
               if negb (IsDir entry) then users
               else
                 let id := Name entry in
                 if String.eqb id "0" then users
                 else
                   match ParseUint id with
                   | None => users
                   | Some _ =>
                       let configPath :=
                         filepath_Join (filepath_Join (UserDataPath s) id)
                           "config" in
                       if negb (stat_IsDir fs configPath) then users
                       else
                         let user :=
                           match names !! id with
                           | Some info =>
                               {| ID := id;
                                  AccountName := loginAccountName info;
                                  PersonaName := loginPersonaName info;
                                  ConfigPath := configPath |}
                           | None =>
                               {| ID := id; AccountName := "";
                                  PersonaName := ""; ConfigPath := configPath |}
                           end in
                         users ++ [user]
                   end)
        acc entries
  ↔ u ∈ acc
    ∨ ∃ e, e ∈ entries ∧ IsDir e = true ∧ Name e ≠ "0"
           ∧ is_Some (ParseUint (Name e))
           ∧ ID u = Name e
           ∧ ConfigPath u
             = filepath_Join (filepath_Join (UserDataPath s) (Name e)) "config"
           ∧ fs !! ConfigPath u = Some Directory
           ∧ AccountName u = from_option loginAccountName "" (names !! Name e)
           ∧ PersonaName u = from_option loginPersonaName "" (names !! Name e).
Proof.
  revert acc. induction entries as [|e entries IH]; intros acc; simpl.
  { split; [by left|]. intros [?|(e & ?%elem_of_nil & _)]; done. }
  rewrite IH. clear IH.
  assert (∀ P : DirEntry → Prop, ¬ P e →
            ((∃ e', e' ∈ entries ∧ P e') ↔ (∃ e', e' ∈ e :: entries ∧ P e')))
    as Hskip.
  { intros P HP. split.
    - intros (e' & ? & ?). exists e'. split; [by right|done].
    - intros (e' & [ -> |?]%elem_of_cons & ?); [done|]. by exists e'. }
  destruct (IsDir e) eqn:Hdir; simpl.
  2:{ rewrite <-Hskip; [done|]. intros (? & _). congruence. }
  destruct (String.eqb (Name e) "0") eqn:Hzero.
  { apply String.eqb_eq in Hzero. rewrite <-Hskip; [done|].
    by intros (_ & ? & _). }
  apply String.eqb_neq in Hzero.
  destruct (ParseUint (Name e)) as [n|] eqn:Hn.
  2:{ rewrite <-Hskip; [done|]. intros (_ & _ & [? ?] & _). congruence. }
  unfold stat_IsDir.
  destruct (fs !! filepath_Join (filepath_Join (UserDataPath s) (Name e)) "config")
    as [[|]|] eqn:Hcfg; simpl.
  1,3: rewrite <-Hskip; [done|]; intros (_ & _ & _ & _ & Hc & Hd & _);
       rewrite Hc in Hd; congruence.
  rewrite elem_of_app, list_elem_of_singleton. split.
  - intros [[?| ->]|(e' & ? & ?)].
    + by left.
    + right. exists e. split; [by left|].
      destruct (names !! Name e); simpl; split_and!; eauto.
    + right. exists e'. split; [by right|done].
  - intros [?|(e' & [ -> |?]%elem_of_cons & He')].
    + left. by left.
    + left. right. destruct He' as (_ & _ & _ & Hid & Hc & _ & Ha & Hp).
      destruct u as [id a p c]. simpl in *. subst.
      by destruct (names !! Name e).
    + right. by exists e'.
Qed.

Lemma GetUsers_inr (s : Steam) (entries : list DirEntry)
    (loginusers : option DocNode) (fs : filesystem) (users : list User) :
  GetUsers s (Some entries) loginusers fs = inr users →
  (0 < length users)%nat
  ∧ ∀ u, u ∈ users ↔
      ∃ e, e ∈ entries ∧ IsDir e = true ∧ Name e ≠ "0"
           ∧ is_Some (ParseUint (Name e))
           ∧ ID u = Name e
           ∧ ConfigPath u
             = filepath_Join (filepath_Join (UserDataPath s) (Name e)) "config"
           ∧ fs !! ConfigPath u = Some Directory
           ∧ AccountName u
             = from_option loginAccountName ""
                 (getLoginUsers loginusers !! Name e)
           ∧ PersonaName u
             = from_option loginPersonaName ""
                 (getLoginUsers loginusers !! Name e).
Proof.
  unfold GetUsers. cbv zeta.
  pose proof (GetUsers_loop s (getLoginUsers loginusers) fs entries []) as Hloop.
  destruct (decide (length _ = 0%nat)) as [Hlen|Hlen]; [done|].
  intros [= <-]. split; [lia|]. intros u. rewrite Hloop. split.
  - by intros [?%elem_of_nil|?].
  - intros ?. by right.
Qed.

Lemma GetUsers_inl (s : Steam) (entries : list DirEntry)
    (loginusers : option DocNode) (fs : filesystem) (err : users_error) :
  GetUsers s (Some entries) loginusers fs = inl err →
  err = ErrNoUsers
  ∧ ∀ e, e ∈ entries → IsDir e = true → Name e ≠ "0" →
         is_Some (ParseUint (Name e)) →
         fs !! filepath_Join (filepath_Join (UserDataPath s) (Name e)) "config"
         ≠ Some Directory.
Proof.
  unfold GetUsers. cbv zeta.
  pose proof (GetUsers_loop s (getLoginUsers loginusers) fs entries []) as Hloop.
  destruct (decide (length _ = 0%nat)) as [Hlen|Hlen]; [|done].
  intros [= <-]. split; [done|]. intros e Hin Hdir Hz Hp Hcfg.
  apply nil_length_inv in Hlen.
  set (u := {| ID := Name e;
               AccountName := from_option loginAccountName ""
                                (getLoginUsers loginusers !! Name e);
               PersonaName := from_option loginPersonaName ""
                                (getLoginUsers loginusers !! Name e);
               ConfigPath := filepath_Join
                               (filepath_Join (UserDataPath s) (Name e))
                               "config" |}).
  assert (u ∈ @nil User) as Hu; [|by apply elem_of_nil in Hu].
  rewrite <-Hlen. apply Hloop. right. exists e. by split_and!.
Qed.

(** Property X19.  [GetUsers] returns exactly the users of the directory
    entries that are directories, are not named ["0"], have a name
    [ParseUint] accepts, and have a [config] directory; each carries the
    names [getLoginUsers] has under its ID, or empty names.  It fails with
    the no-users error exactly when no entry qualifies, and never returns
    an empty list. *)
Theorem GetUsers_users (s : Steam) (entries : list DirEntry)
    (loginusers : option DocNode) (fs : filesystem) :
  match GetUsers s (Some entries) loginusers fs with
  | inr users =>
      (0 < length users)%nat
      ∧ ∀ u, u ∈ users ↔
          ∃ e, e ∈ entries ∧ IsDir e = true ∧ Name e ≠ "0"
               ∧ is_Some (ParseUint (Name e))
               ∧ ID u = Name e
               ∧ ConfigPath u
                 = filepath_Join (filepath_Join (UserDataPath s) (Name e))
                     "config"
               ∧ fs !! ConfigPath u = Some Directory
               ∧ AccountName u
                 = from_option loginAccountName ""
                     (getLoginUsers loginusers !! Name e)
               ∧ PersonaName u
                 = from_option loginPersonaName ""
                     (getLoginUsers loginusers !! Name e)
  | inl err =>
      err = ErrNoUsers
      ∧ ∀ e, e ∈ entries → IsDir e = true → Name e ≠ "0" →
             is_Some (ParseUint (Name e)) →
             fs !! filepath_Join (filepath_Join (UserDataPath s) (Name e))
                     "config" ≠ Some Directory
  end.
Proof.
  destruct (GetUsers s (Some entries) loginusers fs) as [err|users] eqn:Hg.
  - by eapply GetUsers_inl.
  - by eapply GetUsers_inr.
Qed.

(** Property X20.  A user [GetUserByID] returns has the ID asked for, which
    is a decimal number other than ["0"], and is one of the users
    [GetUsers] returns, with an existing configuration directory. *)
Theorem GetUserByID_found (s : Steam) (entries : option (list DirEntry))
    (loginusers : option DocNode) (fs : filesystem) (id : string) (u : User) :
  GetUserByID s entries loginusers fs id = inr u →
  ID u = id ∧ id ≠ "0" ∧ is_Some (ParseUint id)
  ∧ ConfigPath u = filepath_Join (filepath_Join (UserDataPath s) id) "config"
  ∧ fs !! ConfigPath u = Some Directory
  ∧ ∃ users, GetUsers s entries loginusers fs = inr users ∧ u ∈ users.
Proof.
  unfold GetUserByID.
  destruct (GetUsers s entries loginusers fs) as [err|users] eqn:Hg; [done|].
  destruct (find _ users) as [u'|] eqn:Hfind; [|done]. intros [= ->].
  apply find_some in Hfind as [Hin Hid].
  apply list_elem_of_In in Hin. apply String.eqb_eq in Hid.
  destruct entries as [entries|]; [|done].
  destruct (GetUsers_inr _ _ _ _ _ Hg) as [_ Hu].
  destruct (proj1 (Hu u) Hin) as (e & _ & _ & Hz & Hp & Hide & Hc & Hd & _).
  subst id. rewrite Hide. split_and!; [by rewrite <-Hide|done..|].
  by exists users.
Qed.

Lemma GetUserByID_found_witness :
  GetUserByID steam0 (Some userdata0) (Some loginusers0) userdata_disk "12345"
  = inr link
  ∧ ID link = "12345" ∧ "12345" ≠ "0" ∧ is_Some (ParseUint "12345")
  ∧ ConfigPath link
    = filepath_Join (filepath_Join (UserDataPath steam0) "12345") "config"
  ∧ userdata_disk !! ConfigPath link = Some Directory
  ∧ ∃ users, GetUsers steam0 (Some userdata0) (Some loginusers0) userdata_disk
             = inr users ∧ link ∈ users.
Proof.
  assert (GetUserByID steam0 (Some userdata0) (Some loginusers0) userdata_disk
            "12345" = inr link) as Hg by (vm_compute; reflexivity).
  split; [exact Hg|].
  exact (GetUserByID_found steam0 (Some userdata0) (Some loginusers0)
           userdata_disk "12345" link Hg).
Defined.

(** Property X21.  For a user [GetUsers] returns, the directory of the
    shortcuts file is the user's configuration directory, which exists:
    [os.MkdirAll] in [WriteShortcuts] changes nothing, and [WriteShortcuts]
    never fails with the create-directory error. *)
Theorem GetUsers_config_directory `{codec : Codec} (s : Steam)
    (entries : list DirEntry) (loginusers : option DocNode)
    (fs : filesystem) (users : list User) (u : User) :
  GetUsers s (Some entries) loginusers fs = inr users →
  u ∈ users →
  filepath_Dir (ShortcutsPath u) = ConfigPath u
  ∧ os_MkdirAll fs (filepath_Dir (ShortcutsPath u)) = Some fs
  ∧ ∀ it S e fs', WriteShortcuts it fs (ShortcutsPath u) S = (Err e, fs') →
                  e = ErrWriteVDF ∨ e = ErrWriteFile.
Proof.
  intros Hg Hin.
  destruct (GetUsers_inr _ _ _ _ _ Hg) as [_ Hu].
  destruct (proj1 (Hu u) Hin) as (d & _ & _ & _ & _ & _ & Hc & Hd & _).
  assert (filepath_Dir (ShortcutsPath u) = ConfigPath u) as Hdir.
  { unfold ShortcutsPath. rewrite filepath_Dir_Join by done.
    destruct (decide _) as [Heq|]; [|done].
    rewrite Hc in Heq. apply (f_equal String.length) in Heq.
    rewrite filepath_Join_length in Heq. done. }
  assert (os_MkdirAll fs (filepath_Dir (ShortcutsPath u)) = Some fs) as Hmk.
  { unfold os_MkdirAll. rewrite Hdir, Hd. f_equal. by apply insert_id. }
  split_and!; [done..|]. intros it S e fs'.
  unfold WriteShortcuts. rewrite Hmk.
  destruct (WriteBinary _); [|intros [= <- _]; by left].
  destruct (os_WriteFile _ _ _); [done|intros [= <- _]; by right].
Qed.

Lemma GetUsers_config_directory_witness :
  GetUsers steam0 (Some userdata0) (Some loginusers0) userdata_disk
  = inr [link]
  ∧ link ∈ [link]
  ∧ filepath_Dir (ShortcutsPath link) = ConfigPath link
  ∧ os_MkdirAll userdata_disk (filepath_Dir (ShortcutsPath link))
    = Some userdata_disk
  ∧ ∀ it S e fs',
      WriteShortcuts it userdata_disk (ShortcutsPath link) S = (Err e, fs') →
      e = ErrWriteVDF ∨ e = ErrWriteFile.
Proof.
  assert (GetUsers steam0 (Some userdata0) (Some loginusers0) userdata_disk
          = inr [link]) as H1 by (vm_compute; reflexivity).
  assert (link ∈ [link]) as H2 by by left.
  split; [exact H1|]. split; [exact H2|].
  exact (GetUsers_config_directory steam0 userdata0 (Some loginusers0)
           userdata_disk [link] link H1 H2).
Defined.

(** ** Proton versions *)

Lemma GetProtonVersions_loop (entries : list DirEntry) (acc : list string) :
  foldl (λ versions entry,
           if negb (IsDir entry) then versions
           else
             let name := Name entry in
             if HasPrefix name "Proton" || HasPrefix name "GE-Proton"
             then versions ++ [name]
             else versions)
    acc entries
  = acc ++ (Name <$> filter (λ e, IsDir e
                                  ∧ (HasPrefix (Name e) "Proton"
                                     ∨ HasPrefix (Name e) "GE-Proton"))
                       entries).
Proof.
  revert acc. induction entries as [|e entries IH]; intros acc.
  { simpl. by rewrite app_nil_r. }
  cbn [foldl]. rewrite IH. destruct (IsDir e) eqn:Hd; cbn [negb].
  2:{ rewrite filter_cons_False; [done|]. rewrite Hd. by intros []. }
  destruct (HasPrefix (Name e) "Proton") eqn:H1; cbn [orb].
  { rewrite filter_cons_True by (rewrite Hd, H1; simpl; auto).
    by rewrite fmap_cons, <-app_assoc. }
  destruct (HasPrefix (Name e) "GE-Proton") eqn:H2.
  { rewrite filter_cons_True by (rewrite Hd, H2; simpl; auto).
    by rewrite fmap_cons, <-app_assoc. }
  rewrite filter_cons_False; [done|]. rewrite H1, H2. by intros [_ []].
Qed.

Lemma classify_loop (versions : list string) (b : buckets) :
  foldl classify b versions
  = {| experimental :=
         experimental b ++ filter (λ v, Contains v "Experimental") versions;
       ge :=
         ge b ++ filter (λ v, ¬ Contains v "Experimental"
                              ∧ HasPrefix v "GE-Proton") versions;
       regular :=
         regular b ++ filter (λ v, ¬ Contains v "Experimental"
                                   ∧ ¬ HasPrefix v "GE-Proton"
                                   ∧ HasPrefix v "Proton") versions;
       other :=
         other b ++ filter (λ v, ¬ Contains v "Experimental"
                                 ∧ ¬ HasPrefix v "GE-Proton"
                                 ∧ ¬ HasPrefix v "Proton") versions |}.
Proof.
  revert b. induction versions as [|v versions IH]; intros b.
  { simpl. rewrite !filter_nil, !app_nil_r. by destruct b. }
  cbn [foldl]. rewrite IH. unfold classify.
  destruct (Contains v "Experimental") eqn:H1.
  { rewrite filter_cons_True by by rewrite H1.
    rewrite !filter_cons_False by (rewrite H1; by intros [? _]).
    cbn [experimental ge regular other]. by rewrite <-app_assoc. }
  rewrite (filter_cons_False (λ v, Is_true (Contains v "Experimental")))
    by (rewrite H1; by intros []).
  destruct (HasPrefix v "GE-Proton") eqn:H2.
  { rewrite filter_cons_True by (rewrite H1, H2; split; [by intros ?|done]).
    rewrite !filter_cons_False by (rewrite H2; by intros (_ & ? & _)).
    cbn [experimental ge regular other]. by rewrite <-app_assoc. }
  rewrite (filter_cons_False (λ v, ¬ Contains v "Experimental"
                                   ∧ HasPrefix v "GE-Proton"))
    by (rewrite H2; by intros [_ ?]).
  destruct (HasPrefix v "Proton") eqn:H3.
  { rewrite filter_cons_True
      by (rewrite H1, H2, H3; split_and!; by try intros ?).
    rewrite filter_cons_False by (rewrite H3; by intros (_ & _ & ?)).
    cbn [experimental ge regular other]. by rewrite <-app_assoc. }
  rewrite filter_cons_False by (rewrite H3; by intros (_ & _ & ?)).
  rewrite filter_cons_True by (rewrite H1, H2, H3; split_and!; by intros ?).
  cbn [experimental ge regular other]. by rewrite <-app_assoc.
Qed.

Lemma filter_ext_Forall {A} (P Q : A → Prop) `{∀ x, Decision (P x)}
    `{∀ x, Decision (Q x)} (l : list A) :
  Forall (λ x, P x ↔ Q x) l → filter P l = filter Q l.
Proof.
  induction 1 as [|x l Hx _ IH]; [done|].
  rewrite !filter_cons, IH.
  destruct (decide (P x)), (decide (Q x)); tauto.
Qed.

Lemma filter_none_Forall {A} (P : A → Prop) `{∀ x, Decision (P x)}
    (l : list A) :
  Forall (λ x, ¬ P x) l → filter P l = [].
Proof.
  induction 1 as [|x l Hx _ IH]; [done|]. by rewrite filter_cons_False.
Qed.

(** Property X22.  [GetAvailableProtonVersions] returns the versions
    [GetProtonVersions] found, none lost and none twice: first those whose
    name contains ["Experimental"], then the other GE-Proton ones, then the
    rest, each group in directory order.  Every version starts with
    ["Proton"] or ["GE-Proton"], so the fourth bucket stays empty. *)
Theorem GetAvailableProtonVersions_sorted (entries : list DirEntry) :
  ∃ versions sorted,
    GetProtonVersions (Some entries) = Some versions
    ∧ GetAvailableProtonVersions (Some entries) = Some sorted
    ∧ Forall (λ v, HasPrefix v "Proton" ∨ HasPrefix v "GE-Proton") versions
    ∧ sorted ≡ₚ versions
    ∧ sorted
      = filter (λ v, Contains v "Experimental") versions
        ++ filter (λ v, ¬ Contains v "Experimental"
                        ∧ HasPrefix v "GE-Proton") versions
        ++ filter (λ v, ¬ Contains v "Experimental"
                        ∧ ¬ HasPrefix v "GE-Proton") versions.
Proof.
  unfold GetAvailableProtonVersions, GetProtonVersions.
  rewrite GetProtonVersions_loop, app_nil_l.
  set (versions := Name <$> filter _ entries).
  assert (Forall (λ v, HasPrefix v "Proton" ∨ HasPrefix v "GE-Proton")
            versions) as Hall.
  { apply Forall_fmap, Forall_forall. intros e [[_ He] _]%list_elem_of_filter.
    exact He. }
  assert (filter (λ v, Contains v "Experimental") versions
          ++ filter (λ v, ¬ Contains v "Experimental"
                          ∧ HasPrefix v "GE-Proton") versions
          ++ filter (λ v, ¬ Contains v "Experimental"
                          ∧ ¬ HasPrefix v "GE-Proton") versions
          ≡ₚ versions) as Hperm.
  { rewrite <-(filter_app_complement (λ v, Is_true (Contains v "Experimental"))
                versions) at 4.
    f_equiv.
    rewrite <-(filter_app_complement (λ v, Is_true (HasPrefix v "GE-Proton"))
                (filter (λ v, ¬ Contains v "Experimental") versions)).
    rewrite !list_filter_filter. f_equiv.
    - erewrite list_filter_iff; [done|]. intros v; simpl. tauto.
    - erewrite list_filter_iff; [done|]. intros v; simpl. tauto. }
  exists versions. eexists. split; [done|]. split; [done|].
  split; [done|]. rewrite classify_loop. cbn [experimental ge regular other].
  rewrite !app_nil_l.
  rewrite (filter_none_Forall (λ v, ¬ Contains v "Experimental"
                                    ∧ ¬ HasPrefix v "GE-Proton"
                                    ∧ ¬ HasPrefix v "Proton")), app_nil_r.
  2:{ eapply Forall_impl; [exact Hall|]. simpl. tauto. }
  rewrite (filter_ext_Forall
             (λ v, ¬ Contains v "Experimental" ∧ ¬ HasPrefix v "GE-Proton"
                   ∧ HasPrefix v "Proton")
             (λ v, ¬ Contains v "Experimental" ∧ ¬ HasPrefix v "GE-Proton")).
  2:{ eapply Forall_impl; [exact Hall|]. simpl. tauto. }
  done.
Qed.

(** ** Stopping Steam *)

Lemma waitExit_spec (w : Procs) (n k : nat) :
  (polls (waitExit w n k).2 ≤ n)%nat
  ∧ slept (waitExit w n k).2 = 500 * Z.of_nat (polls (waitExit w n k).2)
  ∧ (∀ pid sig, Signal pid sig ∉ (waitExit w n k).2)
  ∧ ((waitExit w n k).1 = false →
     polls (waitExit w n k).2 = n
     ∧ ∀ j, (j < n)%nat → IsRunning w (k + j) = true)
  ∧ ((waitExit w n k).1 = true →
     ∃ j, (j < n)%nat ∧ IsRunning w (k + j) = false
          ∧ polls (waitExit w n k).2 = S j).
Proof.
  revert k. induction n as [|n IH]; intros k; simpl.
  { split_and!; [lia|done|by intros ?? ?%elem_of_nil| |done].
    intros _. split; [done|]. lia. }
  destruct (IsRunning w k) eqn:Hk.
  - specialize (IH (S k)). destruct (waitExit w n (S k)) as [exited t].
    simpl in *. destruct IH as (Hp & Hs & Hsig & Hf & Ht). split_and!.
    + lia.
    + rewrite Hs. lia.
    + intros pid sig Hin. apply elem_of_cons in Hin as [?|Hin]; [done|].
      apply elem_of_cons in Hin as [?|Hin]; [done|]. by eapply Hsig.
    + intros He. destruct (Hf He) as [Hpn Hrun]. split; [lia|].
      intros [|j] Hj; [by rewrite Nat.add_0_r|].
      rewrite <-Nat.add_succ_comm. apply Hrun. lia.
    + intros He. destruct (Ht He) as (j & Hj & Hrun & Hpj).
      exists (S j). split_and!; [lia| |lia].
      by rewrite <-Nat.add_succ_comm.
  - simpl. split_and!; [lia|done| |done|].
    + intros pid sig Hin. apply elem_of_cons in Hin as [?|Hin]; [done|].
      apply elem_of_cons in Hin as [?|Hin]; [done|]. by apply elem_of_nil in Hin.
    + intros _. exists 0%nat. split_and!; [lia| |done].
      by rewrite Nat.add_0_r.
Qed.

Lemma polls_app t1 t2 : polls (t1 ++ t2) = (polls t1 + polls t2)%nat.
Proof.
  unfold polls. induction t1 as [|[] t1 IH]; simpl; lia.
Qed.

Lemma slept_app t1 t2 : slept (t1 ++ t2) = slept t1 + slept t2.
Proof.
  unfold slept. induction t1 as [|[] t1 IH]; simpl; lia.
Qed.

(** Property X23.  [Kill] asks at most 21 times whether Steam is running
    and sleeps at most 11 seconds.  It does nothing when no PID is found.
    SIGKILL is sent only to the PID found, after SIGTERM, and only when the
    twenty polls of the grace period all found Steam running; the
    still-running error needs 21 such polls, and a success means that no
    PID was found or that some poll found Steam gone. *)
Theorem Kill_bounded (w : Procs) :
  (polls (Kill w).2 ≤ 21)%nat
  ∧ 0 <= slept (Kill w).2 <= 11000
  ∧ (GetPID w = None → Kill w = (None, []))
  ∧ (∀ pid, Signal pid SIGKILL ∈ (Kill w).2 →
       GetPID w = Some pid
       ∧ Signal pid SIGTERM ∈ (Kill w).2
       ∧ ∀ k, (k < 20)%nat → IsRunning w k = true)
  ∧ ((Kill w).1 = Some ErrStillRunning →
       ∀ k, (k ≤ 20)%nat → IsRunning w k = true)
  ∧ ((Kill w).1 = None →
       GetPID w = None ∨ ∃ k, (k ≤ 20)%nat ∧ IsRunning w k = false).
Proof.
  unfold Kill.
  destruct (waitExit_spec w 20 0) as (Hp & Hs & Hsig & Hf & Ht).
  destruct (waitExit w 20 0) as [exited t]. simpl in Hp, Hs, Hsig, Hf, Ht.
  destruct (GetPID w) as [pid|]; simpl.
  2:{ split_and!; try done; try lia.
      - by intros pid ?%elem_of_nil.
      - intros _. by left. }
  destruct (FindProcess w pid); simpl.
  2:{ split_and!; try done; try lia. by intros pid' ?%elem_of_nil. }
  destruct (SignalOk w pid SIGTERM); simpl.
  2:{ split_and!; try done; try lia.
      intros pid' Hin. apply elem_of_cons in Hin as [?|Hin]; [done|].
      by apply elem_of_nil in Hin. }
  destruct exited.
  { destruct (Ht eq_refl) as (j & Hj & Hrun & Hpj). simpl.
    split_and!; try done; try lia.
    - intros pid' Hin. apply elem_of_cons in Hin as [?|Hin]; [done|].
      by apply Hsig in Hin.
    - intros _. right. exists j. split; [lia|done]. }
  destruct (Hf eq_refl) as [Hpn Hrun].
  assert (∀ pid', Signal pid' SIGKILL ∈ Signal pid SIGTERM :: t ++ [Signal pid SIGKILL] →
            pid' = pid) as Hkill1.
  { intros pid' Hin. apply elem_of_cons in Hin as [?|Hin]; [done|].
    apply elem_of_app in Hin as [Hin|Hin]; [by apply Hsig in Hin|].
    apply list_elem_of_singleton in Hin. congruence. }
  assert (∀ pid' t', Signal pid' SIGKILL
                     ∈ Signal pid SIGTERM :: t ++ Signal pid SIGKILL :: t' →
            (∀ p s, Signal p s ∉ t') → pid' = pid) as Hkill2.
  { intros pid' t' Hin Ht'. apply elem_of_cons in Hin as [?|Hin]; [done|].
    apply elem_of_app in Hin as [Hin|Hin]; [by apply Hsig in Hin|].
    apply elem_of_cons in Hin as [?|Hin]; [congruence|]. by apply Ht' in Hin. }
  assert (∀ p s, Signal p s ∉ [Sleep 1000; Poll]) as Hrest.
  { intros p s Hin. apply elem_of_cons in Hin as [?|Hin]; [done|].
    apply elem_of_cons in Hin as [?|Hin]; [done|]. by apply elem_of_nil in Hin. }
  destruct (SignalOk w pid SIGKILL); simpl.
  2:{ rewrite !polls_app, !slept_app. simpl.
      split_and!; try done; try lia.
      intros pid' ->%Hkill1. split_and!; [done|by left|done]. }
  destruct (IsRunning w 20) eqn:H20; simpl;
    rewrite !polls_app, !slept_app; simpl.
  - split_and!; try done; try lia.
    + intros pid' ->%(Hkill2 _ _); [|done]. split_and!; [done|by left|done].
    + intros _ k Hk. destruct (decide (k = 20%nat)) as [->|]; [done|].
      apply Hrun. lia.
  - split_and!; try done; try lia.
    + intros pid' ->%(Hkill2 _ _); [|done]. split_and!; [done|by left|done].
    + intros _. right. exists 20%nat. split; [lia|done].
Qed.
